(** * hanzi-game: the decomposition / combination engine

    A shallow embedding of [web-app/src/lib/gameLogic.ts] (and of the
    [combine] command of the command-line wrapper) together with the
    properties the specification states about it.

    Conventions of the embedding:
    - a JavaScript string is the list of its UTF-16 code units;
    - a [Record<string, T>] loaded from JSON is a finite map [gmap]; a
      read with a key that the data supply is a lookup in the map, the
      symbols of the data being taken not to be names that every object
      inherits; the reads of [combineCards] and [decomposeCard], whose key
      is the target typed at the command line or the symbol of a card, also
      find these names ([readProperty]);
    - a [Map<string, T>] is a finite map, a [Set<string>] whose content is
      later listed is a duplicate-free list in insertion order;
    - [Date.now()] is an input of the functions that read the clock;
    - recursion is given a fuel argument, one unit per nested call, and
      returns [None] when the fuel runs out; a call returns when some amount
      of fuel gives [Some] result, and never returns when none does (the
      call stack of an engine is taken to be unbounded; on an engine the
      endless recursion ends in a [RangeError], which the handlers of the
      page do not catch);
    - [console.log] output is not modelled. *)

From Stdlib Require Import ZArith Lia.
From stdpp Require Import gmap list strings pretty.

Set Default Proof Using "Type".
Open Scope Z_scope.
Open Scope nat_scope.

(** ** JavaScript values *)

Module Js.

(** A string is the sequence of its UTF-16 code units. *)
Abbreviation jsstring := (list N).

(** A literal of printable ASCII characters. *)
Definition lit (s : string) : jsstring :=
  (λ a, Ascii.N_of_ascii a) <$> String.list_ascii_of_string s.

(** [String(n)] for a non-negative integer. *)
Definition ofNat (n : nat) : jsstring := lit (pretty n).
Definition ofN (n : N) : jsstring := lit (pretty n).

(** [s.startsWith(c)] and [s.endsWith(c)] for a one-unit string [c]. *)
Definition startsWith (s : jsstring) (c : N) : bool :=
  match s with
  | u :: _ => bool_decide (u = c)
  | [] => false
  end.

Definition endsWith (s : jsstring) (c : N) : bool :=
  match last s with
  | Some u => bool_decide (u = c)
  | None => false
  end.

(** [s.split('')]: one string per code unit. *)
Definition split_units (s : jsstring) : list jsstring :=
  (λ u, [u]) <$> s.

Definition isHighSurrogate (u : N) : bool :=
  ((55296 <=? u) && (u <=? 56319))%N.
Definition isLowSurrogate (u : N) : bool :=
  ((56320 <=? u) && (u <=? 57343))%N.

(** The string iterator ([for (const ch of s)], [[...s]]): one string per
    code point, a surrogate pair staying together. *)
Fixpoint codePoints (s : jsstring) : list jsstring :=
  match s with
  | [] => []
  | u :: rest =>
      match rest with
      | v :: rest' =>
          if isHighSurrogate u && isLowSurrogate v
          then [u; v] :: codePoints rest'
          else [u] :: codePoints rest
      | [] => [[u]]
      end
  end.

(** [parts.join(sep)]. *)
Fixpoint join (sep : jsstring) (parts : list jsstring) : jsstring :=
  match parts with
  | [] => []
  | [p] => p
  | p :: rest => p ++ sep ++ join sep rest
  end.

(** The order of the default [sort]: code unit by code unit. *)
Fixpoint ltb (a b : jsstring) : bool :=
  match a, b with
  | _, [] => false
  | [], _ :: _ => true
  | x :: a', y :: b' =>
      if (x <? y)%N then true
      else if (y <? x)%N then false
      else ltb a' b'
  end.

Definition defaultCompare (a b : jsstring) : Z :=
  if ltb a b then (-1)%Z else if ltb b a then 1%Z else 0%Z.

(** [Array.prototype.sort] with a comparator.  The sort is stable; for a
    consistent comparator every stable sort gives the same list, so the
    insertion sort below stands for the engine's own. *)
Fixpoint insertBy {A} (cmp : A → A → Z) (x : A) (l : list A) : list A :=
  match l with
  | [] => [x]
  | y :: l' =>
      if (cmp y x <? 0)%Z then y :: insertBy cmp x l' else x :: y :: l'
  end.

Definition sortBy {A} (cmp : A → A → Z) (l : list A) : list A :=
  foldr (insertBy cmp) [] l.

Definition sort (l : list jsstring) : list jsstring :=
  sortBy defaultCompare l.

(** 32-bit integer operators. *)
Definition toInt32 (z : Z) : Z :=
  ((z + 2 ^ 31) mod 2 ^ 32 - 2 ^ 31)%Z.

(** [a << n] *)
Definition shl (a n : Z) : Z :=
  toInt32 (Z.shiftl (toInt32 a) (n mod 32)).

(** [a & b] *)
Definition band (a b : Z) : Z :=
  toInt32 (Z.land (toInt32 a) (toInt32 b)).

(** Truthiness of a number. *)
Definition truthy (z : Z) : bool := negb (z =? 0)%Z.

(** The values of [i] in [for (let i = lo; i < hi; i++)]. *)
Definition range (lo hi : Z) : list Z :=
  (λ k, (lo + Z.of_nat k)%Z) <$> seq 0 (Z.to_nat (hi - lo)).

(** [arr.indexOf(x)], [-1] when absent. *)
Fixpoint indexOf {A} `{EqDecision A} (l : list A) (x : A) : Z :=
  match l with
  | [] => (-1)%Z
  | y :: l' =>
      if decide (y = x) then 0%Z
      else let r := indexOf l' x in
           if (r =? -1)%Z then (-1)%Z else (r + 1)%Z
  end.

(** [set.add(x)] on a [Set] kept in insertion order. *)
Definition setAdd {A} `{EqDecision A} (x : A) (s : list A) : list A :=
  if bool_decide (x ∈ s) then s else s ++ [x].

(** [for (const x of xs) acc.push(...f(x))] *)
Definition pushAll {A B} (f : A → list B) (acc : list B) (xs : list A)
  : list B :=
  foldl (λ acc x, acc ++ f x) acc xs.

(** [for (const x of xs) leaves.push(...f(x))], where the call [f(x)] may
    fail to return. *)
Definition collect {A B} (f : A → option (list B)) (acc : option (list B))
    (xs : list A) : option (list B) :=
  foldl (λ leaves x, leaves ← leaves; sub ← f x; Some (leaves ++ sub)) acc xs.

(** ** Property reads on parsed JSON

    The maps of the game data are objects built by [JSON.parse].  A read
    [obj[name]] finds the object's own property when it has one.  Otherwise
    it finds what [Object.prototype] holds under that name, a function (for
    [__proto__] the prototype itself): a truthy value with none of the
    fields of an entry.  Otherwise it is [undefined]. *)
Definition objectPrototypeNames : list jsstring :=
  [lit "constructor"; lit "__defineGetter__"; lit "__defineSetter__";
   lit "hasOwnProperty"; lit "__lookupGetter__"; lit "__lookupSetter__";
   lit "isPrototypeOf"; lit "propertyIsEnumerable"; lit "toString";
   lit "valueOf"; lit "__proto__"; lit "toLocaleString"].

Inductive PropertyRead (T : Type) :=
  | Own (v : T)
  | Inherited
  | Undefined.
Arguments Own {T} v.
Arguments Inherited {T}.
Arguments Undefined {T}.

Definition readProperty {T} (obj : gmap jsstring T) (name : jsstring)
    : PropertyRead T :=
  match obj !! name with
  | Some v => Own v
  | None =>
      if bool_decide (name ∈ objectPrototypeNames) then Inherited
      else Undefined
  end.

(** [!obj[name]], the values of [obj] being objects or arrays. *)
Definition falsy {T} (r : PropertyRead T) : bool :=
  match r with
  | Undefined => true
  | _ => false
  end.

(** How a call ends: with a value, or with a thrown exception. *)
Inductive Completion (A : Type) :=
  | Normal (a : A)
  | Throw (message : jsstring).
Arguments Normal {A} a.
Arguments Throw {A} message.

End Js.

Import Js.


(** ** Data model ([types.ts]) *)

Record CharacterDecomposition := {
  decompCharacter : jsstring;
  ids : jsstring;
  components : list jsstring
}.

Record GameData := {
  charToDecomposition : gmap jsstring CharacterDecomposition;
  componentsToChars : gmap jsstring (list jsstring);
  allowedComponents : list jsstring;
  hskWords : gmap jsstring (list jsstring);
  wordGlosses : option (gmap jsstring (list jsstring));
  charGlosses : option (gmap jsstring (list jsstring))
}.

Record Card := {
  id : jsstring;
  character : jsstring;
  isLeaf : bool
}.

Record Hint := {
  cardIds : list jsstring;
  used : bool;
  isAnswer : option bool
}.

Record GameState := {
  currentLevel : Z;
  roundsPerLevel : Z;
  currentRound : Z;
  totalRoundsCompleted : Z;
  targetWord : jsstring;
  targetGloss : jsstring;
  availableCards : list Card;
  selectedCards : list Card;
  possibleCombinations : list jsstring;
  attemptsLeft : Z;
  maxAttempts : Z;
  gameOver : bool;
  won : bool;
  hints : list Hint;
  hintsUsed : Z;
  totalHintsUsed : Z
}.

#[global] Instance Card_inhabited : Inhabited Card :=
  populate {| id := []; character := []; isLeaf := true |}.

(** [!data.charToDecomposition[c]] for a symbol [c] that the data supplies
    (a component of an entry, a leaf of a word of a level): an entry is an
    object, hence truthy.  The symbols of the data are characters and entity
    references such as [&CDP-8974;]; none of them is a name that objects
    inherit, for which the reduction to leaves would stop with a
    [TypeError]. *)
Definition noDecomposition (data : GameData) (c : jsstring) : bool :=
  bool_decide (charToDecomposition data !! c = None).

(** [!data.charToDecomposition[c]] for a string [c] from anywhere: the
    symbol of a card of a stored game, the target typed at the command
    line. *)
Definition readsNoEntry (data : GameData) (c : jsstring) : bool :=
  falsy (readProperty (charToDecomposition data) c).

(** ** Leaf reduction *)

(** [decomposeToLeaves], one unit of fuel per call. *)
Fixpoint decomposeToLeaves_fuel (fuel : nat) (character : jsstring)
    (data : GameData) (path : list jsstring) : option (list jsstring) :=
  match fuel with
  | O => None
  | S fuel =>
      if bool_decide (character ∈ path) then Some [character]
      else
        match charToDecomposition data !! character with
        | None => Some [character]
        | Some decomp =>
            let newPath := path ++ [character] in
            collect (λ component,
                       decomposeToLeaves_fuel fuel component data newPath)
                    (Some []) (components decomp)
        end
  end.

(** The graph entries that are not on the expansion path: the measure that
    decreases along the recursion. *)
Definition unvisited (data : GameData) (path : list jsstring) : gset jsstring :=
  dom (charToDecomposition data) ∖ list_to_set path.

(** The call depth never exceeds the number of graph entries plus one
    (see [decomposeToLeaves_fuel_enough]), which makes the function total. *)
Definition decomposeDepth (data : GameData) : nat :=
  S (size (charToDecomposition data)).

Definition decomposeToLeaves (character : jsstring) (data : GameData)
    (path : list jsstring) : list jsstring :=
  default [character]
    (decomposeToLeaves_fuel (decomposeDepth data) character data path).

Definition getComponentsForWord (word : jsstring) (data : GameData)
    : list jsstring :=
  let isEntityReference := startsWith word 38%N && endsWith word 59%N in
  let isSingleChar :=
    bool_decide (length word = 1) || bool_decide (length (codePoints word) = 1) in
  if isEntityReference || isSingleChar then
    [] ++ decomposeToLeaves word data []
  else
    pushAll (λ char, decomposeToLeaves char data []) [] (codePoints word).

Definition createCardsFromComponents (comps : list jsstring) (data : GameData)
    (now : nat → N) : list Card :=
  imap (λ index comp,
          {| id := comp ++ lit "-" ++ ofNat index ++ lit "-" ++ ofN (now index);
             character := comp;
             isLeaf := noDecomposition data comp |}) comps.

(** ** Multiset containment *)

(** The counting loops: [counts.set(c, (counts.get(c) || 0) + 1)]. *)
Definition countOccurrences (l : list jsstring) : gmap jsstring nat :=
  foldl (λ counts char, <[char := default 0 (counts !! char) + 1]> counts) ∅ l.

Definition hasEnoughComponents (selectedChars requiredComponents : list jsstring)
    (data : GameData) : bool :=
  let selectedLeafComponents :=
    pushAll (λ char, decomposeToLeaves char data []) [] selectedChars in
  let selectedCounts := countOccurrences selectedLeafComponents in
  let requiredCounts := countOccurrences requiredComponents in
  bool_decide
    (map_Forall (λ char requiredCount,
                   ¬ (default 0 (selectedCounts !! char) < requiredCount))
                requiredCounts).

(** ** Combination finder *)

(** The canonical key: [chars.slice().sort().join('')]. *)
Definition sortedKey (chars : list jsstring) : jsstring :=
  join [] (sort chars).

(** The inner closure of [findPossibleCombinations]; [allCombinations] is the
    set it adds to. *)
Definition checkSubset (data : GameData) (allCombinations : list jsstring)
    (chars : list jsstring) : list jsstring :=
  if bool_decide (length chars = 0) then allCombinations
  else
    match componentsToChars data !! sortedKey chars with
    | None => allCombinations
    | Some matches =>
        foldl (λ all char,
                 let requiredComponents := getComponentsForWord char data in
                 if hasEnoughComponents chars requiredComponents data
                 then setAdd char all else all)
              allCombinations matches
    end.

(** The subset selected by the bit mask [i]. *)
Definition subsetOfMask (selectedChars : list jsstring) (i : Z)
    : list jsstring :=
  foldl (λ subset j,
           if truthy (band i (shl 1 (Z.of_nat j)))
           then subset ++ [selectedChars !!! j] else subset)
        [] (seq 0 (length selectedChars)).

Definition findPossibleCombinations (selectedCards : list Card)
    (data : GameData) : list jsstring :=
  if bool_decide (length selectedCards = 0) then []
  else
    let selectedChars := character <$> selectedCards in
    let n := Z.of_nat (length selectedChars) in
    foldl (λ all i, checkSubset data all (subsetOfMask selectedChars i))
          [] (range 1 (shl 1 n)).

(** ** Hint search *)

(** [for (const x of xs) if (f(x)) return true; return false], where the
    call [f(x)] may itself fail to return. *)
Fixpoint firstTrue {A} (f : A → option bool) (xs : list A) : option bool :=
  match xs with
  | [] => Some false
  | x :: xs' =>
      match f x with
      | None => None
      | Some true => Some true
      | Some false => firstTrue f xs'
      end
  end.

(** [isPartOfDecomposition], one unit of fuel per call; [None] when the
    fuel does not suffice for the call to return. *)
Fixpoint isPartOfDecomposition_fuel (fuel : nat) (char target : jsstring)
    (data : GameData) : option bool :=
  match fuel with
  | O => None
  | S fuel =>
      match charToDecomposition data !! target with
      | None => Some false
      | Some targetDecomp =>
          if bool_decide (char ∈ components targetDecomp) then Some true
          else
            firstTrue (λ component,
                         isPartOfDecomposition_fuel fuel char component data)
                      (components targetDecomp)
      end
  end.

(** An element of [validSteps]. *)
Record Step := {
  stepCardIds : list jsstring;
  result : jsstring;
  leadsToTarget : bool
}.

(** A loop whose body may fail to return. *)
Definition forEachM {A S} (xs : list A) (init : S) (body : S → A → option S)
    : option S :=
  foldl (λ acc x, s ← acc; body s x) (Some init) xs.

(** The body shared by the pair loop and the triple loop of
    [findValidNextSteps]: the candidates of one group of cards. *)
Definition checkGroup (fuel : nat) (targetWord : jsstring) (data : GameData)
    (group : list Card) (validSteps : list Step) : option (list Step) :=
  let selectedChars := character <$> group in
  let possibleResults :=
    default [] (componentsToChars data !! sortedKey selectedChars) in
  forEachM possibleResults validSteps (λ validSteps result,
    let requiredComponents := getComponentsForWord result data in
    if hasEnoughComponents selectedChars requiredComponents data then
      let isTarget := bool_decide (result = targetWord) in
      isIntermediate ←
        (if negb isTarget
         then isPartOfDecomposition_fuel fuel result targetWord data
         else Some false);
      if isTarget || isIntermediate then
        Some (validSteps ++
                [{| stepCardIds := id <$> group;
                    result := result;
                    leadsToTarget := true |}])
      else Some validSteps
    else Some validSteps).

(** [findValidNextSteps]; the map [charToCardIds] it builds is never read and
    is left out. *)
Definition findValidNextSteps_fuel (fuel : nat) (targetWord : jsstring)
    (cards : list Card) (data : GameData) : option (list Step) :=
  let n := length cards in
  validSteps ←
    forEachM (seq 0 n) [] (λ validSteps i,
      forEachM (seq (i + 1) (n - (i + 1))) validSteps (λ validSteps j,
        checkGroup fuel targetWord data
          [cards !!! i; cards !!! j] validSteps));
  forEachM (seq 0 n) validSteps (λ validSteps i,
    forEachM (seq (i + 1) (n - (i + 1))) validSteps (λ validSteps j,
      forEachM (seq (j + 1) (n - (j + 1))) validSteps (λ validSteps k,
        checkGroup fuel targetWord data
          [cards !!! i; cards !!! j; cards !!! k] validSteps))).

(** The map from a character to the ids of the cards that hold it. *)
Definition buildCharToCardIds (cards : list Card)
    : gmap jsstring (list jsstring) :=
  foldl (λ charToCardIds card,
           let m :=
             if bool_decide (is_Some (charToCardIds !! character card))
             then charToCardIds
             else <[character card := []]> charToCardIds in
           alter (λ l, l ++ [id card]) (character card) m)
        ∅ cards.

(** The comparator that ranks the steps reaching the target first. *)
Definition targetFirst (targetWord : jsstring) (a b : Step) : Z :=
  if bool_decide (result a = targetWord) && negb (bool_decide (result b = targetWord))
  then (-1)%Z
  else if negb (bool_decide (result a = targetWord)) && bool_decide (result b = targetWord)
  then 1%Z
  else 0%Z.

(** The loop that takes up to three hints with distinct card-id keys.
    [step.cardIds.sort()] sorts the step's own array, which is the array the
    hint then holds. *)
Definition takeHints (validSteps : list Step) : list Hint :=
  fst (foldl (λ '(hints, usedCardPairs) step,
                let sortedIds := sort (stepCardIds step) in
                let pairKey := join (lit ",") sortedIds in
                if negb (bool_decide (pairKey ∈ usedCardPairs))
                   && bool_decide (length hints < 3)
                then (hints ++ [{| cardIds := sortedIds;
                                   used := false;
                                   isAnswer := None |}],
                      setAdd pairKey usedCardPairs)
                else (hints, usedCardPairs))
             ([], []) validSteps).

Definition generateHints_fuel (fuel : nat) (targetWord : jsstring)
    (cards : list Card) (data : GameData) : option (list Hint) :=
  let charToCardIds := buildCharToCardIds cards in
  match charToCardIds !! targetWord with
  | Some (first :: _) =>
      Some [{| cardIds := [first]; used := false; isAnswer := Some true |}]
  | _ =>
      validSteps ← findValidNextSteps_fuel fuel targetWord cards data;
      Some (takeHints (sortBy (targetFirst targetWord) validSteps))
  end.

(** ** Pool transitions *)

Definition combineCards (selectedCards : list Card) (targetChar : jsstring)
    (availableCards : list Card) (data : GameData) (now : N) : list Card :=
  let remaining :=
    filter (λ card, ¬ is_Some (list_find (λ sc, id sc = id card) selectedCards))
           availableCards in
  let newCard :=
    {| id := targetChar ++ lit "-combined-" ++ ofN now;
       character := targetChar;
       isLeaf := readsNoEntry data targetChar |} in
  remaining ++ [newCard].

(** The cards [decomposeCard] creates for the components of an entry. *)
Definition componentCards (decomp : CharacterDecomposition) (data : GameData)
    (now : nat → N) : list Card :=
  imap (λ index comp,
          {| id := comp ++ lit "-decomp-" ++ ofNat index ++ lit "-"
                        ++ ofN (now index);
             character := comp;
             isLeaf := noDecomposition data comp |})
       (components decomp).

(** [decomposeCard].  For a card whose symbol is a name that objects
    inherit, [decomp] is truthy and [decomp.components] is [undefined]: the
    call of [map] throws a [TypeError]. *)
Definition decomposeCard (card : Card) (availableCards : list Card)
    (data : GameData) (now : nat → N) : Completion (list Card) :=
  match readProperty (charToDecomposition data) (character card) with
  | Undefined => Normal availableCards
  | Inherited =>
      Throw (lit "Cannot read properties of undefined (reading 'map')")
  | Own decomp =>
      let remaining := filter (λ c, id c ≠ id card) availableCards in
      let newCards := componentCards decomp data now in
      Normal (remaining ++ newCards)
  end.

(** The loop of [checkAnswer]: [remainingChars] is the array the matched
    characters are spliced out of; a character that is not found ends the
    loop with [false]. *)
Fixpoint matchTargetChars (remainingChars targetChars : list jsstring)
    : bool :=
  match targetChars with
  | [] => true
  | targetChar :: rest =>
      let index := indexOf remainingChars targetChar in
      if (index =? -1)%Z then false
      else matchTargetChars (delete (Z.to_nat index) remainingChars) rest
  end.

Definition checkAnswer (availableCards : list Card) (targetWord : jsstring)
    : bool :=
  let availableChars := character <$> availableCards in
  let targetChars := split_units targetWord in
  let remainingChars := availableChars in
  matchTargetChars remainingChars targetChars.

(** ** The [combine] command of the command-line wrapper ([cli/game-cli.ts]) *)

Record PersistedGameState := {
  gameState : GameState;
  gameId : jsstring;
  createdAt : jsstring;
  lastModified : jsstring
}.

(** How a command ends: it saves the game, or it reports a failure and
    returns (or throws) before [saveGame]. *)
Inductive CmdOutcome :=
  | Saved
  | GameNotFound      (* loadGame: "Game not found: ..." *)
  | EmptySelection.   (* cmdCombine: "No cards selected!" *)

(** [saveGame]: the games directory maps a game id to the stored state. *)
Definition saveGame (st : PersistedGameState) (isoNow : jsstring)
    (games : gmap jsstring PersistedGameState)
    : gmap jsstring PersistedGameState :=
  let st' := {| gameState := gameState st;
                gameId := gameId st;
                createdAt := createdAt st;
                lastModified := isoNow |} in
  <[gameId st' := st']> games.

Definition cmdCombine (gameId' targetChar : jsstring) (data : GameData)
    (now : N) (isoNow : jsstring) (games : gmap jsstring PersistedGameState)
    : CmdOutcome * gmap jsstring PersistedGameState :=
  match games !! gameId' with
  | None => (GameNotFound, games)
  | Some st =>
      let state := gameState st in
      if bool_decide (length (selectedCards state) = 0) then
        (EmptySelection, games)
      else
        let state' :=
          {| currentLevel := currentLevel state;
             roundsPerLevel := roundsPerLevel state;
             currentRound := currentRound state;
             totalRoundsCompleted := totalRoundsCompleted state;
             targetWord := targetWord state;
             targetGloss := targetGloss state;
             availableCards :=
               combineCards (selectedCards state) targetChar
                            (availableCards state) data now;
             selectedCards := [];
             possibleCombinations := [];
             attemptsLeft := attemptsLeft state;
             maxAttempts := maxAttempts state;
             gameOver := gameOver state;
             won := won state;
             hints := hints state;
             hintsUsed := hintsUsed state;
             totalHintsUsed := totalHintsUsed state |} in
        let st' := {| gameState := state';
                      gameId := gameId st;
                      createdAt := createdAt st;
                      lastModified := lastModified st |} in
        (Saved, saveGame st' isoNow games)
  end.

(** ** Notions the properties are stated with *)

(** Number of occurrences of [x] in [l]. *)
Definition count (x : jsstring) (l : list jsstring) : nat :=
  length (filter (λ y, y = x) l).

(** The leaves a list of held symbols reduces to. *)
Definition leavesOf (data : GameData) (held : list jsstring) : list jsstring :=
  held ≫= (λ c, decomposeToLeaves c data []).

(** A candidate is justified by a selection when some non-empty sub-list of
    the selection has the candidate among the matches of its canonical key
    and passes the containment check for the candidate's required leaves. *)
Definition justifiedBy (data : GameData) (selectedChars : list jsstring)
    (c : jsstring) : Prop :=
  ∃ subset,
    subset ≠ [] ∧ sublist subset selectedChars ∧
    (∃ matches,
       componentsToChars data !! sortedKey subset = Some matches ∧ c ∈ matches) ∧
    hasEnoughComponents subset (getComponentsForWord c data) data = true.

(** Path membership as the specification words it: [s] is an immediate
    component of [t], or a path member of an immediate component of [t]. *)
Inductive PathMember (data : GameData) (s : jsstring) : jsstring → Prop :=
  | PathMember_component t decomp :
      charToDecomposition data !! t = Some decomp →
      s ∈ components decomp →
      PathMember data s t
  | PathMember_below t decomp c :
      charToDecomposition data !! t = Some decomp →
      c ∈ components decomp →
      PathMember data s c →
      PathMember data s t.

(** A card up to its identifier. *)
Definition face (c : Card) : jsstring * bool := (character c, isLeaf c).

(** The cards at two or three increasing positions of the pool. *)
Definition isGroupOf (cards group : list Card) : Prop :=
  (∃ i j, i < j ∧ j < length cards ∧ group = [cards !!! i; cards !!! j]) ∨
  (∃ i j k, i < j ∧ j < k ∧ k < length cards ∧
            group = [cards !!! i; cards !!! j; cards !!! k]).

(** What [findValidNextSteps] promises about a step it returns: the step
    names the cards of a pair or triple of the pool, its result is a candidate
    of the reverse index for that group, the group passes the containment
    check for it, and the result is the target or a path member of it. *)
Definition validStep (data : GameData) (targetWord : jsstring)
    (cards : list Card) (step : Step) : Prop :=
  ∃ group,
    isGroupOf cards group ∧
    stepCardIds step = id <$> group ∧
    (∃ matches,
       componentsToChars data !! sortedKey (character <$> group) = Some matches ∧
       result step ∈ matches) ∧
    hasEnoughComponents (character <$> group)
      (getComponentsForWord (result step) data) data = true ∧
    (result step = targetWord ∨ PathMember data (result step) targetWord).

(** The hint that points at the card that already is the answer. *)
Definition answerHint (card : Card) : Hint :=
  {| cardIds := [id card]; used := false; isAnswer := Some true |}.

(** A graph is ranked when every component has a smaller rank than the
    symbol it is a component of; such a graph has no cycle. *)
Definition ranked (data : GameData) (rank : jsstring → nat) : Prop :=
  map_Forall (λ s decomp, Forall (λ c, rank c < rank s) (components decomp))
             (charToDecomposition data).

(** ** Sample data *)

Definition entry (c : jsstring) (comps : list jsstring)
    : CharacterDecomposition :=
  {| decompCharacter := c; ids := []; components := comps |}.

Definition sampleData (graph : list (jsstring * list jsstring))
    (index : list (jsstring * list jsstring)) : GameData :=
  {| charToDecomposition :=
       list_to_map ((λ p, (p.1, entry p.1 p.2)) <$> graph);
     componentsToChars := list_to_map index;
     allowedComponents := [];
     hskWords := ∅;
     wordGlosses := None;
     charGlosses := None |}.

Definition card (ident : string) (c : jsstring) (leaf : bool) : Card :=
  {| id := lit ident; character := c; isLeaf := leaf |}.

(** A graph with the cycle [A -> [B]], [B -> [A]], and a composite
    [X -> [P, Q]] that the reverse index offers for the pair [P], [Q]. *)
Definition cyclicData : GameData :=
  sampleData
    [(lit "A", [lit "B"]); (lit "B", [lit "A"]); (lit "X", [lit "P"; lit "Q"])]
    [(lit "PQ", [lit "X"])].

Definition cyclicPool : list Card :=
  [card "1" (lit "P") true; card "2" (lit "Q") true].

(** Characters of the scenarios of the specification. *)
Definition ri : jsstring := [26085%N].     (* U+65E5, sun *)
Definition yue : jsstring := [26376%N].    (* U+6708, moon *)
Definition ming : jsstring := [26126%N].   (* U+660E, bright *)
Definition xi : jsstring := [22805%N].     (* U+5915, evening *)
Definition duo : jsstring := [22810%N].    (* U+591A, many *)
Definition kou : jsstring := [21475%N].    (* U+53E3, mouth *)
Definition name_ : jsstring := [21517%N].  (* U+540D, name *)
Definition da : jsstring := [22823%N].     (* U+5927, big *)
Definition xue : jsstring := [23416%N].    (* U+5B78, study *)
Definition zi : jsstring := [23376%N].     (* U+5B50, child *)
Definition xueTop : jsstring := [55386%N; 56687%N].  (* U+2696F *)
Definition ge : jsstring := [21733%N].     (* U+54E5, elder brother *)
Definition ke : jsstring := [21487%N].     (* U+53EF, can *)
Definition cdp8974 : jsstring := lit "&CDP-8974;".

Definition hanziData : GameData :=
  sampleData
    [(ming, [ri; yue]); (duo, [xi; xi]); (name_, [xi; kou]);
     (xue, [xueTop; zi]); (ge, [ke; ke]); (ke, [cdp8974; kou])]
    [(sortedKey [ri; yue], [ming]);
     (sortedKey [xi; kou], [name_; duo]);
     (sortedKey [xi; xi], [duo]);
     (sortedKey [xueTop; zi], [xue]);
     (sortedKey [ke; ke], [ge]);
     (sortedKey [cdp8974; kou], [ke])].

(** A rank for [hanziData]: composites above their parts. *)
Definition hanziRank (s : jsstring) : nat :=
  if bool_decide (s = ge) then 2
  else if bool_decide (s ∈ [ming; duo; name_; xue; ke]) then 1 else 0.

Definition sunMoonPool : list Card :=
  [card "1" ri true; card "2" yue true; card "3" xi true].

(** A stored game with an empty selection. *)
Definition storedGame : PersistedGameState :=
  {| gameState :=
       {| currentLevel := 1; roundsPerLevel := 2; currentRound := 1;
          totalRoundsCompleted := 0;
          targetWord := ming; targetGloss := lit "Word: bright";
          availableCards := sunMoonPool;
          selectedCards := []; possibleCombinations := [];
          attemptsLeft := 3; maxAttempts := 3;
          gameOver := false; won := false;
          hints := []; hintsUsed := 0; totalHintsUsed := 0 |};
     gameId := lit "test1";
     createdAt := lit "2024-01-01T00:00:00.000Z";
     lastModified := lit "2024-01-01T00:00:00.000Z" |}.


(** * The rest of the engine ([gameLogic.ts]) *)

(** [String(z)] for an integer. *)
Definition ofZ (z : Z) : jsstring := lit (pretty z).

(** [getHSKLevel].  Numbers are integers here; [roundsPerLevel] is not zero
    (every state the code builds has [roundsPerLevel = 2]), so that
    [Math.floor(a / b)] is the floor division [a / b]. *)
Definition getHSKLevel (totalRoundsCompleted roundsPerLevel : Z) : Z :=
  let level := (totalRoundsCompleted / roundsPerLevel + 1)%Z in
  Z.min level 7.

(** The random sources.  [pick n] is [Math.floor(Math.random() * n)], an
    index below [n]; a shuffle is [arr.sort(() => Math.random() - 0.5)],
    which returns the elements of [arr] in some order. *)
Definition Picker := nat → nat.
Definition Shuffle := list jsstring → list jsstring.

(** The filter callback of [selectRandomWord]. *)
Definition isValidWord (data : GameData) (word : jsstring) : bool :=
  if negb (bool_decide (length word = 1)) then false
  else
    match charToDecomposition data !! word with
    | None => false
    | Some decomp => bool_decide (0 < length (components decomp))
    end.

Definition selectRandomWord (hskLevel : Z) (data : GameData) (pick : Picker)
    : Completion jsstring :=
  match hskWords data !! ofZ hskLevel with
  | None => Throw (lit "No words found for HSK level " ++ ofZ hskLevel)
  | Some words =>
      if bool_decide (length words = 0) then
        Throw (lit "No words found for HSK level " ++ ofZ hskLevel)
      else
        let validWords := filter (λ word, isValidWord data word) words in
        let wordPool :=
          if bool_decide (0 < length validWords) then validWords else words in
        Normal (wordPool !!! pick (length wordPool))
  end.

(** The filter callback of [getComponentsWithDecoys]. *)
Definition isDecoyChar (data : GameData) (targetWord w : jsstring) : bool :=
  if bool_decide (w = targetWord) then false
  else if negb (bool_decide (length w = 1)) then false
  else
    match charToDecomposition data !! w with
    | None => false
    | Some decomp => bool_decide (0 < length (components decomp))
    end.

(** The object [getComponentsWithDecoys] returns. *)
Record Deal := {
  dealComponents : list jsstring;
  decoyWords : list jsstring
}.

Definition getComponentsWithDecoys (targetWord : jsstring) (hskLevel : Z)
    (data : GameData) (shuffleDecoys shuffleComponents : Shuffle) : Deal :=
  let targetComponents := getComponentsForWord targetWord data in
  let allComponents := [] ++ targetComponents in
  let levelWords := default [] (hskWords data !! ofZ hskLevel) in
  let availableDecoyChars :=
    filter (λ w, isDecoyChar data targetWord w) levelWords in
  let shuffled := shuffleDecoys availableDecoyChars in
  let selectedDecoys := take 2 shuffled in
  let '(allComponents, decoyWords) :=
    foldl (λ '(allComponents, decoyWords) decoy,
             let decoyComponents := getComponentsForWord decoy data in
             (allComponents ++ decoyComponents, decoyWords ++ [decoy]))
          (allComponents, []) selectedDecoys in
  let filteredComponents := filter (λ comp, comp ≠ targetWord) allComponents in
  let shuffledComponents := shuffleComponents filteredComponents in
  {| dealComponents := shuffledComponents; decoyWords := decoyWords |}.

(** The gloss text, computed the same way by [initializeGameState] and by
    [nextRound]. *)
Definition targetGlossOf (targetWord : jsstring) (data : GameData) : jsstring :=
  let isSingleChar := bool_decide (length targetWord = 1) in
  let definitions :=
    if isSingleChar then charGlosses data ≫= (λ m, m !! targetWord)
    else wordGlosses data ≫= (λ m, m !! targetWord) in
  match definitions with
  | Some (d :: ds) => join (lit "; ") (d :: ds)
  | _ => lit "Word: " ++ targetWord
  end.

(** [initializeGameState]: [None] when the hint search does not return. *)
Definition initializeGameState_fuel (fuel : nat) (data : GameData)
    (pick : Picker) (shuffleDecoys shuffleComponents : Shuffle)
    (now : nat → N) : option (Completion GameState) :=
  let hskLevel := 1%Z in
  match selectRandomWord hskLevel data pick with
  | Throw message => Some (Throw message)
  | Normal targetWord =>
      let deal :=
        getComponentsWithDecoys targetWord hskLevel data
          shuffleDecoys shuffleComponents in
      let cards := createCardsFromComponents (dealComponents deal) data now in
      let targetGloss := targetGlossOf targetWord data in
      hints ← generateHints_fuel fuel targetWord cards data;
      Some (Normal
        {| currentLevel := hskLevel;
           roundsPerLevel := 2;
           currentRound := 1;
           totalRoundsCompleted := 0;
           targetWord := targetWord;
           targetGloss := targetGloss;
           availableCards := cards;
           selectedCards := [];
           possibleCombinations := [];
           attemptsLeft := 3;
           maxAttempts := 3;
           gameOver := false;
           won := false;
           hints := hints;
           hintsUsed := 0;
           totalHintsUsed := 0 |})
  end.

Definition regenerateHints_fuel (fuel : nat) (state : GameState)
    (data : GameData) : option GameState :=
  newHints ← generateHints_fuel fuel (targetWord state) (availableCards state) data;
  Some {| currentLevel := currentLevel state;
          roundsPerLevel := roundsPerLevel state;
          currentRound := currentRound state;
          totalRoundsCompleted := totalRoundsCompleted state;
          targetWord := targetWord state;
          targetGloss := targetGloss state;
          availableCards := availableCards state;
          selectedCards := selectedCards state;
          possibleCombinations := possibleCombinations state;
          attemptsLeft := attemptsLeft state;
          maxAttempts := maxAttempts state;
          gameOver := gameOver state;
          won := won state;
          hints := newHints;
          hintsUsed := 0;
          totalHintsUsed := totalHintsUsed state |}.

(** [useHint].  The hints of a state are distinct objects, so the test
    [h === nextHint] singles out the position at which [find] stopped. *)
Definition useHint (state : GameState) : GameState * option Hint :=
  match list_find (λ h, used h = false) (hints state) with
  | None => (state, None)
  | Some (position, nextHint) =>
      let updatedHints :=
        imap (λ i h,
                if bool_decide (i = position)
                then {| cardIds := cardIds h; used := true; isAnswer := isAnswer h |}
                else h)
             (hints state) in
      ({| currentLevel := currentLevel state;
          roundsPerLevel := roundsPerLevel state;
          currentRound := currentRound state;
          totalRoundsCompleted := totalRoundsCompleted state;
          targetWord := targetWord state;
          targetGloss := targetGloss state;
          availableCards := availableCards state;
          selectedCards := selectedCards state;
          possibleCombinations := possibleCombinations state;
          attemptsLeft := attemptsLeft state;
          maxAttempts := maxAttempts state;
          gameOver := gameOver state;
          won := won state;
          hints := updatedHints;
          hintsUsed := (hintsUsed state + 1)%Z;
          totalHintsUsed := (totalHintsUsed state + 1)%Z |},
       Some nextHint)
  end.

(** [nextRound]; [a % b] is the truncated remainder. *)
Definition nextRound_fuel (fuel : nat) (state : GameState) (data : GameData)
    (pick : Picker) (shuffleDecoys shuffleComponents : Shuffle)
    (now : nat → N) : option (Completion GameState) :=
  let newTotalRounds := (totalRoundsCompleted state + 1)%Z in
  let newLevel := getHSKLevel newTotalRounds (roundsPerLevel state) in
  let newRound := (Z.rem newTotalRounds (roundsPerLevel state) + 1)%Z in
  match selectRandomWord newLevel data pick with
  | Throw message => Some (Throw message)
  | Normal targetWord =>
      let deal :=
        getComponentsWithDecoys targetWord newLevel data
          shuffleDecoys shuffleComponents in
      let cards := createCardsFromComponents (dealComponents deal) data now in
      let targetGloss := targetGlossOf targetWord data in
      hints ← generateHints_fuel fuel targetWord cards data;
      Some (Normal
        {| currentLevel := newLevel;
           roundsPerLevel := roundsPerLevel state;
           currentRound := newRound;
           totalRoundsCompleted := newTotalRounds;
           targetWord := targetWord;
           targetGloss := targetGloss;
           availableCards := cards;
           selectedCards := [];
           possibleCombinations := [];
           attemptsLeft := maxAttempts state;
           maxAttempts := maxAttempts state;
           gameOver := false;
           won := false;
           hints := hints;
           hintsUsed := 0;
           totalHintsUsed := totalHintsUsed state |})
  end.


(** * The other commands of the command-line wrapper ([cli/game-cli.ts]) *)

(** What [parseInt] made of an argument: an integer, or [NaN]. *)
Inductive ParsedIndex :=
  | IndexNaN
  | Index (z : Z).

(** How these commands end.  A thrown exception is caught by [main], which
    exits without saving. *)
Inductive CliOutcome :=
  | CliSaved
  | CliGameNotFound       (* loadGame: "Game not found: ..." *)
  | CliInvalidIndex       (* "Invalid card index: ..." *)
  | CliCannotDecomposeLeaf  (* "Cannot decompose leaf component: ..." *)
  | CliThrown.            (* a TypeError, or the Error of selectRandomWord *)

Definition withSelection (state : GameState) (cards selected : list Card)
    (combinations : list jsstring) : GameState :=
  {| currentLevel := currentLevel state;
     roundsPerLevel := roundsPerLevel state;
     currentRound := currentRound state;
     totalRoundsCompleted := totalRoundsCompleted state;
     targetWord := targetWord state;
     targetGloss := targetGloss state;
     availableCards := cards;
     selectedCards := selected;
     possibleCombinations := combinations;
     attemptsLeft := attemptsLeft state;
     maxAttempts := maxAttempts state;
     gameOver := gameOver state;
     won := won state;
     hints := hints state;
     hintsUsed := hintsUsed state;
     totalHintsUsed := totalHintsUsed state |}.

Definition withGameState (st : PersistedGameState) (state : GameState)
    : PersistedGameState :=
  {| gameState := state;
     gameId := gameId st;
     createdAt := createdAt st;
     lastModified := lastModified st |}.



Definition cmdDecompose (gameId' : jsstring) (cardIndex : ParsedIndex)
    (data : GameData) (now : nat → N) (isoNow : jsstring)
    (games : gmap jsstring PersistedGameState)
    : CliOutcome * gmap jsstring PersistedGameState :=
  match games !! gameId' with
  | None => (CliGameNotFound, games)
  | Some st =>
      let state := gameState st in
      match cardIndex with
      | IndexNaN => (CliThrown, games)
      | Index idx =>
          if (idx <? 0)%Z || (Z.of_nat (length (availableCards state)) <=? idx)%Z
          then (CliInvalidIndex, games)
          else
            let card := availableCards state !!! Z.to_nat idx in
            if isLeaf card then (CliCannotDecomposeLeaf, games)
            else
              match decomposeCard card (availableCards state) data now with
              | Throw _ => (CliThrown, games)
              | Normal cards =>
                  let state' := withSelection state cards [] [] in
                  (CliSaved, saveGame (withGameState st state') isoNow games)
              end
      end
  end.

(** The state after a wrong answer: [attemptsLeft--], and [gameOver] set
    when no attempt is left. *)
Definition afterWrongAnswer (state : GameState) : GameState :=
  let attemptsLeft' := (attemptsLeft state - 1)%Z in
  {| currentLevel := currentLevel state;
     roundsPerLevel := roundsPerLevel state;
     currentRound := currentRound state;
     totalRoundsCompleted := totalRoundsCompleted state;
     targetWord := targetWord state;
     targetGloss := targetGloss state;
     availableCards := availableCards state;
     selectedCards := selectedCards state;
     possibleCombinations := possibleCombinations state;
     attemptsLeft := attemptsLeft';
     maxAttempts := maxAttempts state;
     gameOver := if (attemptsLeft' <=? 0)%Z then true else gameOver state;
     won := won state;
     hints := hints state;
     hintsUsed := hintsUsed state;
     totalHintsUsed := totalHintsUsed state |}.

(** [cmdSubmit]: [None] when the hint search of [nextRound] does not
    return. *)
Definition cmdSubmit_fuel (fuel : nat) (gameId' : jsstring) (data : GameData)
    (pick : Picker) (shuffleDecoys shuffleComponents : Shuffle)
    (now : nat → N) (isoNow : jsstring)
    (games : gmap jsstring PersistedGameState)
    : option (CliOutcome * gmap jsstring PersistedGameState) :=
  match games !! gameId' with
  | None => Some (CliGameNotFound, games)
  | Some st =>
      let state := gameState st in
      let isCorrect := checkAnswer (availableCards state) (targetWord state) in
      if isCorrect then
        completion ← nextRound_fuel fuel state data pick
                       shuffleDecoys shuffleComponents now;
        match completion with
        | Throw _ => Some (CliThrown, games)
        | Normal newState =>
            let persistedState :=
              {| gameState := newState;
                 gameId := gameId st;
                 createdAt := createdAt st;
                 lastModified := isoNow |} in
            Some (CliSaved, saveGame persistedState isoNow games)
        end
      else
        Some (CliSaved,
              saveGame (withGameState st (afterWrongAnswer state)) isoNow games)
  end.

(** The [initializeGameState] of the wrapper: the leaves of the target, no
    decoys.  The stored object has no hint fields; they are left empty. *)
Definition cliInitializeGameState (gameId' : jsstring) (data : GameData)
    (pick : Picker) (now : nat → N) (isoNow : jsstring)
    : Completion PersistedGameState :=
  let hskLevel := 1%Z in
  match selectRandomWord hskLevel data pick with
  | Throw message => Throw message
  | Normal targetWord =>
      let comps := getComponentsForWord targetWord data in
      let cards := createCardsFromComponents comps data now in
      Normal
        {| gameState :=
             {| currentLevel := hskLevel;
                roundsPerLevel := 2;
                currentRound := 1;
                totalRoundsCompleted := 0;
                targetWord := targetWord;
                targetGloss := lit "Word: " ++ targetWord;
                availableCards := cards;
                selectedCards := [];
                possibleCombinations := [];
                attemptsLeft := 3;
                maxAttempts := 3;
                gameOver := false;
                won := false;
                hints := [];
                hintsUsed := 0;
                totalHintsUsed := 0 |};
           gameId := gameId';
           createdAt := isoNow;
           lastModified := isoNow |}
  end.

(** [cmdNew] and [cmdReset] run the same steps: whatever is stored under
    the game id is overwritten. *)
Definition cmdReset (gameId' : jsstring) (data : GameData) (pick : Picker)
    (now : nat → N) (isoNow : jsstring)
    (games : gmap jsstring PersistedGameState)
    : CliOutcome * gmap jsstring PersistedGameState :=
  match cliInitializeGameState gameId' data pick now isoNow with
  | Throw _ => (CliThrown, games)
  | Normal st => (CliSaved, saveGame st isoNow games)
  end.

(** * The handlers of the page ([routes/+page.svelte]) *)

(** The text shown to the player. *)
Inductive PageMessage :=
  | MsgGameOver (answer : jsstring)     (* "Game Over! The answer was: ..." *)
  | MsgIncorrect (attemptsLeft : Z)     (* "Incorrect! ... attempts left" *)
  | MsgNoMoreHints                      (* "No more hints available!" *)
  | MsgHintAnswer                       (* "Hint: This is the answer! ..." *)
  | MsgHintCombine.                     (* "Hint: Try combining these ..." *)

(** The state of a loaded page ([gameState] and [gameData] are set). *)
Record Page := {
  pageGame : GameState;
  pageMessage : option PageMessage;
  highlightedCardIds : list jsstring
}.

Definition toggleCardSelection (card : Card) (data : GameData) (page : Page)
    : Page :=
  let state := pageGame page in
  let isSelected :=
    bool_decide (Exists (λ c, id c = id card) (selectedCards state)) in
  let selected :=
    if isSelected then filter (λ c, id c ≠ id card) (selectedCards state)
    else selectedCards state ++ [card] in
  {| pageGame :=
       withSelection state (availableCards state) selected
         (findPossibleCombinations selected data);
     pageMessage := pageMessage page;
     highlightedCardIds := highlightedCardIds page |}.

(** [handleCombine] writes the new pool and the empty selection into the
    state, then calls [regenerateHints], then clears message and highlights.
    [handleCombine_fuel] is the page when the hint search returns within the
    fuel.  When no fuel is enough the recursion of the search ends in a
    [RangeError] that leaves the handler: the page is then
    [handleCombine_aborted], with the new pool and the old hints, message
    and highlights. *)
Definition handleCombine_fuel (fuel : nat) (targetChar : jsstring)
    (data : GameData) (now : N) (page : Page) : option Page :=
  let state := pageGame page in
  let state1 :=
    withSelection state
      (combineCards (selectedCards state) targetChar (availableCards state)
                    data now) [] [] in
  state2 ← regenerateHints_fuel fuel state1 data;
  Some {| pageGame := state2; pageMessage := None; highlightedCardIds := [] |}.

Definition handleCombine_aborted (targetChar : jsstring) (data : GameData)
    (now : N) (page : Page) : Page :=
  let state := pageGame page in
  {| pageGame :=
       withSelection state
         (combineCards (selectedCards state) targetChar (availableCards state)
                       data now) [] [];
     pageMessage := pageMessage page;
     highlightedCardIds := highlightedCardIds page |}.

(** [handleDecompose], likewise.  When [decomposeCard] throws nothing has
    been written yet: the page stays as it is. *)
Definition handleDecompose_fuel (fuel : nat) (card : Card) (data : GameData)
    (now : nat → N) (page : Page) : option Page :=
  let state := pageGame page in
  match decomposeCard card (availableCards state) data now with
  | Throw _ => Some page
  | Normal cards =>
      let state1 := withSelection state cards [] [] in
      state2 ← regenerateHints_fuel fuel state1 data;
      Some {| pageGame := state2; pageMessage := None;
              highlightedCardIds := [] |}
  end.

Definition handleDecompose_aborted (cards : list Card) (page : Page) : Page :=
  {| pageGame := withSelection (pageGame page) cards [] [];
     pageMessage := pageMessage page;
     highlightedCardIds := highlightedCardIds page |}.

Definition handleSubmit (page : Page) : Page :=
  let state := pageGame page in
  let isCorrect := checkAnswer (availableCards state) (targetWord state) in
  if isCorrect then
    {| pageGame :=
         {| currentLevel := currentLevel state;
            roundsPerLevel := roundsPerLevel state;
            currentRound := currentRound state;
            totalRoundsCompleted := totalRoundsCompleted state;
            targetWord := targetWord state;
            targetGloss := targetGloss state;
            availableCards :=
              filter (λ card, character card ≠ targetWord state)
                     (availableCards state);
            selectedCards := [];
            possibleCombinations := [];
            attemptsLeft := attemptsLeft state;
            maxAttempts := maxAttempts state;
            gameOver := gameOver state;
            won := true;
            hints := hints state;
            hintsUsed := hintsUsed state;
            totalHintsUsed := totalHintsUsed state |};
       pageMessage := None;
       highlightedCardIds := [] |}
  else
    let state' := afterWrongAnswer state in
    {| pageGame := state';
       pageMessage :=
         Some (if (attemptsLeft state' <=? 0)%Z
               then MsgGameOver (targetWord state')
               else MsgIncorrect (attemptsLeft state'));
       highlightedCardIds := highlightedCardIds page |}.

Definition handleHint (page : Page) : Page :=
  match useHint (pageGame page) with
  | (_, None) =>
      {| pageGame := pageGame page;
         pageMessage := Some MsgNoMoreHints;
         highlightedCardIds := highlightedCardIds page |}
  | (state, Some hint) =>
      {| pageGame := state;
         pageMessage :=
           Some (if default false (isAnswer hint)
                 then MsgHintAnswer else MsgHintCombine);
         highlightedCardIds := foldl (λ s x, setAdd x s) [] (cardIds hint) |}
  end.




(** Among the steps there is one for the group, and it builds the target
    directly. *)
Definition directStep (targetWord : jsstring) (group : list Card)
    (steps : list Step) : Prop :=
  ∃ step, step ∈ steps ∧ stepCardIds step = id <$> group ∧
          result step = targetWord.


(** [hanziData] with word lists for two levels; the first level has a
    two-character word and a leaf among its words. *)
Definition levelData : GameData :=
  {| charToDecomposition := charToDecomposition hanziData;
     componentsToChars := componentsToChars hanziData;
     allowedComponents := [];
     hskWords :=
       {[ lit "1" := [da ++ xue; ming; ri; duo]; lit "2" := [name_; ge] ]};
     wordGlosses := None;
     charGlosses := None |}.


(** What holds of a state at the start of a round: the target is a word of
    the state's level, level and round number are the ones the count of
    completed rounds calls for, all attempts are left, nothing is selected,
    no hint is used, the cards have distinct ids and none shows the target. *)
Definition freshRound (data : GameData) (state : GameState) : Prop :=
  targetWord state ∈ default [] (hskWords data !! ofZ (currentLevel state)) ∧
  currentLevel state
    = getHSKLevel (totalRoundsCompleted state) (roundsPerLevel state) ∧
  (1 ≤ currentLevel state ≤ 7)%Z ∧
  currentRound state
    = (totalRoundsCompleted state `mod` roundsPerLevel state + 1)%Z ∧
  (1 ≤ currentRound state ≤ roundsPerLevel state)%Z ∧
  attemptsLeft state = maxAttempts state ∧
  gameOver state = false ∧ won state = false ∧
  selectedCards state = [] ∧ possibleCombinations state = [] ∧
  hintsUsed state = 0%Z ∧
  NoDup (id <$> availableCards state) ∧
  Forall (λ c, character c ≠ targetWord state) (availableCards state) ∧
  length (hints state) ≤ 3 ∧
  Forall (λ h, used h = false) (hints state).


(** What the loop of [cmdSelect] pushes for an index that passes the range
    test, and the indices that do not pass it. *)
Definition cardAt (availableCards : list Card) (i : ParsedIndex)
    : option Card :=
  match i with
  | IndexNaN => None
  | Index idx => availableCards !! Z.to_nat idx
  end.

Definition outOfRange (availableCards : list Card) (i : ParsedIndex) : Prop :=
  match i with
  | IndexNaN => False
  | Index idx => (idx < 0 ∨ Z.of_nat (length availableCards) ≤ idx)%Z
  end.


(** [cmdSubmit] run [n] times in a row on the same games directory. *)
Fixpoint submitTimes (n fuel : nat) (gameId' : jsstring) (data : GameData)
    (pick : Picker) (shuffleDecoys shuffleComponents : Shuffle)
    (now : nat → N) (isoNow : jsstring)
    (games : gmap jsstring PersistedGameState)
    : option (gmap jsstring PersistedGameState) :=
  match n with
  | 0 => Some games
  | S n' =>
      r ← cmdSubmit_fuel fuel gameId' data pick shuffleDecoys
             shuffleComponents now isoNow games;
      submitTimes n' fuel gameId' data pick shuffleDecoys shuffleComponents
        now isoNow r.2
  end.


(** The hints and the highlights of a page name cards of its pool. *)
Definition hintsInPool (page : Page) : Prop :=
  let ids := id <$> availableCards (pageGame page) in
  Forall (λ h, Forall (λ i, i ∈ ids) (cardIds h)) (hints (pageGame page)) ∧
  Forall (λ i, i ∈ ids) (highlightedCardIds page).

(** One action of the player during a round: a click on a card, a
    combination, a decomposition, a hint, or an answer that is judged wrong.
    (An answer judged right ends the round.)  A combination or a
    decomposition whose hint search does not return, whatever the fuel,
    leaves the page half updated. *)
Inductive pageStep (data : GameData) : Page → Page → Prop :=
  | StepToggle card page :
      pageStep data page (toggleCardSelection card data page)
  | StepCombine fuel targetChar now page page' :
      handleCombine_fuel fuel targetChar data now page = Some page' →
      pageStep data page page'
  | StepCombineAborted targetChar now page :
      (∀ fuel, handleCombine_fuel fuel targetChar data now page = None) →
      pageStep data page (handleCombine_aborted targetChar data now page)
  | StepDecompose fuel card now page page' :
      handleDecompose_fuel fuel card data now page = Some page' →
      pageStep data page page'
  | StepDecomposeAborted card now cards page :
      decomposeCard card (availableCards (pageGame page)) data now
        = Normal cards →
      (∀ fuel, handleDecompose_fuel fuel card data now page = None) →
      pageStep data page (handleDecompose_aborted cards page)
  | StepHint page :
      pageStep data page (handleHint page)
  | StepWrongAnswer page :
      checkAnswer (availableCards (pageGame page))
                  (targetWord (pageGame page)) = false →
      pageStep data page (handleSubmit page).


(** A page showing [storedGame]. *)
Definition storedPage : Page :=
  {| pageGame := gameState storedGame;
     pageMessage := None;
     highlightedCardIds := [] |}.


(** [storedGame] with a composite card in the pool, and with the first two
    cards of its pool selected. *)
Definition compositeGame : PersistedGameState :=
  withGameState storedGame
    (withSelection (gameState storedGame)
       [card "3" xi true; card "9" ming false] [] []).

Definition selectedGame : PersistedGameState :=
  withGameState storedGame
    (withSelection (gameState storedGame) sunMoonPool
       [card "1" ri true; card "2" yue true] [ming]).


(** A page on the graph with the cycle: the target is [A], the card [R] is
    selected and highlighted. *)
Definition cyclicPage : Page :=
  {| pageGame :=
       {| currentLevel := 1; roundsPerLevel := 2; currentRound := 1;
          totalRoundsCompleted := 0;
          targetWord := lit "A"; targetGloss := lit "Word: A";
          availableCards := card "0" (lit "R") true :: cyclicPool;
          selectedCards := [card "0" (lit "R") true];
          possibleCombinations := [];
          attemptsLeft := 3; maxAttempts := 3;
          gameOver := false; won := false;
          hints := []; hintsUsed := 0; totalHintsUsed := 0 |};
     pageMessage := None;
     highlightedCardIds := [lit "0"] |}.


(** * Proofs *)

Section js_lemmas.

Lemma pushAll_bind {A B} (f : A → list B) acc xs :
  pushAll f acc xs = acc ++ (xs ≫= f).
Proof.
  revert acc. induction xs as [|x xs IH]; intros acc; simpl.
  - by rewrite app_nil_r.
  - unfold pushAll in *. simpl. rewrite IH. by rewrite <-app_assoc.
Qed.

Lemma elem_of_setAdd {A} `{EqDecision A} (x y : A) s :
  y ∈ setAdd x s ↔ y = x ∨ y ∈ s.
Proof.
  unfold setAdd. case_bool_decide as Hx.
  - split; [auto|]. intros [->|]; auto.
  - rewrite elem_of_app, list_elem_of_singleton. tauto.
Qed.

Lemma insertBy_perm {A} (cmp : A → A → Z) x l : insertBy cmp x l ≡ₚ x :: l.
Proof.
  induction l as [|y l IH]; simpl; [done|].
  destruct (cmp y x <? 0)%Z; [|done].
  rewrite IH. apply Permutation_swap.
Qed.

Lemma sortBy_perm {A} (cmp : A → A → Z) l : sortBy cmp l ≡ₚ l.
Proof.
  induction l as [|x l IH]; simpl; [done|].
  unfold sortBy in *. simpl. by rewrite insertBy_perm, IH.
Qed.

End js_lemmas.

(** ** Leaf reduction: termination and defining equation *)

Section leaf_reduction.

Context (data : GameData).

Lemma collect_cons {A B} (f : A → option (list B)) acc x xs :
  collect f acc (x :: xs) =
    collect f (leaves ← acc; sub ← f x; Some (leaves ++ sub)) xs.
Proof. reflexivity. Qed.

Lemma collect_None {A B} (f : A → option (list B)) xs : collect f None xs = None.
Proof. induction xs; [done|]. by rewrite collect_cons. Qed.

Lemma collect_Some {A B} (f : A → option (list B)) (g : A → list B) acc xs :
  (∀ x, x ∈ xs → f x = Some (g x)) →
  collect f (Some acc) xs = Some (acc ++ (xs ≫= g)).
Proof.
  revert acc. induction xs as [|x xs IH]; intros acc Hf.
  - simpl. by rewrite app_nil_r.
  - rewrite collect_cons. simpl. rewrite Hf by left. simpl. rewrite IH.
    + by rewrite <-app_assoc.
    + intros y Hy. apply Hf. by right.
Qed.

Lemma collect_inv {A B} (f : A → option (list B)) acc xs r :
  collect f (Some acc) xs = Some r →
  ∀ x, x ∈ xs → is_Some (f x).
Proof.
  revert acc. induction xs as [|x xs IH]; intros acc Hr y Hy.
  - by apply elem_of_nil in Hy.
  - rewrite collect_cons in Hr. simpl in Hr.
    destruct (f x) as [sub|] eqn:Hfx; simpl in Hr.
    + apply elem_of_cons in Hy as [->|Hy]; [by rewrite Hfx|].
      by apply (IH _ Hr).
    + by rewrite collect_None in Hr.
Qed.

Lemma unvisited_extend path c :
  c ∉ path → is_Some (charToDecomposition data !! c) →
  size (unvisited data (path ++ [c])) < size (unvisited data path).
Proof.
  intros Hpath Hdom. apply subset_size. unfold unvisited.
  apply elem_of_dom in Hdom.
  split.
  - intros x. rewrite !elem_of_difference, !elem_of_list_to_set, elem_of_app.
    tauto.
  - intros Hsub. specialize (Hsub c).
    rewrite !elem_of_difference, !elem_of_list_to_set, elem_of_app in Hsub.
    apply Hsub; [tauto|]. right. by apply list_elem_of_singleton.
Qed.

Lemma unvisited_size_le path :
  size (unvisited data path) ≤ size (charToDecomposition data).
Proof.
  rewrite <-size_dom. apply subseteq_size. unfold unvisited.
  intros x. rewrite elem_of_difference. tauto.
Qed.

Lemma decomposeToLeaves_fuel_enough fuel c path :
  size (unvisited data path) < fuel →
  is_Some (decomposeToLeaves_fuel fuel c data path).
Proof.
  revert c path. induction fuel as [|fuel IH]; intros c path Hsize; [lia|].
  simpl. case_bool_decide as Hpath; [by eexists|].
  destruct (charToDecomposition data !! c) as [decomp|] eqn:Hc; [|by eexists].
  assert (∀ x, x ∈ components decomp →
               decomposeToLeaves_fuel fuel x data (path ++ [c]) =
               Some (default [] (decomposeToLeaves_fuel fuel x data (path ++ [c]))))
    as Hall.
  { intros x _. destruct (IH x (path ++ [c])) as [r Hr]; [|by rewrite Hr].
    pose proof (unvisited_extend path c Hpath) as Hlt.
    rewrite Hc in Hlt. specialize (Hlt (mk_is_Some _ _ eq_refl)). lia. }
  rewrite (collect_Some _ _ [] _ Hall). by eexists.
Qed.

Lemma decomposeToLeaves_fuel_mono fuel fuel' c path r :
  decomposeToLeaves_fuel fuel c data path = Some r →
  fuel ≤ fuel' →
  decomposeToLeaves_fuel fuel' c data path = Some r.
Proof.
  revert fuel' c path r.
  induction fuel as [|fuel IH]; intros fuel' c path r Hr Hle; [done|].
  destruct fuel' as [|fuel']; [lia|].
  simpl in *. case_bool_decide as Hpath; [done|].
  destruct (charToDecomposition data !! c) as [decomp|] eqn:Hc; [|done].
  pose proof (collect_inv _ _ _ _ Hr) as Hsome.
  set (g := λ x, default [] (decomposeToLeaves_fuel fuel x data (path ++ [c]))).
  rewrite (collect_Some _ g) in Hr.
  - rewrite (collect_Some _ g); [done|].
    intros x Hx. destruct (Hsome x Hx) as [rx Hrx].
    unfold g. rewrite Hrx. simpl. apply IH; [done|lia].
  - intros x Hx. destruct (Hsome x Hx) as [rx Hrx]. unfold g. by rewrite Hrx.
Qed.

Lemma decomposeToLeaves_fuel_total fuel c path :
  size (unvisited data path) < fuel →
  decomposeToLeaves_fuel fuel c data path = Some (decomposeToLeaves c data path).
Proof.
  intros Hfuel.
  destruct (decomposeToLeaves_fuel_enough fuel c path Hfuel) as [r Hr].
  destruct (decomposeToLeaves_fuel_enough (decomposeDepth data) c path) as [r' Hr'].
  { unfold decomposeDepth. pose proof (unvisited_size_le path). lia. }
  unfold decomposeToLeaves. rewrite Hr', Hr. simpl. f_equal.
  destruct (decide (fuel ≤ decomposeDepth data)) as [Hle|Hle].
  - pose proof (decomposeToLeaves_fuel_mono _ _ _ _ _ Hr Hle). congruence.
  - assert (decomposeDepth data ≤ fuel) as Hge by lia.
    pose proof (decomposeToLeaves_fuel_mono _ _ _ _ _ Hr' Hge). congruence.
Qed.

Lemma decomposeToLeaves_fuel_S fuel c path :
  decomposeToLeaves_fuel (S fuel) c data path =
    if bool_decide (c ∈ path) then Some [c]
    else match charToDecomposition data !! c with
         | None => Some [c]
         | Some decomp =>
             collect (λ component,
                        decomposeToLeaves_fuel fuel component data (path ++ [c]))
                     (Some []) (components decomp)
         end.
Proof. reflexivity. Qed.

Lemma collect_singleton {A B} (f : A → option (list B)) x :
  collect f (Some []) [x] = f x.
Proof. unfold collect. simpl. by destruct (f x). Qed.

(** The defining equation of the source, for the total function. *)
Lemma decomposeToLeaves_unfold c path :
  decomposeToLeaves c data path =
    if bool_decide (c ∈ path) then [c]
    else match charToDecomposition data !! c with
         | None => [c]
         | Some decomp =>
             components decomp ≫=
               (λ component, decomposeToLeaves component data (path ++ [c]))
         end.
Proof.
  unfold decomposeToLeaves at 1. unfold decomposeDepth. simpl.
  case_bool_decide as Hpath; [done|].
  destruct (charToDecomposition data !! c) as [decomp|] eqn:Hc; [|done].
  rewrite (collect_Some _ (λ x, decomposeToLeaves x data (path ++ [c]))); [done|].
  intros x _. apply decomposeToLeaves_fuel_total.
  pose proof (unvisited_extend path c Hpath) as Hlt.
  rewrite Hc in Hlt. specialize (Hlt (mk_is_Some _ _ eq_refl)).
  pose proof (unvisited_size_le path). lia.
Qed.

End leaf_reduction.

Section counting.

Lemma count_nil x : count x [] = 0.
Proof. reflexivity. Qed.

Lemma count_cons x y l :
  count x (y :: l) = (if decide (y = x) then 1 else 0) + count x l.
Proof.
  unfold count. rewrite filter_cons. destruct (decide (y = x)); reflexivity.
Qed.

Lemma count_app x l1 l2 : count x (l1 ++ l2) = count x l1 + count x l2.
Proof. unfold count. by rewrite filter_app, length_app. Qed.

Lemma count_pos x l : 0 < count x l ↔ x ∈ l.
Proof.
  induction l as [|y l IH]; [rewrite count_nil, elem_of_nil; lia|].
  rewrite count_cons, elem_of_cons.
  destruct (decide (y = x)) as [->|Hne]; [intuition lia|].
  rewrite <-IH. intuition (congruence || lia).
Qed.

Lemma count_notin x l : x ∉ l → count x l = 0.
Proof.
  intros Hin. destruct (count x l) eqn:Hc; [done|].
  exfalso. apply Hin, count_pos. lia.
Qed.

Lemma count_sublist x l1 l2 : sublist l1 l2 → count x l1 ≤ count x l2.
Proof.
  induction 1 as [|y l1 l2 _ IH|y l1 l2 _ IH]; [done| |];
    rewrite ?count_cons; lia.
Qed.

Lemma count_bind_mult (f : jsstring → list jsstring) part leaf l :
  count part l * count leaf (f part) ≤ count leaf (l ≫= f).
Proof.
  induction l as [|y l IH]; [simpl; lia|].
  rewrite count_cons, bind_cons, count_app.
  destruct (decide (y = part)) as [->|Hne]; simpl; lia.
Qed.

Lemma count_bind_sum (f : jsstring → list jsstring) leaf l :
  count leaf (l ≫= f) = sum_list ((λ c, count leaf (f c)) <$> l).
Proof.
  induction l as [|y l IH]; [done|].
  by rewrite bind_cons, count_app, fmap_cons, IH.
Qed.

Lemma count_bind_sublist leaf (f : jsstring → list jsstring) l1 l2 :
  sublist l1 l2 → count leaf (l1 ≫= f) ≤ count leaf (l2 ≫= f).
Proof.
  induction 1 as [|y l1 l2 _ IH|y l1 l2 _ IH]; [done| |];
    rewrite ?bind_cons, ?count_app; lia.
Qed.

End counting.

(** ** Properties of leaf reduction *)

(** C3 (cycle safety).  For every decomposition graph every call of
    [decomposeToLeaves] returns: any amount of fuel above the number of
    graph entries that are not on the path gives one and the same list.  A
    symbol that is already on the expansion path is returned as the
    singleton list of itself, without being expanded.  In a graph with the
    two-node cycle [A -> [B]], [B -> [A]], reducing [A] from the empty path
    returns within three nested calls, and the list is [[A]]: the repeated
    ancestor collapsed to a leaf (also for the total function the rest of
    the engine is stated with). *)
Theorem decomposeToLeaves_cycle_safe (data : GameData) :
  (∀ symbol path, ∃ leaves,
     ∀ fuel, size (unvisited data path) < fuel →
       decomposeToLeaves_fuel fuel symbol data path = Some leaves) ∧
  (∀ symbol path fuel, symbol ∈ path →
     decomposeToLeaves_fuel (S fuel) symbol data path = Some [symbol]) ∧
  (∀ A B dA dB,
     charToDecomposition data !! A = Some dA → components dA = [B] →
     charToDecomposition data !! B = Some dB → components dB = [A] →
     (∀ fuel, 3 ≤ fuel →
        decomposeToLeaves_fuel fuel A data [] = Some [A]) ∧
     decomposeToLeaves A data [] = [A]).
Proof.
  split; [|split].
  - intros symbol path. exists (decomposeToLeaves symbol data path).
    intros fuel Hfuel. by apply decomposeToLeaves_fuel_total.
  - intros symbol path fuel Hin.
    by rewrite decomposeToLeaves_fuel_S, bool_decide_eq_true_2.
  - intros A B dA dB HA HcA HB HcB.
    assert (∀ fuel, 3 ≤ fuel →
              decomposeToLeaves_fuel fuel A data [] = Some [A]) as Hfuel3;
      [|split; [done|]].
    2:{ specialize (Hfuel3 (3 + size (unvisited data [])) ltac:(lia)).
        rewrite decomposeToLeaves_fuel_total in Hfuel3 by lia.
        by injection Hfuel3. }
    intros fuel Hfuel.
    apply (decomposeToLeaves_fuel_mono data 3); [|done].
    rewrite decomposeToLeaves_fuel_S.
    rewrite bool_decide_eq_false_2 by apply not_elem_of_nil.
    rewrite HA, HcA, collect_singleton, decomposeToLeaves_fuel_S.
    case_bool_decide as HBA; [by apply list_elem_of_singleton in HBA as ->|].
    rewrite HB, HcB, collect_singleton, decomposeToLeaves_fuel_S.
    rewrite bool_decide_eq_true_2; [done|].
    apply elem_of_cons. by left.
Qed.

(** C4 (duplicate preservation).  For a symbol that has a graph entry (and
    is not already on the path, as when the reduction starts from the empty
    path) [decomposeToLeaves] returns the concatenation, in component order,
    of the reductions of its immediate components under the extended path.
    Nothing is merged: the number of occurrences of a leaf in the result is
    the sum of its occurrences in the reductions of the components, each
    occurrence of a component contributing its leaves again.  So a leaf
    occurs at least as many times as a component occurs times the leaf occurs
    in that component's reduction, and a component that is itself a leaf and
    is listed twice occurs twice. *)
Theorem decomposeToLeaves_preserves_duplicates (data : GameData)
    (symbol : jsstring) (path : list jsstring) (decomp : CharacterDecomposition) :
  charToDecomposition data !! symbol = Some decomp →
  symbol ∉ path →
  decomposeToLeaves symbol data path =
    concat ((λ component, decomposeToLeaves component data (path ++ [symbol]))
              <$> components decomp) ∧
  (∀ leaf,
     count leaf (decomposeToLeaves symbol data path) =
       sum_list ((λ component,
                    count leaf (decomposeToLeaves component data (path ++ [symbol])))
                   <$> components decomp)) ∧
  (∀ part leaf,
     count part (components decomp)
       * count leaf (decomposeToLeaves part data (path ++ [symbol]))
     ≤ count leaf (decomposeToLeaves symbol data path)) ∧
  (∀ part, charToDecomposition data !! part = None →
     count part (components decomp)
     ≤ count part (decomposeToLeaves symbol data path)).
Proof.
  intros Hentry Hpath.
  assert (decomposeToLeaves symbol data path =
            components decomp ≫=
              (λ component, decomposeToLeaves component data (path ++ [symbol])))
    as Heq.
  { rewrite decomposeToLeaves_unfold, bool_decide_eq_false_2 by done.
    by rewrite Hentry. }
  split_and!.
  - rewrite Heq. generalize (components decomp). intros l.
    induction l as [|x l IH]; [done|]. rewrite bind_cons, fmap_cons. simpl.
    by rewrite IH.
  - intros leaf. rewrite Heq.
    apply (count_bind_sum
             (λ component, decomposeToLeaves component data (path ++ [symbol]))).
  - intros part leaf. rewrite Heq.
    apply (count_bind_mult
             (λ component, decomposeToLeaves component data (path ++ [symbol]))).
  - intros part Hleaf. rewrite Heq.
    pose proof (count_bind_mult
      (λ component, decomposeToLeaves component data (path ++ [symbol]))
      part part (components decomp)) as Hmult.
    simpl in Hmult.
    rewrite (decomposeToLeaves_unfold data part (path ++ [symbol])) in Hmult.
    rewrite Hleaf in Hmult.
    replace (count part (if bool_decide (part ∈ path ++ [symbol])
                         then [part] else [part])) with 1 in Hmult.
    + lia.
    + case_bool_decide; rewrite count_cons, decide_True by done; reflexivity.
Qed.

(** ** Multiset containment and the combination finder *)

Section combinations.

Context (data : GameData).

Lemma foldl_invariant {A B} (P : A → Prop) (f : A → B → A) (l : list B) a :
  P a → (∀ a b, b ∈ l → P a → P (f a b)) → P (foldl f a l).
Proof.
  revert a. induction l as [|b l IH]; intros a Ha Hstep; [done|].
  simpl. apply IH.
  - apply Hstep; [by left|done].
  - intros a' b' Hb'. apply Hstep. by right.
Qed.

Lemma countOccurrences_snoc l y :
  countOccurrences (l ++ [y]) =
    <[y := default 0 (countOccurrences l !! y) + 1]> (countOccurrences l).
Proof. unfold countOccurrences. by rewrite foldl_app. Qed.

Lemma countOccurrences_lookup l x :
  countOccurrences l !! x = if decide (x ∈ l) then Some (count x l) else None.
Proof.
  induction l as [|y l IH] using rev_ind.
  - rewrite decide_False by apply not_elem_of_nil. apply lookup_empty.
  - rewrite countOccurrences_snoc, count_app, count_cons, count_nil.
    destruct (decide (y = x)) as [->|Hne].
    + rewrite lookup_insert_eq, IH.
      rewrite (decide_True (P := x ∈ l ++ [x]))
        by (apply elem_of_app; right; by apply list_elem_of_singleton).
      destruct (decide (x ∈ l)) as [Hin|Hin]; simpl; [f_equal; lia|].
      f_equal. rewrite (count_notin x l) by done. lia.
    + rewrite lookup_insert_ne, IH by done.
      destruct (decide (x ∈ l)) as [Hin|Hin].
      * rewrite decide_True by (apply elem_of_app; by left). f_equal. lia.
      * rewrite decide_False; [done|].
        rewrite elem_of_app, list_elem_of_singleton.
        intros [?|?]; [done|congruence].
Qed.

Lemma countOccurrences_default l x :
  default 0 (countOccurrences l !! x) = count x l.
Proof.
  rewrite countOccurrences_lookup.
  destruct (decide (x ∈ l)) as [Hin|Hin]; [done|]. simpl.
  by rewrite count_notin.
Qed.

(** What the containment check decides. *)
Lemma hasEnoughComponents_spec selectedChars requiredComponents :
  hasEnoughComponents selectedChars requiredComponents data = true ↔
  ∀ leaf, count leaf requiredComponents
          ≤ count leaf (leavesOf data selectedChars).
Proof.
  unfold hasEnoughComponents, leavesOf.
  rewrite bool_decide_eq_true, pushAll_bind, app_nil_l.
  split.
  - intros Hall leaf.
    destruct (decide (leaf ∈ requiredComponents)) as [Hin|Hin].
    + specialize (Hall leaf (count leaf requiredComponents)). simpl in Hall.
      rewrite countOccurrences_lookup, decide_True in Hall by done.
      specialize (Hall eq_refl).
      rewrite countOccurrences_default in Hall. lia.
    + rewrite (count_notin leaf requiredComponents) by done. lia.
  - intros Hall leaf n Hn. simpl.
    rewrite countOccurrences_lookup in Hn.
    destruct (decide (leaf ∈ requiredComponents)); [|done].
    injection Hn as <-. rewrite countOccurrences_default.
    specialize (Hall leaf). lia.
Qed.

Lemma subsetOfMask_sublist_gen (p : nat → bool) (pre l acc : list jsstring) :
  sublist acc pre →
  sublist (foldl (λ subset j,
                    if p j then subset ++ [(pre ++ l) !!! j] else subset)
                 acc (seq (length pre) (length l)))
          (pre ++ l).
Proof.
  revert pre acc. induction l as [|y l IH]; intros pre acc Hsub.
  - simpl. by rewrite app_nil_r.
  - simpl.
    replace (pre ++ y :: l) with ((pre ++ [y]) ++ l) by by rewrite <-app_assoc.
    replace (S (length pre)) with (length (pre ++ [y]))
      by (rewrite length_app; simpl; lia).
    apply IH.
    destruct (p (length pre)).
    + rewrite <-app_assoc. simpl.
      rewrite list_lookup_total_middle by done.
      by apply sublist_app.
    + by apply sublist_inserts_r.
Qed.

Lemma subsetOfMask_sublist selectedChars i :
  sublist (subsetOfMask selectedChars i) selectedChars.
Proof.
  unfold subsetOfMask.
  apply (subsetOfMask_sublist_gen
           (λ j, truthy (band i (shl 1 (Z.of_nat j)))) [] selectedChars []).
  done.
Qed.

Lemma checkSubset_justified selectedChars all chars :
  sublist chars selectedChars →
  (∀ c, c ∈ all → justifiedBy data selectedChars c) →
  ∀ c, c ∈ checkSubset data all chars → justifiedBy data selectedChars c.
Proof.
  intros Hsub Hall. unfold checkSubset.
  case_bool_decide as Hlen; [done|].
  destruct (componentsToChars data !! sortedKey chars) as [matches|] eqn:Hkey;
    [|done].
  apply (foldl_invariant (λ all, ∀ c, c ∈ all → justifiedBy data selectedChars c));
    [done|].
  intros all' char Hchar Hall' c.
  destruct (hasEnoughComponents chars (getComponentsForWord char data) data)
    eqn:Henough; [|by apply Hall'].
  rewrite elem_of_setAdd. intros [->|Hin]; [|by apply Hall'].
  exists chars. split_and!; [|done|by exists matches|done].
  intros ->. by apply Hlen.
Qed.

Lemma findPossibleCombinations_justified selectedCards c :
  c ∈ findPossibleCombinations selectedCards data →
  justifiedBy data (character <$> selectedCards) c.
Proof.
  unfold findPossibleCombinations.
  case_bool_decide; [by intros ?%elem_of_nil|].
  revert c.
  apply (foldl_invariant
           (λ all, ∀ c, c ∈ all → justifiedBy data (character <$> selectedCards) c)).
  - by intros c ?%elem_of_nil.
  - intros all i _ Hall. apply checkSubset_justified; [|done].
    apply subsetOfMask_sublist.
Qed.

End combinations.

(** C1 (combination soundness).  Every symbol [c] that
    [findPossibleCombinations] returns is justified by multiset containment:
    some non-empty sub-list [S] of the selected cards' symbols reduces to
    leaves that contain every leaf of [c]'s required leaf list
    ([getComponentsForWord c]) at least as many times as it is required
    (and [c] is a match of the reverse index at the canonical key of [S]).
    Hence a candidate that requires more occurrences of a leaf than the whole
    selection reduces to (two where the selection supplies one) is never
    returned. *)
Theorem findPossibleCombinations_sound (data : GameData)
    (selectedCards : list Card) (c : jsstring) :
  (c ∈ findPossibleCombinations selectedCards data →
   ∃ S, S ≠ [] ∧ sublist S (character <$> selectedCards) ∧
        (∃ matches,
           componentsToChars data !! sortedKey S = Some matches ∧ c ∈ matches) ∧
        ∀ leaf, count leaf (getComponentsForWord c data)
                ≤ count leaf (leavesOf data S)) ∧
  (∀ leaf,
     count leaf (leavesOf data (character <$> selectedCards))
       < count leaf (getComponentsForWord c data) →
     c ∉ findPossibleCombinations selectedCards data).
Proof.
  assert (c ∈ findPossibleCombinations selectedCards data →
          ∃ S, S ≠ [] ∧ sublist S (character <$> selectedCards) ∧
               (∃ matches,
                  componentsToChars data !! sortedKey S = Some matches ∧
                  c ∈ matches) ∧
               ∀ leaf, count leaf (getComponentsForWord c data)
                       ≤ count leaf (leavesOf data S)) as Hsound.
  { intros Hc.
    destruct (findPossibleCombinations_justified data _ _ Hc)
      as (S & Hne & Hsub & Hkey & Henough).
    exists S. split_and!; [done|done|done|].
    by apply hasEnoughComponents_spec. }
  split; [done|].
  intros leaf Hlt Hc. destruct (Hsound Hc) as (S & _ & Hsub & _ & Hall).
  specialize (Hall leaf).
  pose proof (count_bind_sublist leaf (λ c, decomposeToLeaves c data [])
                _ _ Hsub) as Hle.
  unfold leavesOf in *. lia.
Qed.

(** ** Hint search *)

Section hint_search.

Context (data : GameData).

Lemma isPartOfDecomposition_fuel_S fuel char target :
  isPartOfDecomposition_fuel (S fuel) char target data =
    match charToDecomposition data !! target with
    | None => Some false
    | Some targetDecomp =>
        if bool_decide (char ∈ components targetDecomp) then Some true
        else firstTrue (λ component,
                          isPartOfDecomposition_fuel fuel char component data)
                       (components targetDecomp)
    end.
Proof. reflexivity. Qed.

Lemma forEachM_None {A S} (body : S → A → option S) xs :
  foldl (λ acc x, s ← acc; body s x) None xs = None.
Proof. induction xs; simpl; auto. Qed.

Lemma forEachM_nil {A S} (init : S) (body : S → A → option S) :
  forEachM [] init body = Some init.
Proof. reflexivity. Qed.

Lemma forEachM_cons {A S} x xs (init : S) (body : S → A → option S) :
  forEachM (x :: xs) init body = s ← body init x; forEachM xs s body.
Proof.
  unfold forEachM. simpl. destruct (body init x); simpl; [done|].
  apply forEachM_None.
Qed.

Lemma forEachM_invariant {A S} (P : S → Prop) xs (init : S)
    (body : S → A → option S) r :
  P init →
  (∀ s x s', x ∈ xs → P s → body s x = Some s' → P s') →
  forEachM xs init body = Some r → P r.
Proof.
  revert init. induction xs as [|x xs IH]; intros init Hinit Hstep Hr.
  - rewrite forEachM_nil in Hr. by injection Hr as <-.
  - rewrite forEachM_cons in Hr.
    destruct (body init x) as [s|] eqn:Hbody; [|done]. simpl in Hr.
    apply (IH s); [|intros s0 x0 s' Hx0; apply Hstep; by right|done].
    apply (Hstep init x); [by left|done|done].
Qed.

(** In a graph with a two-node cycle the path-membership test of a symbol
    that is not on the cycle never returns, whatever the fuel. *)
Lemma isPartOfDecomposition_cycle char A B dA dB :
  charToDecomposition data !! A = Some dA → components dA = [B] →
  charToDecomposition data !! B = Some dB → components dB = [A] →
  char ≠ A → char ≠ B →
  ∀ fuel, isPartOfDecomposition_fuel fuel char A data = None
          ∧ isPartOfDecomposition_fuel fuel char B data = None.
Proof.
  intros HA HcA HB HcB HnA HnB fuel.
  induction fuel as [|fuel [IHA IHB]]; [done|].
  rewrite !isPartOfDecomposition_fuel_S, HA, HB, HcA, HcB.
  rewrite !bool_decide_eq_false_2
    by (rewrite list_elem_of_singleton; done).
  simpl. by rewrite IHA, IHB.
Qed.

End hint_search.

(** C2 (termination).  The claim fails for the path-membership test: on the
    graph [A -> [B]], [B -> [A]], [X -> [P, Q]] the call
    [isPartOfDecomposition("X", "A")] does not return for any amount of fuel,
    and neither does [generateHints] for the target [A] and the pool
    [P], [Q], whose pair the reverse index maps to the candidate [X]. *)
Theorem generateHints_cycle_never_returns :
  (∀ fuel, isPartOfDecomposition_fuel fuel (lit "X") (lit "A") cyclicData = None) ∧
  (∀ fuel, generateHints_fuel fuel (lit "A") cyclicPool cyclicData = None).
Proof.
  assert (∀ fuel,
            isPartOfDecomposition_fuel fuel (lit "X") (lit "A") cyclicData = None)
    as Hstuck.
  { intros fuel.
    apply (isPartOfDecomposition_cycle cyclicData (lit "X") (lit "A") (lit "B")
             (entry (lit "A") [lit "B"]) (entry (lit "B") [lit "A"]));
      by vm_compute. }
  split; [done|]. intros fuel.
  unfold generateHints_fuel.
  replace (buildCharToCardIds cyclicPool !! lit "A") with (@None (list jsstring))
    by by vm_compute.
  unfold findValidNextSteps_fuel.
  replace (length cyclicPool) with 2 by done.
  cbn [seq Nat.add Nat.sub].
  rewrite forEachM_cons. cbn beta. cbn [seq Nat.add Nat.sub].
  rewrite forEachM_cons. cbn beta.
  replace (checkGroup fuel (lit "A") cyclicData
             [cyclicPool !!! 0; cyclicPool !!! 1] [])
    with (@None (list Step)); [done|].
  unfold checkGroup.
  replace (default [] (componentsToChars cyclicData
                         !! sortedKey (character <$> [cyclicPool !!! 0; cyclicPool !!! 1])))
    with [lit "X"] by by vm_compute.
  rewrite forEachM_cons. cbn beta zeta.
  replace (hasEnoughComponents (character <$> [cyclicPool !!! 0; cyclicPool !!! 1])
             (getComponentsForWord (lit "X") cyclicData) cyclicData)
    with true by by vm_compute.
  replace (bool_decide (lit "X" = lit "A")) with false by by vm_compute.
  cbn [negb]. by rewrite Hstuck.
Qed.

Section hint_soundness.

Context (data : GameData).

Lemma firstTrue_true {A} (f : A → option bool) xs :
  firstTrue f xs = Some true → ∃ x, x ∈ xs ∧ f x = Some true.
Proof.
  induction xs as [|x xs IH]; [done|]. simpl.
  destruct (f x) as [[]|] eqn:Hfx; [|intros Hxs|done].
  - intros _. exists x. split; [by left|done].
  - destruct (IH Hxs) as (y & Hy & Hfy). exists y. split; [by right|done].
Qed.

Lemma firstTrue_false {A} (f : A → option bool) xs :
  firstTrue f xs = Some false → ∀ x, x ∈ xs → f x = Some false.
Proof.
  induction xs as [|x xs IH]; [by intros _ y ?%elem_of_nil|]. simpl.
  destruct (f x) as [[]|] eqn:Hfx; [done| |done].
  intros Hxs y [->|Hy]%elem_of_cons; [done|]. by apply IH.
Qed.

(** The test of the source decides the path membership of the
    specification whenever it returns. *)
Lemma isPartOfDecomposition_fuel_spec fuel char target b :
  isPartOfDecomposition_fuel fuel char target data = Some b →
  (b = true ↔ PathMember data char target).
Proof.
  revert target b. induction fuel as [|fuel IH]; intros target b; [done|].
  rewrite isPartOfDecomposition_fuel_S.
  destruct (charToDecomposition data !! target) as [decomp|] eqn:Ht.
  - case_bool_decide as Hin.
    + intros [= <-]. split; [|done]. intros _.
      by eapply PathMember_component.
    + destruct b; intros Hb.
      * split; [|done]. intros _.
        destruct (firstTrue_true _ _ Hb) as (c & Hc & Hrec).
        eapply PathMember_below; [done|done|]. by apply (IH c true).
      * split; [done|]. intros Hpm. exfalso.
        pose proof (firstTrue_false _ _ Hb) as Hall.
        inversion Hpm as [t d Hd Hs|t d c Hd Hc Hbelow]; subst;
          rewrite Ht in Hd; injection Hd as <-; [done|].
        specialize (Hall c Hc). apply (IH c false) in Hall.
        destruct Hall as [_ Hall]. by specialize (Hall Hbelow).
  - intros [= <-]. split; [done|]. intros Hpm.
    inversion Hpm; subst; congruence.
Qed.

Lemma checkGroup_valid fuel targetWord cards group steps steps' :
  isGroupOf cards group →
  Forall (validStep data targetWord cards) steps →
  checkGroup fuel targetWord data group steps = Some steps' →
  Forall (validStep data targetWord cards) steps'.
Proof.
  intros Hgroup Hsteps. unfold checkGroup.
  destruct (componentsToChars data !! sortedKey (character <$> group))
    as [matches|] eqn:Hkey; simpl;
    [|rewrite forEachM_nil; by intros [= <-]].
  apply forEachM_invariant; [done|].
  intros s candidate s' Hcand Hs.
  destruct (hasEnoughComponents (character <$> group)
              (getComponentsForWord candidate data) data) eqn:Henough;
    [|by intros [= <-]].
  case_bool_decide as Htarget; simpl.
  - intros [= <-]. apply Forall_app. split; [done|].
    apply Forall_singleton. exists group. simpl.
    split_and!; [done|done|by exists matches|done|by left].
  - destruct (isPartOfDecomposition_fuel fuel candidate targetWord data)
      as [[]|] eqn:Hpart; simpl; [|by intros [= <-]|done].
    intros [= <-]. apply Forall_app. split; [done|].
    apply Forall_singleton. exists group. simpl.
    split_and!; [done|done|by exists matches|done|right].
    by apply (isPartOfDecomposition_fuel_spec fuel _ _ true).
Qed.

Lemma findValidNextSteps_valid fuel targetWord cards steps :
  findValidNextSteps_fuel fuel targetWord cards data = Some steps →
  Forall (validStep data targetWord cards) steps.
Proof.
  unfold findValidNextSteps_fuel.
  destruct (forEachM (seq 0 (length cards)) [] _) as [pairs|] eqn:Hpairs;
    [|done].
  simpl.
  assert (Forall (validStep data targetWord cards) pairs) as Hpairs_ok.
  { revert Hpairs. apply forEachM_invariant; [done|].
    intros s i s' Hi%elem_of_seq Hs.
    apply forEachM_invariant; [done|].
    intros s0 j s0' Hj%elem_of_seq Hs0.
    apply checkGroup_valid; [|done].
    left. exists i, j. split_and!; [lia|lia|done]. }
  apply forEachM_invariant; [done|].
  intros s i s' Hi%elem_of_seq Hs.
  apply forEachM_invariant; [done|].
  intros s0 j s0' Hj%elem_of_seq Hs0.
  apply forEachM_invariant; [done|].
  intros s1 k s1' Hk%elem_of_seq Hs1.
  apply checkGroup_valid; [|done].
  right. exists i, j, k. split_and!; [lia|lia|lia|done].
Qed.

(** What the selection loop keeps: at most three hints, each holding the
    sorted card ids of one of the steps, none flagged as the answer. *)
Lemma takeHints_spec steps :
  length (takeHints steps) ≤ 3 ∧
  ∀ hint, hint ∈ takeHints steps →
    isAnswer hint = None ∧ used hint = false ∧
    ∃ step, step ∈ steps ∧ cardIds hint = sort (stepCardIds step).
Proof.
  unfold takeHints.
  apply (foldl_invariant
    (λ st : list Hint * list jsstring,
       length st.1 ≤ 3 ∧
       ∀ hint, hint ∈ st.1 →
         isAnswer hint = None ∧ used hint = false ∧
         ∃ step, step ∈ steps ∧ cardIds hint = sort (stepCardIds step))).
  - simpl. split; [lia|]. by intros hint ?%elem_of_nil.
  - intros [hints usedCardPairs] step Hstep [Hlen Hall]. simpl in *.
    destruct (negb _ && bool_decide (length hints < 3)) eqn:Hcond; [|done].
    simpl. apply andb_true_iff in Hcond as [_ Hlt%bool_decide_eq_true].
    split; [rewrite length_app; simpl; lia|].
    intros hint [Hin| ->%list_elem_of_singleton]%elem_of_app; [by apply Hall|].
    simpl. split_and!; [done|done|]. by exists step.
Qed.

Lemma buildCharToCardIds_snoc cards card :
  buildCharToCardIds (cards ++ [card]) =
    let charToCardIds := buildCharToCardIds cards in
    let m :=
      if bool_decide (is_Some (charToCardIds !! character card))
      then charToCardIds
      else <[character card := []]> charToCardIds in
    alter (λ l, l ++ [id card]) (character card) m.
Proof. unfold buildCharToCardIds. by rewrite foldl_app. Qed.

Lemma buildCharToCardIds_lookup cards c :
  buildCharToCardIds cards !! c =
    match filter (λ card, character card = c) cards with
    | [] => None
    | holders => Some (id <$> holders)
    end.
Proof.
  induction cards as [|card cards IH] using rev_ind; [done|].
  rewrite buildCharToCardIds_snoc, filter_app. cbn zeta.
  destruct (decide (character card = c)) as [Heq|Hne].
  - rewrite Heq, lookup_alter_eq.
    rewrite (filter_cons_True _ card) by done. rewrite filter_nil.
    case_bool_decide as Hsome.
    + rewrite IH in *.
      destruct (filter _ cards) as [|h holders]; [by destruct Hsome|].
      simpl. by rewrite fmap_app.
    + rewrite lookup_insert_eq. simpl.
      rewrite IH in Hsome.
      destruct (filter _ cards) as [|h holders]; [done|].
      exfalso. apply Hsome. by eexists.
  - rewrite lookup_alter_ne by done.
    rewrite (filter_cons_False _ card) by done. rewrite filter_nil, app_nil_r.
    case_bool_decide; [done|]. by rewrite lookup_insert_ne.
Qed.

End hint_soundness.

Section hint_termination.

Context (data : GameData) (rank : jsstring → nat).
Hypothesis Hranked : ranked data rank.

Lemma firstTrue_is_Some {A} (f : A → option bool) xs :
  (∀ x, x ∈ xs → is_Some (f x)) → is_Some (firstTrue f xs).
Proof.
  induction xs as [|x xs IH]; intros Hall; [by eexists|]. simpl.
  destruct (Hall x) as [[] Hfx]; [by left|rewrite Hfx; by eexists|].
  rewrite Hfx. apply IH. intros y Hy. apply Hall. by right.
Qed.

Lemma forEachM_is_Some {A S} xs (init : S) (body : S → A → option S) :
  (∀ s x, x ∈ xs → is_Some (body s x)) → is_Some (forEachM xs init body).
Proof.
  revert init. induction xs as [|x xs IH]; intros init Hall; [by eexists|].
  rewrite forEachM_cons. destruct (Hall init x) as [s Hs]; [by left|].
  rewrite Hs. simpl. apply IH. intros s' y Hy. apply Hall. by right.
Qed.

Lemma isPartOfDecomposition_fuel_returns fuel char target :
  rank target < fuel →
  is_Some (isPartOfDecomposition_fuel fuel char target data).
Proof using Hranked.
  revert target. induction fuel as [|fuel IH]; intros target Hfuel; [lia|].
  rewrite isPartOfDecomposition_fuel_S.
  destruct (charToDecomposition data !! target) as [decomp|] eqn:Ht;
    [|by eexists].
  case_bool_decide; [by eexists|].
  apply firstTrue_is_Some. intros c Hc. apply IH.
  pose proof (Hranked target decomp Ht) as Hcomps. simpl in Hcomps.
  rewrite Forall_forall in Hcomps. specialize (Hcomps c Hc). lia.
Qed.

Lemma checkGroup_returns fuel targetWord group steps :
  rank targetWord < fuel →
  is_Some (checkGroup fuel targetWord data group steps).
Proof using Hranked.
  intros Hfuel. unfold checkGroup. apply forEachM_is_Some.
  intros s candidate _.
  destruct (hasEnoughComponents _ _ data); [|by eexists].
  destruct (negb (bool_decide (candidate = targetWord))) eqn:Hneg.
  - destruct (isPartOfDecomposition_fuel_returns fuel candidate targetWord)
      as [b Hb]; [done|].
    rewrite Hb. simpl. destruct (_ || b); by eexists.
  - simpl. destruct (_ || false); by eexists.
Qed.

Lemma findValidNextSteps_returns fuel targetWord cards :
  rank targetWord < fuel →
  is_Some (findValidNextSteps_fuel fuel targetWord cards data).
Proof using Hranked.
  intros Hfuel. unfold findValidNextSteps_fuel.
  destruct (forEachM_is_Some (seq 0 (length cards)) []
    (λ validSteps i,
       forEachM (seq (i + 1) (length cards - (i + 1))) validSteps
         (λ validSteps j,
            checkGroup fuel targetWord data [cards !!! i; cards !!! j]
              validSteps))) as [pairs Hpairs].
  { intros s i _. apply forEachM_is_Some. intros s0 j _.
    by apply checkGroup_returns. }
  rewrite Hpairs. simpl.
  apply forEachM_is_Some. intros s i _.
  apply forEachM_is_Some. intros s0 j _.
  apply forEachM_is_Some. intros s1 k _.
  by apply checkGroup_returns.
Qed.

End hint_termination.


(** C6 (path-membership filter).  Every hint that [generateHints] returns
    and that is not the answer hint holds the (sorted) card ids of a group of
    two or three cards at increasing positions of the pool, and for that
    group the reverse index, looked up at the group's canonical key, lists a
    candidate that passes the containment check against the group's symbols
    and that is the target or a path member of the target, where path
    membership follows immediate-component edges of the graph. *)
Theorem generateHints_path_member_filter (data : GameData)
    (targetWord : jsstring) (cards : list Card) (fuel : nat)
    (hints : list Hint) (hint : Hint) :
  generateHints_fuel fuel targetWord cards data = Some hints →
  hint ∈ hints →
  isAnswer hint ≠ Some true →
  ∃ group candidate,
    isGroupOf cards group ∧
    cardIds hint = sort (id <$> group) ∧
    (∃ matches,
       componentsToChars data !! sortedKey (character <$> group) = Some matches ∧
       candidate ∈ matches) ∧
    hasEnoughComponents (character <$> group)
      (getComponentsForWord candidate data) data = true ∧
    (candidate = targetWord ∨ PathMember data candidate targetWord).
Proof.
  unfold generateHints_fuel. rewrite buildCharToCardIds_lookup.
  destruct (filter _ cards) as [|answer rest].
  - destruct (findValidNextSteps_fuel fuel targetWord cards data)
      as [steps|] eqn:Hsteps; [|done].
    simpl. intros [= <-] Hin _.
    destruct (takeHints_spec (sortBy (targetFirst targetWord) steps))
      as [_ Hall].
    destruct (Hall hint Hin) as (_ & _ & step & Hstep & Hids).
    rewrite sortBy_perm in Hstep.
    pose proof (findValidNextSteps_valid data _ _ _ _ Hsteps) as Hvalid.
    rewrite Forall_forall in Hvalid.
    destruct (Hvalid step Hstep)
      as (group & Hgroup & Hstepids & Hcand & Henough & Hpath).
    exists group, (result step). rewrite Hids, Hstepids. by split_and!.
  - simpl. intros [= <-] ->%list_elem_of_singleton Hanswer. by simpl in Hanswer.
Qed.

(** ** Submitting an answer *)

Section submit.

Lemma indexOf_lower_bound {A} `{EqDecision A} (l : list A) x :
  (-1 ≤ indexOf l x)%Z.
Proof.
  induction l as [|y l IH]; simpl; [lia|].
  destruct (decide (y = x)); [lia|].
  destruct (indexOf l x =? -1)%Z; lia.
Qed.

Lemma indexOf_absent {A} `{EqDecision A} (l : list A) x :
  indexOf l x = (-1)%Z ↔ x ∉ l.
Proof.
  induction l as [|y l IH]; simpl.
  - split; [intros _; apply not_elem_of_nil|done].
  - rewrite not_elem_of_cons. destruct (decide (y = x)) as [->|Hne].
    + split; [done|]. by intros [? _].
    + destruct (indexOf l x =? -1)%Z eqn:Hr.
      * apply Z.eqb_eq in Hr. split; [|done]. intros _. split; [done|].
        by apply IH.
      * apply Z.eqb_neq in Hr. pose proof (indexOf_lower_bound l x).
        split; [lia|]. intros [_ Hin]. by apply IH in Hin.
Qed.

Lemma indexOf_present {A} `{EqDecision A} (l : list A) x :
  indexOf l x ≠ (-1)%Z →
  (0 ≤ indexOf l x)%Z ∧ l !! Z.to_nat (indexOf l x) = Some x.
Proof.
  induction l as [|y l IH]; simpl; [done|].
  destruct (decide (y = x)) as [->|Hne]; [done|].
  destruct (indexOf l x =? -1)%Z eqn:Hr; [done|].
  apply Z.eqb_neq in Hr. intros _. destruct (IH Hr) as [Hpos Hlook].
  split; [lia|].
  replace (Z.to_nat (indexOf l x + 1)) with (S (Z.to_nat (indexOf l x))) by lia.
  done.
Qed.

Lemma matchTargetChars_spec remainingChars targetChars :
  matchTargetChars remainingChars targetChars = true ↔
  targetChars ⊆+ remainingChars.
Proof.
  revert remainingChars.
  induction targetChars as [|t ts IH]; intros remainingChars; simpl.
  - split; [intros _; apply submseteq_nil_l|done].
  - destruct (indexOf remainingChars t =? -1)%Z eqn:Hidx.
    + apply Z.eqb_eq, indexOf_absent in Hidx. split; [done|].
      intros Hsub. exfalso. apply Hidx.
      eapply elem_of_submseteq; [|done]. by left.
    + apply Z.eqb_neq, indexOf_present in Hidx as [_ Hlook].
      rewrite IH. pose proof (delete_Permutation _ _ _ Hlook) as Hperm.
      split.
      * intros Hsub. rewrite Hperm. by apply submseteq_skip.
      * intros Hsub. rewrite Hperm in Hsub.
        by apply (submseteq_app_inv_l _ _ [t]).
Qed.

Lemma codePoints_no_surrogates (w : jsstring) :
  Forall (λ u, isHighSurrogate u = false) w →
  codePoints w = split_units w.
Proof.
  induction 1 as [|u w Hu Hw IH]; [done|].
  change (codePoints (u :: w))
    with (match w with
          | v :: rest' =>
              if isHighSurrogate u && isLowSurrogate v
              then [u; v] :: codePoints rest'
              else [u] :: codePoints w
          | [] => [[u]]
          end).
  rewrite Hu. destruct w; [done|]. simpl andb. cbv iota. by rewrite IH.
Qed.

End submit.

(** What [checkAnswer] decides: the units that [split('')] cuts the target
    word into form a sub-multiset of the symbols of the pool.  Each unit is
    paired with a pool card of its own that holds exactly that string, no
    card serves two units, nothing is reduced to leaves, and cards that are
    left over do not matter.  For a word without surrogate pairs the units
    are the characters of the word, as the string iterator yields them. *)
Lemma checkAnswer_matching (availableCards : list Card)
    (targetWord : jsstring) :
  (checkAnswer availableCards targetWord = true ↔
   split_units targetWord ⊆+ (character <$> availableCards)) ∧
  (Forall (λ u, isHighSurrogate u = false) targetWord →
   (checkAnswer availableCards targetWord = true ↔
    codePoints targetWord ⊆+ (character <$> availableCards))).
Proof.
  assert (checkAnswer availableCards targetWord = true ↔
          split_units targetWord ⊆+ (character <$> availableCards)) as Hmain.
  { unfold checkAnswer. apply matchTargetChars_spec. }
  split; [done|]. intros Hbmp. by rewrite codePoints_no_surrogates.
Qed.

(** ** Pool transitions *)

Section pool.

Context (data : GameData).

Lemma filter_all {A} (P : A → Prop) `{∀ x, Decision (P x)} (l : list A) :
  (∀ x, x ∈ l → P x) → filter P l = l.
Proof.
  induction l as [|x l IH]; intros Hall; [done|].
  rewrite filter_cons_True by (apply Hall; by left).
  f_equal. apply IH. intros y Hy. apply Hall. by right.
Qed.

Lemma filter_none {A} (P : A → Prop) `{∀ x, Decision (P x)} (l : list A) :
  (∀ x, x ∈ l → ¬ P x) → filter P l = [].
Proof.
  induction l as [|x l IH]; intros Hall; [done|].
  rewrite filter_cons_False by (apply Hall; by left).
  apply IH. intros y Hy. apply Hall. by right.
Qed.

Lemma selected_find (selectedCards : list Card) (card : Card) :
  is_Some (list_find (λ sc, id sc = id card) selectedCards) ↔
  id card ∈ id <$> selectedCards.
Proof.
  rewrite list_elem_of_fmap. split.
  - intros [[i sc] Hfind]. apply list_find_Some in Hfind as (Hi & Hid & _).
    exists sc. split; [done|]. by eapply list_elem_of_lookup_2.
  - intros (sc & Hid & Hin). by eapply list_find_elem_of.
Qed.

(** [combineCards] spelled out: the cards whose id is not among the selected
    ids, in their order, followed by the new card. *)
Lemma combineCards_eq selectedCards targetChar availableCards now :
  combineCards selectedCards targetChar availableCards data now =
    filter (λ c, id c ∉ id <$> selectedCards) availableCards ++
    [{| id := targetChar ++ lit "-combined-" ++ ofN now;
        character := targetChar;
        isLeaf := readsNoEntry data targetChar |}].
Proof.
  unfold combineCards. f_equal. apply list_filter_iff.
  intros c. by rewrite selected_find.
Qed.

End pool.

Lemma readsNoEntry_spec (data : GameData) (c : jsstring) :
  readsNoEntry data c = true ↔
  charToDecomposition data !! c = None ∧ c ∉ objectPrototypeNames.
Proof.
  unfold readsNoEntry, readProperty.
  destruct (charToDecomposition data !! c); simpl.
  - split; [done|]. by intros [? _].
  - case_bool_decide as Hin; simpl.
    + split; [done|]. by intros [_ ?].
    + split; [done|]. by intros _.
Qed.

(** C10 (combine is unchecked; the leaf flag).  For every pool, selection
    and target [t], producible or not, [combineCards] returns the cards of
    the pool whose id is not the id of a selected card, unchanged and in
    their order, followed by exactly one new card, which holds [t].  The
    flag of the new card is the value of [!data.charToDecomposition[t]], a
    property read that also finds what every object inherits: the flag is
    [true] exactly when [t] has no entry and is not an inherited name.  So
    for the target [constructor], which has no entry and is no candidate of
    the selection, the new card is flagged as composite. *)
Theorem combineCards_inherited_name :
  (∀ (data : GameData) (selectedCards : list Card) (t : jsstring)
     (availableCards : list Card) (now : N),
     ∃ newCard,
       combineCards selectedCards t availableCards data now =
         filter (λ c, id c ∉ id <$> selectedCards) availableCards
         ++ [newCard] ∧
       character newCard = t ∧
       (isLeaf newCard = true ↔
        charToDecomposition data !! t = None ∧ t ∉ objectPrototypeNames)) ∧
  charToDecomposition hanziData !! lit "constructor" = None ∧
  (lit "constructor" ∉
     findPossibleCombinations [card "1" ri true; card "2" yue true]
       hanziData) ∧
  combineCards [card "1" ri true; card "2" yue true] (lit "constructor")
    sunMoonPool hanziData 1700%N
  = [card "3" xi true;
     {| id := lit "constructor-combined-1700";
        character := lit "constructor";
        isLeaf := false |}].
Proof.
  split; [|split; [|split]].
  - intros data selectedCards t availableCards now.
    eexists. split; [apply combineCards_eq|]. simpl. split; [done|].
    apply readsNoEntry_spec.
  - by vm_compute.
  - vm_compute. intros Hin. inversion Hin as [|? ? ? Hnil]. inversion Hnil.
  - by vm_compute.
Qed.

(** C7 (submit matching).  The matching is by exact equality, one card per
    character and without leaf reduction (see [checkAnswer_matching]), but the
    characters of the target word are taken with [split('')], which cuts a
    character outside the Basic Multilingual Plane into its two surrogate
    halves and an entity placeholder into its letters, where the rest of the
    engine ([getComponentsForWord]) keeps either as one symbol.  So the
    target [xueTop], one symbol, is not matched by the pool that holds a card
    with exactly that symbol, and neither is a placeholder. *)
Theorem checkAnswer_splits_symbols :
  codePoints xueTop = [xueTop] ∧
  getComponentsForWord xueTop hanziData = [xueTop] ∧
  xueTop ∈ character <$> [card "1" xueTop true] ∧
  split_units xueTop = [[55386%N]; [56687%N]] ∧
  checkAnswer [card "1" xueTop true] xueTop = false ∧
  getComponentsForWord cdp8974 hanziData = [cdp8974] ∧
  checkAnswer [card "1" cdp8974 true] cdp8974 = false.
Proof. vm_compute. split_and!; (reflexivity || left). Qed.


(** C9 (empty selection).  The [combine] command run on a stored game whose
    selection is empty ends with the failure "No cards selected!" and writes
    nothing: the stored game, and with it the card pool, is unchanged.  The
    command saves a combined pool only when at least one card is selected. *)
Theorem cmdCombine_empty_selection (gameId' targetChar : jsstring)
    (data : GameData) (now : N) (isoNow : jsstring)
    (games : gmap jsstring PersistedGameState) :
  (∀ st, games !! gameId' = Some st →
     selectedCards (gameState st) = [] →
     cmdCombine gameId' targetChar data now isoNow games
     = (EmptySelection, games)) ∧
  (∀ games',
     cmdCombine gameId' targetChar data now isoNow games = (Saved, games') →
     ∃ st, games !! gameId' = Some st ∧ selectedCards (gameState st) ≠ []).
Proof.
  unfold cmdCombine. split.
  - intros st -> Hsel. by rewrite Hsel.
  - intros games'. destruct (games !! gameId') as [st|]; [|done].
    case_bool_decide as Hlen; [done|]. intros _. exists st. split; [done|].
    intros Hsel. apply Hlen. by rewrite Hsel.
Qed.

(** * The properties at concrete inputs *)

Lemma findPossibleCombinations_sound_witness :
  (∃ S, S ≠ [] ∧
        sublist S (character <$> [card "1" xi true; card "2" kou true]) ∧
        (∃ matches,
           componentsToChars hanziData !! sortedKey S = Some matches ∧
           name_ ∈ matches) ∧
        ∀ leaf, count leaf (getComponentsForWord name_ hanziData)
                ≤ count leaf (leavesOf hanziData S)) ∧
  duo ∉ findPossibleCombinations [card "1" xi true; card "2" kou true] hanziData.
Proof.
  split.
  - apply (proj1 (findPossibleCombinations_sound hanziData
                    [card "1" xi true; card "2" kou true] name_)).
    vm_compute. left.
  - apply (proj2 (findPossibleCombinations_sound hanziData
                    [card "1" xi true; card "2" kou true] duo) xi).
    vm_compute. lia.
Defined.

Lemma decomposeToLeaves_cycle_safe_witness :
  decomposeToLeaves_fuel 3 (lit "A") cyclicData [] = Some [lit "A"] ∧
  decomposeToLeaves_fuel 1 (lit "A") cyclicData [lit "A"] = Some [lit "A"].
Proof.
  split.
  - apply (proj1 (proj2 (proj2 (decomposeToLeaves_cycle_safe cyclicData))
             (lit "A") (lit "B")
             (entry (lit "A") [lit "B"]) (entry (lit "B") [lit "A"])
             ltac:(vm_compute; reflexivity) ltac:(vm_compute; reflexivity)
             ltac:(vm_compute; reflexivity) ltac:(vm_compute; reflexivity))).
    lia.
  - apply (proj1 (proj2 (decomposeToLeaves_cycle_safe cyclicData))).
    left.
Defined.

Lemma decomposeToLeaves_preserves_duplicates_witness :
  count xi (components (entry duo [xi; xi]))
    ≤ count xi (decomposeToLeaves duo hanziData []) ∧
  count ke (components (entry ge [ke; ke]))
    * count kou (decomposeToLeaves ke hanziData ([] ++ [ge]))
    ≤ count kou (decomposeToLeaves ge hanziData []).
Proof.
  split.
  - apply (decomposeToLeaves_preserves_duplicates hanziData duo []
             (entry duo [xi; xi])).
    + vm_compute. reflexivity.
    + apply not_elem_of_nil.
    + vm_compute. reflexivity.
  - apply (decomposeToLeaves_preserves_duplicates hanziData ge []
             (entry ge [ke; ke])).
    + vm_compute. reflexivity.
    + apply not_elem_of_nil.
Defined.


Lemma generateHints_path_member_filter_witness :
  ∃ group candidate,
    isGroupOf sunMoonPool group ∧
    [lit "1"; lit "2"] = sort (id <$> group) ∧
    (∃ matches,
       componentsToChars hanziData !! sortedKey (character <$> group)
         = Some matches ∧
       candidate ∈ matches) ∧
    hasEnoughComponents (character <$> group)
      (getComponentsForWord candidate hanziData) hanziData = true ∧
    (candidate = ming ∨ PathMember hanziData candidate ming).
Proof.
  apply (generateHints_path_member_filter hanziData ming sunMoonPool 1
           [{| cardIds := [lit "1"; lit "2"]; used := false; isAnswer := None |}]
           {| cardIds := [lit "1"; lit "2"]; used := false; isAnswer := None |}).
  - vm_compute. reflexivity.
  - left.
  - simpl. discriminate.
Defined.

Example checkAnswer_matching_example :
  split_units (da ++ xue)
    ⊆+ (character <$> [card "1" da true; card "2" xue false; card "3" xi true]) ∧
  codePoints (da ++ xue)
    ⊆+ (character <$> [card "1" da true; card "2" xue false; card "3" xi true]).
Proof.
  split.
  - apply (proj1 (checkAnswer_matching
                    [card "1" da true; card "2" xue false; card "3" xi true]
                    (da ++ xue))).
    vm_compute. reflexivity.
  - apply (proj2 (checkAnswer_matching
                    [card "1" da true; card "2" xue false; card "3" xi true]
                    (da ++ xue))).
    + apply (bool_decide_unpack _). vm_compute. exact I.
    + vm_compute. reflexivity.
Defined.



Lemma cmdCombine_empty_selection_witness :
  cmdCombine (lit "test1") ming hanziData 1700%N (lit "2024-01-02T00:00:00.000Z")
             {[ lit "test1" := storedGame ]}
  = (EmptySelection, {[ lit "test1" := storedGame ]}).
Proof.
  apply (proj1 (cmdCombine_empty_selection (lit "test1") ming hanziData 1700%N
                  (lit "2024-01-02T00:00:00.000Z")
                  {[ lit "test1" := storedGame ]}) storedGame).
  - apply lookup_singleton_eq.
  - reflexivity.
Defined.

(** * Fuel is only a bound on the call depth *)

Section fuel_independence.

Context (data : GameData).

Lemma firstTrue_mono {A} (f f' : A → option bool) xs b :
  (∀ x b, x ∈ xs → f x = Some b → f' x = Some b) →
  firstTrue f xs = Some b → firstTrue f' xs = Some b.
Proof.
  induction xs as [|x xs IH]; intros Hff'; [done|]. simpl.
  destruct (f x) as [[]|] eqn:Hfx; [| |done].
  - rewrite (Hff' x true) by (done || by left). done.
  - rewrite (Hff' x false) by (done || by left).
    apply IH. intros y c Hy. apply Hff'. by right.
Qed.

Lemma forEachM_mono {A S} xs (init : S) (body body' : S → A → option S) r :
  (∀ s x s', x ∈ xs → body s x = Some s' → body' s x = Some s') →
  forEachM xs init body = Some r → forEachM xs init body' = Some r.
Proof.
  revert init. induction xs as [|x xs IH]; intros init Hbb'; [done|].
  rewrite !forEachM_cons.
  destruct (body init x) as [s|] eqn:Hbody; [|done]. simpl.
  rewrite (Hbb' init x s) by (done || by left). simpl.
  apply IH. intros s0 y s' Hy. apply Hbb'. by right.
Qed.

Lemma isPartOfDecomposition_fuel_mono fuel fuel' char target b :
  isPartOfDecomposition_fuel fuel char target data = Some b →
  fuel ≤ fuel' →
  isPartOfDecomposition_fuel fuel' char target data = Some b.
Proof.
  revert fuel' target b.
  induction fuel as [|fuel IH]; intros fuel' target b; [done|].
  destruct fuel' as [|fuel']; [lia|]. intros Hb Hle.
  rewrite isPartOfDecomposition_fuel_S in *.
  destruct (charToDecomposition data !! target) as [decomp|]; [|done].
  case_bool_decide; [done|].
  revert Hb. apply firstTrue_mono. intros c b' _ Hc. apply IH; [done|lia].
Qed.

Lemma checkGroup_mono fuel fuel' targetWord group steps steps' :
  checkGroup fuel targetWord data group steps = Some steps' →
  fuel ≤ fuel' →
  checkGroup fuel' targetWord data group steps = Some steps'.
Proof.
  intros Hsteps Hle. revert Hsteps. unfold checkGroup.
  apply forEachM_mono. intros s candidate s' _.
  destruct (hasEnoughComponents _ _ data); [|done].
  destruct (negb (bool_decide (candidate = targetWord))); [|done].
  destruct (isPartOfDecomposition_fuel fuel candidate targetWord data)
    as [b|] eqn:Hb; [|done].
  by rewrite (isPartOfDecomposition_fuel_mono _ fuel' _ _ _ Hb Hle).
Qed.

Lemma findValidNextSteps_mono fuel fuel' targetWord cards steps :
  findValidNextSteps_fuel fuel targetWord cards data = Some steps →
  fuel ≤ fuel' →
  findValidNextSteps_fuel fuel' targetWord cards data = Some steps.
Proof.
  intros Hsteps Hle. revert Hsteps. unfold findValidNextSteps_fuel.
  destruct (forEachM (seq 0 (length cards)) [] _) as [pairs|] eqn:Hpairs;
    [|done].
  simpl. intros Htriples.
  erewrite (forEachM_mono _ _ _ _ pairs); [| |exact Hpairs].
  - simpl. revert Htriples. apply forEachM_mono. intros s i s' _.
    apply forEachM_mono. intros s0 j s0' _.
    apply forEachM_mono. intros s1 k s1' _ Hg.
    by apply (checkGroup_mono fuel).
  - intros s i s' _. apply forEachM_mono. intros s0 j s0' _ Hg.
    by apply (checkGroup_mono fuel).
Qed.

(** More fuel never changes a result that was returned. *)
Lemma generateHints_fuel_mono fuel fuel' targetWord cards hints :
  generateHints_fuel fuel targetWord cards data = Some hints →
  fuel ≤ fuel' →
  generateHints_fuel fuel' targetWord cards data = Some hints.
Proof.
  unfold generateHints_fuel.
  destruct (buildCharToCardIds cards !! targetWord) as [[|first rest]|].
  - destruct (findValidNextSteps_fuel fuel targetWord cards data)
      as [steps|] eqn:Hsteps; [|done].
    intros Hhints Hle.
    by rewrite (findValidNextSteps_mono _ fuel' _ _ _ Hsteps Hle).
  - done.
  - destruct (findValidNextSteps_fuel fuel targetWord cards data)
      as [steps|] eqn:Hsteps; [|done].
    intros Hhints Hle.
    by rewrite (findValidNextSteps_mono _ fuel' _ _ _ Hsteps Hle).
Qed.

End fuel_independence.

(** * Scenarios of the specification and of the repository's tests *)

(** [ming -> [ri, yue]]: the pair is combinable into [ming], and combining
    the two cards of a two-card pool leaves exactly one card holding
    [ming]. *)
Example scenario_ming :
  ming ∈ findPossibleCombinations [card "1" ri true; card "2" yue true] hanziData ∧
  face <$> combineCards [card "1" ri true; card "2" yue true] ming
             [card "1" ri true; card "2" yue true] hanziData 1700%N
  = [(ming, false)].
Proof. vm_compute. split; [left|reflexivity]. Qed.

(** [ge] reduces to two occurrences of a placeholder leaf and two of
    [kou]. *)
Example scenario_ge :
  decomposeToLeaves ge hanziData [] = [cdp8974; kou; cdp8974; kou] ∧
  count cdp8974 (getComponentsForWord ge hanziData) = 2 ∧
  count kou (getComponentsForWord ge hanziData) = 2.
Proof. vm_compute. auto. Qed.

(** Target [da xue] with the pool [da], [xueTop], [zi]: the last two combine
    into [xue], the pool becomes [da], [xue], and the answer is accepted. *)
Example scenario_daxue :
  let pool := [card "1" da true; card "2" xueTop true; card "3" zi true] in
  let selected := [card "2" xueTop true; card "3" zi true] in
  let pool' := combineCards selected xue pool hanziData 1700%N in
  xue ∈ findPossibleCombinations selected hanziData ∧
  character <$> pool' = [da; xue] ∧
  checkAnswer pool (da ++ xue) = false ∧
  checkAnswer pool' (da ++ xue) = true.
Proof. vm_compute. split_and!; [left|reflexivity..]. Qed.

(** A two-character word is reduced character by character, an entity
    placeholder as one symbol. *)
Example scenario_words :
  getComponentsForWord (ming ++ duo) hanziData = [ri; yue; xi; xi] ∧
  getComponentsForWord cdp8974 hanziData = [cdp8974] ∧
  getComponentsForWord xueTop hanziData = [xueTop].
Proof. vm_compute. auto. Qed.

(** The hints of a pool from which the target can be built in one step, of
    a pool that already holds the target, and of a pool that offers nothing. *)
Example scenario_hints :
  generateHints_fuel 1 ming sunMoonPool hanziData
  = Some [{| cardIds := [lit "1"; lit "2"]; used := false; isAnswer := None |}] ∧
  generateHints_fuel 0 ming [card "7" ming false] hanziData
  = Some [answerHint (card "7" ming false)] ∧
  generateHints_fuel 1 ming [card "1" ri true; card "3" xi true] hanziData
  = Some [].
Proof. vm_compute. auto. Qed.

(** An intermediate step: with target [ge] and the parts of one [ke] in the
    pool, the hint points at the two parts, because [ke] is a path member of
    [ge]; the pair [kou], [xi] builds [name_], which is not, and is not
    hinted at. *)
Example scenario_intermediate_hint :
  generateHints_fuel 3 ge
    [card "1" cdp8974 true; card "2" kou true; card "3" xi true] hanziData
  = Some [{| cardIds := [lit "1"; lit "2"]; used := false; isAnswer := None |}].
Proof. vm_compute. reflexivity. Qed.

(** * Further properties of the code *)

(** ** Levels *)

(** X1. For a positive [roundsPerLevel] and a non-negative number of completed
    rounds, [getHSKLevel] stays between 1 and 7, never decreases as rounds
    are completed, reaches 7 exactly when six levels' worth of rounds are
    completed, and below the cap is the level whose block of rounds contains
    the count. *)
Theorem getHSKLevel_range (totalRoundsCompleted roundsPerLevel : Z) :
  (0 < roundsPerLevel)%Z →
  (0 ≤ totalRoundsCompleted)%Z →
  (1 ≤ getHSKLevel totalRoundsCompleted roundsPerLevel ≤ 7)%Z ∧
  (getHSKLevel totalRoundsCompleted roundsPerLevel = 7
   ↔ 6 * roundsPerLevel ≤ totalRoundsCompleted)%Z ∧
  (∀ later, (totalRoundsCompleted ≤ later)%Z →
     (getHSKLevel totalRoundsCompleted roundsPerLevel
      ≤ getHSKLevel later roundsPerLevel)%Z) ∧
  ((getHSKLevel totalRoundsCompleted roundsPerLevel < 7)%Z →
   ((getHSKLevel totalRoundsCompleted roundsPerLevel - 1) * roundsPerLevel
    ≤ totalRoundsCompleted
    < getHSKLevel totalRoundsCompleted roundsPerLevel * roundsPerLevel)%Z).
Proof.
  intros Hrpl Htotal. unfold getHSKLevel.
  pose proof (Z.div_pos totalRoundsCompleted roundsPerLevel Htotal Hrpl) as Hq.
  pose proof (Z.div_mod totalRoundsCompleted roundsPerLevel ltac:(lia)) as Hdm.
  pose proof (Z.mod_pos_bound totalRoundsCompleted roundsPerLevel Hrpl) as Hm.
  split; [|split; [|split]].
  - lia.
  - split; intros H; [|apply Z.min_r].
    + assert (6 ≤ totalRoundsCompleted / roundsPerLevel)%Z by lia. nia.
    + assert (6 ≤ totalRoundsCompleted / roundsPerLevel)%Z; [|lia].
      apply Z.div_le_lower_bound; lia.
  - intros later Hle.
    pose proof (Z.div_le_mono totalRoundsCompleted later roundsPerLevel
                  Hrpl Hle). lia.
  - intros Hlt.
    assert (Z.min (totalRoundsCompleted / roundsPerLevel + 1) 7
            = totalRoundsCompleted / roundsPerLevel + 1)%Z as -> by lia.
    nia.
Qed.

Lemma getHSKLevel_range_witness :
  (1 ≤ getHSKLevel 5 2 ≤ 7)%Z ∧
  (getHSKLevel 5 2 = 7 ↔ 6 * 2 ≤ 5)%Z ∧
  (∀ later, (5 ≤ later)%Z → (getHSKLevel 5 2 ≤ getHSKLevel later 2)%Z) ∧
  ((getHSKLevel 5 2 < 7)%Z →
   ((getHSKLevel 5 2 - 1) * 2 ≤ 5 < getHSKLevel 5 2 * 2)%Z).
Proof. apply (getHSKLevel_range 5 2); lia. Defined.

(** ** Leaf reduction and path membership *)

Section leaves_and_paths.

Context (data : GameData).

Lemma collect_elem_of {A} (f : A → option (list jsstring)) xs r x :
  collect f (Some []) xs = Some r →
  x ∈ r → ∃ c sub, c ∈ xs ∧ f c = Some sub ∧ x ∈ sub.
Proof.
  intros Hr Hx.
  pose proof (collect_inv _ _ _ _ Hr) as Hsome.
  rewrite (collect_Some _ (λ c, default [] (f c))) in Hr.
  - injection Hr as <-. simpl in Hx.
    apply list_elem_of_bind in Hx as (c & Hxc & Hc).
    destruct (Hsome c Hc) as [sub Hsub]. exists c, sub.
    rewrite Hsub in Hxc. done.
  - intros c Hc. destruct (Hsome c Hc) as [sub Hsub]. by rewrite Hsub.
Qed.

Lemma decomposeToLeaves_fuel_path_member fuel c path decomp r x :
  decomposeToLeaves_fuel fuel c data path = Some r →
  charToDecomposition data !! c = Some decomp →
  c ∉ path →
  x ∈ r → PathMember data x c.
Proof.
  revert c path decomp r.
  induction fuel as [|fuel IH]; intros c path decomp r Hr Hc Hpath Hx; [done|].
  rewrite decomposeToLeaves_fuel_S, bool_decide_eq_false_2, Hc in Hr by done.
  destruct (collect_elem_of _ _ _ _ Hr Hx) as (comp & sub & Hcomp & Hsub & Hxsub).
  destruct fuel as [|fuel']; [done|].
  rewrite decomposeToLeaves_fuel_S in Hsub.
  case_bool_decide as Hin.
  { injection Hsub as <-. apply list_elem_of_singleton in Hxsub as ->.
    by eapply PathMember_component. }
  destruct (charToDecomposition data !! comp) as [dcomp|] eqn:Hdcomp.
  - eapply PathMember_below; [done|done|].
    apply (IH comp (path ++ [c]) dcomp sub); [|done|done|done].
    by rewrite decomposeToLeaves_fuel_S, bool_decide_eq_false_2, Hdcomp.
  - injection Hsub as <-. apply list_elem_of_singleton in Hxsub as ->.
    by eapply PathMember_component.
Qed.

End leaves_and_paths.

(** X2. Every leaf that the reduction of a composite symbol returns is a path
    member of that symbol, so the path-membership test of the hint search
    answers [true] for it whenever it returns: what a symbol reduces to can
    always be hinted at as a step towards it. *)
Theorem leaves_are_path_members (data : GameData) (symbol leaf : jsstring)
    (decomp : CharacterDecomposition) :
  charToDecomposition data !! symbol = Some decomp →
  leaf ∈ decomposeToLeaves symbol data [] →
  PathMember data leaf symbol ∧
  ∀ fuel b, isPartOfDecomposition_fuel fuel leaf symbol data = Some b → b = true.
Proof.
  intros Hentry Hleaf.
  assert (PathMember data leaf symbol) as Hpm.
  { eapply (decomposeToLeaves_fuel_path_member data
              (S (size (unvisited data []))) symbol []); [|done| |done].
    - apply decomposeToLeaves_fuel_total. lia.
    - apply not_elem_of_nil. }
  split; [done|]. intros fuel b Hb.
  by apply (isPartOfDecomposition_fuel_spec data fuel leaf symbol b).
Qed.

Lemma leaves_are_path_members_witness :
  PathMember hanziData kou ge ∧
  ∀ fuel b, isPartOfDecomposition_fuel fuel kou ge hanziData = Some b → b = true.
Proof.
  apply (leaves_are_path_members hanziData ge kou (entry ge [ke; ke])).
  - vm_compute. reflexivity.
  - vm_compute. right. left.
Defined.

(** ** Graphs without cycles *)

Section ranked_graphs.

Context (data : GameData) (rank : jsstring → nat).
Hypothesis Hranked : ranked data rank.

Lemma ranked_component s decomp c :
  charToDecomposition data !! s = Some decomp →
  c ∈ components decomp → rank c < rank s.
Proof using Hranked.
  intros Hs Hc. pose proof (Hranked s decomp Hs) as Hall. simpl in Hall.
  rewrite Forall_forall in Hall. by apply Hall.
Qed.

(** The ancestors on the path never show up again, so the path does not
    matter. *)
Lemma decomposeToLeaves_ranked_path n c path :
  rank c < n →
  Forall (λ p, rank c < rank p) path →
  decomposeToLeaves c data path = decomposeToLeaves c data [].
Proof using Hranked.
  revert c path. induction n as [|n IH]; intros c path Hn Hpath; [lia|].
  rewrite (decomposeToLeaves_unfold data c path),
          (decomposeToLeaves_unfold data c []).
  rewrite Forall_forall in Hpath.
  rewrite (bool_decide_eq_false_2 (c ∈ path))
    by (intros Hin; specialize (Hpath c Hin); lia).
  rewrite (bool_decide_eq_false_2 (c ∈ [])) by apply not_elem_of_nil.
  destruct (charToDecomposition data !! c) as [decomp|] eqn:Hc; [|done].
  apply Forall_bind_ext, Forall_forall. intros comp Hcomp.
  pose proof (ranked_component c decomp comp Hc Hcomp) as Hlt.
  rewrite (IH comp (path ++ [c])), (IH comp ([] ++ [c])); [done|lia| |lia|].
  - apply Forall_singleton. done.
  - apply Forall_app. split; [|by apply Forall_singleton].
    apply Forall_forall. intros p Hp. specialize (Hpath p Hp). lia.
Qed.

Lemma decomposeToLeaves_ranked_unfold c decomp :
  charToDecomposition data !! c = Some decomp →
  decomposeToLeaves c data [] =
    components decomp ≫= (λ comp, decomposeToLeaves comp data []).
Proof using Hranked.
  intros Hc. rewrite decomposeToLeaves_unfold.
  rewrite bool_decide_eq_false_2 by apply not_elem_of_nil. rewrite Hc.
  apply Forall_bind_ext, Forall_forall. intros comp Hcomp.
  pose proof (ranked_component c decomp comp Hc Hcomp) as Hlt.
  apply (decomposeToLeaves_ranked_path (S (rank comp))); [lia|].
  by apply Forall_singleton.
Qed.

Lemma decomposeToLeaves_ranked_leaf n c x :
  rank c < n →
  x ∈ decomposeToLeaves c data [] →
  charToDecomposition data !! x = None.
Proof using Hranked.
  revert c. induction n as [|n IH]; intros c Hn Hx; [lia|].
  destruct (charToDecomposition data !! c) as [decomp|] eqn:Hc.
  - rewrite (decomposeToLeaves_ranked_unfold c decomp Hc) in Hx.
    apply list_elem_of_bind in Hx as (comp & Hx & Hcomp).
    pose proof (ranked_component c decomp comp Hc Hcomp) as Hlt.
    apply (IH comp); [lia|done].
  - rewrite decomposeToLeaves_unfold, Hc in Hx.
    rewrite bool_decide_eq_false_2 in Hx by apply not_elem_of_nil.
    by apply list_elem_of_singleton in Hx as ->.
Qed.

Lemma leavesOf_leaves (l : list jsstring) :
  Forall (λ x, charToDecomposition data !! x = None) l →
  leavesOf data l = l.
Proof.
  unfold leavesOf. induction 1 as [|x l Hx _ IH]; [done|].
  rewrite bind_cons, IH, decomposeToLeaves_unfold, Hx.
  by rewrite bool_decide_eq_false_2 by apply not_elem_of_nil.
Qed.

End ranked_graphs.

Lemma count_Permutation x l1 l2 : l1 ≡ₚ l2 → count x l1 = count x l2.
Proof. intros Hperm. unfold count. by rewrite Hperm. Qed.

Lemma leavesOf_app data l1 l2 :
  leavesOf data (l1 ++ l2) = leavesOf data l1 ++ leavesOf data l2.
Proof. unfold leavesOf. apply bind_app. Qed.

Lemma hasEnoughComponents_Permutation data held held' required :
  leavesOf data held ≡ₚ leavesOf data held' →
  hasEnoughComponents held required data
  = hasEnoughComponents held' required data.
Proof.
  intros Hperm. apply eq_true_iff_eq.
  rewrite !hasEnoughComponents_spec.
  split; intros Hall leaf; specialize (Hall leaf);
    by rewrite (count_Permutation leaf _ _ Hperm) in *.
Qed.

(** X3. On a graph without cycles the reduction returns true leaves only
    (symbols without an entry), it does not depend on the path it is started
    with as long as the path holds no descendant, and reducing the leaves
    again gives the same list. *)
Theorem decomposeToLeaves_acyclic (data : GameData) (rank : jsstring → nat)
    (symbol : jsstring) :
  ranked data rank →
  Forall (λ leaf, charToDecomposition data !! leaf = None)
         (decomposeToLeaves symbol data []) ∧
  leavesOf data (decomposeToLeaves symbol data [])
  = decomposeToLeaves symbol data [] ∧
  (∀ path, Forall (λ p, rank symbol < rank p) path →
     decomposeToLeaves symbol data path = decomposeToLeaves symbol data []).
Proof.
  intros Hranked.
  assert (Forall (λ leaf, charToDecomposition data !! leaf = None)
                 (decomposeToLeaves symbol data [])) as Hleaves.
  { apply Forall_forall. intros x Hx.
    apply (decomposeToLeaves_ranked_leaf data rank Hranked
             (S (rank symbol)) symbol); [lia|done]. }
  split_and!; [done|by apply leavesOf_leaves|].
  intros path Hpath.
  apply (decomposeToLeaves_ranked_path data rank Hranked (S (rank symbol)));
    [lia|done].
Qed.

Lemma decomposeToLeaves_acyclic_witness :
  Forall (λ leaf, charToDecomposition hanziData !! leaf = None)
         (decomposeToLeaves ge hanziData []) ∧
  leavesOf hanziData (decomposeToLeaves ge hanziData [])
  = decomposeToLeaves ge hanziData [] ∧
  (∀ path, Forall (λ p, hanziRank ge < hanziRank p) path →
     decomposeToLeaves ge hanziData path = decomposeToLeaves ge hanziData []).
Proof.
  apply (decomposeToLeaves_acyclic hanziData hanziRank ge).
  apply (bool_decide_unpack _). vm_compute. exact I.
Defined.

Lemma imap_characters (f : nat → jsstring → Card) (l : list jsstring) :
  (∀ i x, character (f i x) = x) → character <$> imap f l = l.
Proof.
  revert f. induction l as [|x l IH]; intros f Hf; [done|].
  rewrite imap_cons, fmap_cons, Hf. f_equal. apply IH.
  intros i y. apply Hf.
Qed.

Lemma componentCards_characters data decomp now :
  character <$> componentCards decomp data now = components decomp.
Proof. unfold componentCards. by apply imap_characters. Qed.

(** X4. On a graph without cycles, whenever decomposing a card of the pool
    (whose id no other card shares) returns a pool, that pool reduces to
    what the old one reduced to: the leaves of the new pool are a
    rearrangement of the leaves of the old one, and the containment check
    answers the same for every requirement. *)
Theorem decomposeCard_keeps_leaves (data : GameData) (rank : jsstring → nat)
    (pre post : list Card) (card : Card) (now : nat → N)
    (pool' : list Card) :
  ranked data rank →
  Forall (λ c, id c ≠ id card) (pre ++ post) →
  let pool := pre ++ card :: post in
  decomposeCard card pool data now = Normal pool' →
  leavesOf data (character <$> pool') ≡ₚ leavesOf data (character <$> pool) ∧
  (∀ required,
     hasEnoughComponents (character <$> pool') required data
     = hasEnoughComponents (character <$> pool) required data).
Proof.
  intros Hranked Hunique pool Hrun.
  assert (leavesOf data (character <$> pool')
          ≡ₚ leavesOf data (character <$> pool)) as Hperm.
  { revert Hrun. unfold decomposeCard, readProperty, pool.
    destruct (charToDecomposition data !! character card) as [decomp|] eqn:Hc.
    2:{ case_bool_decide; [done|]. by intros [= <-]. }
    intros [= <-].
    rewrite filter_app, filter_cons_False by (intros Hne; by apply Hne).
    rewrite <-filter_app, filter_all by by apply Forall_forall.
    pose proof (componentCards_characters data decomp now) as Hchars.
    rewrite !fmap_app, fmap_cons, !leavesOf_app, Hchars.
    change (character card :: (character <$> post))
      with ([character card] ++ (character <$> post)).
    rewrite leavesOf_app.
    assert (leavesOf data [character card] = leavesOf data (components decomp))
      as ->.
    { unfold leavesOf at 1. rewrite bind_singleton.
      by apply (decomposeToLeaves_ranked_unfold data rank). }
    rewrite <-app_assoc. apply Permutation_app_head, Permutation_app_comm. }
  split; [done|].
  intros required. by apply hasEnoughComponents_Permutation.
Qed.

Lemma decomposeCard_keeps_leaves_witness :
  let pool' :=
    [card "2" xi true]
    ++ componentCards (entry ge [ke; ke]) hanziData (λ _, 1700%N) in
  leavesOf hanziData (character <$> pool')
  ≡ₚ leavesOf hanziData
       (character <$> [card "2" xi true] ++ card "1" ge false :: []) ∧
  (∀ required,
     hasEnoughComponents (character <$> pool') required hanziData
     = hasEnoughComponents
         (character <$> [card "2" xi true] ++ card "1" ge false :: [])
         required hanziData).
Proof.
  apply (decomposeCard_keeps_leaves hanziData hanziRank
           [card "2" xi true] [] (card "1" ge false) (λ _, 1700%N)).
  - apply (bool_decide_unpack _). vm_compute. exact I.
  - apply (bool_decide_unpack _). vm_compute. exact I.
  - by vm_compute.
Defined.

(** ** The containment check *)

Lemma count_submseteq (l1 l2 : list jsstring) :
  (∀ x, count x l1 ≤ count x l2) ↔ l1 ⊆+ l2.
Proof.
  split.
  - revert l2. induction l1 as [|x l1 IH]; intros l2 Hall;
      [apply submseteq_nil_l|].
    assert (x ∈ l2) as Hx.
    { apply count_pos. specialize (Hall x).
      rewrite count_cons, decide_True in Hall by done. lia. }
    apply elem_of_Permutation in Hx as [l2' Hl2].
    rewrite Hl2. apply submseteq_skip, IH. intros y.
    specialize (Hall y). rewrite (count_Permutation y _ _ Hl2) in Hall.
    rewrite !count_cons in Hall. lia.
  - intros Hsub x.
    induction Hsub as [|y l1 l2 _ IH|y z l|y l1 l2 _ IH|l1 l2 l3 _ IH1 _ IH2];
      rewrite ?count_cons; lia.
Qed.

(** X5. [hasEnoughComponents] answers [true] exactly when the required list is
    contained, as a multiset, in the leaves the held symbols reduce to.  So
    nothing is required of an empty requirement, holding more never hurts,
    requiring less never hurts, and the order of either list is
    irrelevant. *)
Theorem hasEnoughComponents_multiset (data : GameData)
    (held required : list jsstring) :
  (hasEnoughComponents held required data = true
   ↔ required ⊆+ leavesOf data held) ∧
  hasEnoughComponents held [] data = true ∧
  (∀ held', held ⊆+ held' →
     hasEnoughComponents held required data = true →
     hasEnoughComponents held' required data = true) ∧
  (∀ required', required' ⊆+ required →
     hasEnoughComponents held required data = true →
     hasEnoughComponents held required' data = true).
Proof.
  assert (∀ h r, hasEnoughComponents h r data = true ↔ r ⊆+ leavesOf data h)
    as Hiff.
  { intros h r. by rewrite hasEnoughComponents_spec, count_submseteq. }
  split_and!.
  - apply Hiff.
  - apply Hiff, submseteq_nil_l.
  - intros held' Hsub. rewrite !Hiff. intros Hreq.
    etrans; [done|]. unfold leavesOf. by apply bind_submseteq.
  - intros required' Hsub. rewrite !Hiff. intros Hreq. by etrans.
Qed.

Lemma hasEnoughComponents_multiset_witness :
  hasEnoughComponents [ke; ke; xi] [kou; cdp8974; kou] hanziData = true.
Proof.
  apply (proj1 (proj2 (proj2 (hasEnoughComponents_multiset hanziData
                                [ke; ke] [kou; cdp8974; kou])))
           [ke; ke; xi]).
  - apply (submseteq_inserts_r [xi] [ke; ke] [ke; ke]). done.
  - vm_compute. reflexivity.
Defined.

(** ** The combination finder: what it finds and where it stops *)

Section combination_completeness.

Context (data : GameData).













Lemma NoDup_setAdd {A} `{EqDecision A} (x : A) s :
  NoDup s → NoDup (setAdd x s).
Proof.
  intros Hs. unfold setAdd. case_bool_decide as Hx; [done|].
  apply NoDup_app. split_and!; [done| |apply NoDup_singleton].
  intros y Hy ->%list_elem_of_singleton. done.
Qed.

Lemma checkSubset_NoDup all chars :
  NoDup all → NoDup (checkSubset data all chars).
Proof.
  intros Hall. unfold checkSubset. case_bool_decide; [done|].
  destruct (componentsToChars data !! sortedKey chars) as [matches|]; [|done].
  apply (foldl_invariant (λ all, NoDup all)); [done|].
  intros a char _ Ha. destruct (hasEnoughComponents _ _ data); [|done].
  by apply NoDup_setAdd.
Qed.

End combination_completeness.



(** X7. Where [findPossibleCombinations] finds nothing: for an empty selection,
    and also for 31 or 32 selected cards (and every count that leaves the
    remainder 31 or 0 modulo 32), where the loop bound [1 << n] wraps around
    to a number that is not above 1.  What it returns never lists a candidate
    twice. *)
Theorem findPossibleCombinations_edges (data : GameData)
    (selectedCards : list Card) :
  NoDup (findPossibleCombinations selectedCards data) ∧
  (selectedCards = [] → findPossibleCombinations selectedCards data = []) ∧
  ((Z.of_nat (length selectedCards) mod 32 = 31)%Z ∨
   (Z.of_nat (length selectedCards) mod 32 = 0)%Z →
   findPossibleCombinations selectedCards data = []).
Proof.
  split_and!.
  - unfold findPossibleCombinations. case_bool_decide; [apply NoDup_nil_2|].
    apply (foldl_invariant (λ all, NoDup all)); [apply NoDup_nil_2|].
    intros a i _ Ha. by apply checkSubset_NoDup.
  - by intros ->.
  - intros Hmod. unfold findPossibleCombinations.
    case_bool_decide; [done|].
    rewrite length_fmap. unfold shl.
    destruct Hmod as [-> | ->]; by vm_compute.
Qed.

Lemma findPossibleCombinations_edges_witness :
  findPossibleCombinations (replicate 31 (card "1" ri true)) hanziData = [] ∧
  findPossibleCombinations (replicate 32 (card "1" ri true)) hanziData = [].
Proof.
  split.
  - apply (proj2 (proj2 (findPossibleCombinations_edges hanziData
                           (replicate 31 (card "1" ri true))))).
    left. vm_compute. reflexivity.
  - apply (proj2 (proj2 (findPossibleCombinations_edges hanziData
                           (replicate 32 (card "1" ri true))))).
    right. vm_compute. reflexivity.
Defined.

(** ** The hint search: distinct hints, the target first *)

Section hint_ranking.

Context (data : GameData).

Lemma forEachM_reaches {A S} (P : S → Prop) xs (init : S)
    (body : S → A → option S) x r :
  forEachM xs init body = Some r →
  x ∈ xs →
  (∀ s s', body s x = Some s' → P s') →
  (∀ s y s', P s → body s y = Some s' → P s') →
  P r.
Proof.
  intros Hr Hx Hadd Hkeep. revert init Hr.
  induction xs as [|y xs IH]; intros init Hr; [by apply elem_of_nil in Hx|].
  rewrite forEachM_cons in Hr.
  destruct (body init y) as [s|] eqn:Hbody; [|done]. simpl in Hr.
  apply elem_of_cons in Hx as [<-|Hx]; [|by apply (IH Hx s)].
  revert Hr. apply forEachM_invariant; [by eapply Hadd|].
  intros s0 y0 s0' _. apply Hkeep.
Qed.

Lemma checkGroup_keeps fuel targetWord group0 group steps steps' :
  directStep targetWord group0 steps →
  checkGroup fuel targetWord data group steps = Some steps' →
  directStep targetWord group0 steps'.
Proof.
  intros Hdirect. unfold checkGroup.
  apply forEachM_invariant; [done|].
  intros s candidate s' _ (step & Hstep & Hids & Hres).
  destruct (hasEnoughComponents _ _ data); [|by intros [= <-]; exists step].
  destruct (if negb _ then _ else _) as [isIntermediate|]; [|done]. simpl.
  destruct (_ || isIntermediate); intros [= <-]; exists step;
    (split; [|done]); [apply elem_of_app; by left|done].
Qed.

Lemma checkGroup_direct fuel targetWord group matches steps steps' :
  componentsToChars data !! sortedKey (character <$> group) = Some matches →
  targetWord ∈ matches →
  hasEnoughComponents (character <$> group)
    (getComponentsForWord targetWord data) data = true →
  checkGroup fuel targetWord data group steps = Some steps' →
  directStep targetWord group steps'.
Proof.
  intros Hkey Htarget Henough. unfold checkGroup. rewrite Hkey. simpl.
  intros Hr.
  apply (forEachM_reaches (directStep targetWord group) _ _ _ targetWord _
           Hr Htarget).
  - intros s s'. rewrite Henough, bool_decide_eq_true_2 by done. simpl.
    intros [= <-]. eexists. split; [apply elem_of_app; right; by left|done].
  - intros s candidate s' (step & Hstep & Hids & Hres).
    destruct (hasEnoughComponents (character <$> group)
                (getComponentsForWord candidate data) data);
      [|by intros [= <-]; exists step].
    destruct (if negb _ then _ else _) as [isIntermediate|]; [|done]. simpl.
    destruct (_ || isIntermediate); intros [= <-]; exists step;
      (split; [|done]); [apply elem_of_app; by left|done].
Qed.

End hint_ranking.

Section hint_ranking_2.

Context (data : GameData).

Lemma forEachM_keeps {A S} (P : S → Prop) xs (init : S)
    (body : S → A → option S) r :
  P init →
  (∀ s y s', P s → body s y = Some s' → P s') →
  forEachM xs init body = Some r → P r.
Proof.
  intros Hinit Hkeep. apply forEachM_invariant; [done|].
  intros s y s' _. apply Hkeep.
Qed.

Lemma findValidNextSteps_direct fuel targetWord cards group matches steps :
  isGroupOf cards group →
  componentsToChars data !! sortedKey (character <$> group) = Some matches →
  targetWord ∈ matches →
  hasEnoughComponents (character <$> group)
    (getComponentsForWord targetWord data) data = true →
  findValidNextSteps_fuel fuel targetWord cards data = Some steps →
  directStep targetWord group steps.
Proof.
  intros Hgroup Hkey Htarget Henough. unfold findValidNextSteps_fuel.
  destruct (forEachM (seq 0 (length cards)) [] _) as [pairs|] eqn:Hpairs;
    [|done].
  simpl. intros Htriples.
  destruct Hgroup as [(i & j & Hij & Hj & ->)|(i & j & k & Hij & Hjk & Hk & ->)].
  - (* a pair: found by the first loop, kept by the second *)
    assert (directStep targetWord [cards !!! i; cards !!! j] pairs) as Hdirect.
    { apply (forEachM_reaches _ _ _ _ i _ Hpairs);
        [apply elem_of_seq; lia| |].
      - intros s s' Hinner.
        apply (forEachM_reaches _ _ _ _ j _ Hinner);
          [apply elem_of_seq; lia| |].
        + intros s0 s0'. by apply checkGroup_direct with (matches := matches).
        + intros s0 y s0' Hs0. by apply checkGroup_keeps.
      - intros s y s' Hs. apply forEachM_keeps; [done|].
        intros s0 y0 s0' Hs0. by apply checkGroup_keeps. }
    revert Htriples. apply forEachM_keeps; [done|].
    intros s y s' Hs. apply forEachM_keeps; [done|].
    intros s0 y0 s0' Hs0. apply forEachM_keeps; [done|].
    intros s1 y1 s1' Hs1. by apply checkGroup_keeps.
  - (* a triple: found by the second loop *)
    apply (forEachM_reaches _ _ _ _ i _ Htriples);
      [apply elem_of_seq; lia| |].
    + intros s s' Hinner.
      apply (forEachM_reaches _ _ _ _ j _ Hinner);
        [apply elem_of_seq; lia| |].
      * intros s0 s0' Hinner2.
        apply (forEachM_reaches _ _ _ _ k _ Hinner2);
          [apply elem_of_seq; lia| |].
        -- intros s1 s1'. by apply checkGroup_direct with (matches := matches).
        -- intros s1 y s1' Hs1. by apply checkGroup_keeps.
      * intros s0 y s0' Hs0. apply forEachM_keeps; [done|].
        intros s1 y1 s1' Hs1. by apply checkGroup_keeps.
    + intros s y s' Hs. apply forEachM_keeps; [done|].
      intros s0 y0 s0' Hs0. apply forEachM_keeps; [done|].
      intros s1 y1 s1' Hs1. by apply checkGroup_keeps.
Qed.

Lemma targetFirst_negative targetWord a b :
  (targetFirst targetWord a b <? 0)%Z = true ↔
  result a = targetWord ∧ result b ≠ targetWord.
Proof.
  unfold targetFirst.
  repeat case_bool_decide; simpl; split; try done; try (intros [? ?]; done).
Qed.

(** The steps that reach the target are sorted to the front. *)
Lemma sortBy_targetFirst_head targetWord (steps : list Step) step :
  step ∈ steps → result step = targetWord →
  ∃ first rest,
    sortBy (targetFirst targetWord) steps = first :: rest ∧
    result first = targetWord.
Proof.
  revert step. induction steps as [|x l IH]; intros step Hstep Hres;
    [by apply elem_of_nil in Hstep|].
  change (sortBy (targetFirst targetWord) (x :: l))
    with (insertBy (targetFirst targetWord) x (sortBy (targetFirst targetWord) l)).
  destruct (decide (result x = targetWord)) as [Hx|Hx].
  - destruct (sortBy (targetFirst targetWord) l) as [|y l'] eqn:Hsorted;
      [by exists x, []|].
    simpl. destruct (targetFirst targetWord y x <? 0)%Z eqn:Hcmp.
    + apply targetFirst_negative in Hcmp as [_ Hcmp]. done.
    + by exists x, (y :: l').
  - apply elem_of_cons in Hstep as [->|Hstep]; [done|].
    destruct (IH step Hstep Hres) as (first & rest & Hsorted & Hfirst).
    rewrite Hsorted. simpl.
    assert ((targetFirst targetWord first x <? 0)%Z = true) as ->
      by by apply targetFirst_negative.
    by eexists _, _.
Qed.

(** The first step always becomes the first hint. *)
Lemma takeHints_head step steps :
  ∃ rest,
    takeHints (step :: steps)
    = {| cardIds := sort (stepCardIds step); used := false; isAnswer := None |}
        :: rest.
Proof.
  unfold takeHints. simpl.
  apply (foldl_invariant
    (λ st : list Hint * list jsstring,
       ∃ rest, st.1 = {| cardIds := sort (stepCardIds step);
                         used := false; isAnswer := None |} :: rest)).
  - by eexists.
  - intros [hints usedCardPairs] s _ [rest Hrest]. simpl in *.
    destruct (negb _ && bool_decide (length hints < 3)); [|by eexists].
    simpl. rewrite Hrest. by eexists.
Qed.

Lemma takeHints_keys steps :
  NoDup ((λ h, join (lit ",") (cardIds h)) <$> takeHints steps).
Proof.
  unfold takeHints.
  apply (foldl_invariant
    (λ st : list Hint * list jsstring,
       NoDup ((λ h, join (lit ",") (cardIds h)) <$> st.1) ∧
       ∀ key, key ∈ (λ h, join (lit ",") (cardIds h)) <$> st.1 → key ∈ st.2)).
  - simpl. split; [apply NoDup_nil_2|]. by intros key ?%elem_of_nil.
  - intros [hints usedCardPairs] step _ [Hnodup Hkeys]. simpl in *.
    destruct (negb (bool_decide (_ ∈ usedCardPairs))) eqn:Hfresh; simpl;
      [|done].
    destruct (bool_decide (length hints < 3)); [|done]. simpl.
    apply negb_true_iff, bool_decide_eq_false in Hfresh.
    rewrite fmap_app. simpl. split.
    + apply NoDup_app. split_and!; [done| |apply NoDup_singleton].
      intros key Hkey ->%list_elem_of_singleton. by apply Hfresh, Hkeys.
    + intros key [Hkey| ->%list_elem_of_singleton]%elem_of_app;
        apply elem_of_setAdd; [right; by apply Hkeys|by left].
Qed.

End hint_ranking_2.

Lemma generateHints_fuel_ids (data : GameData) (targetWord : jsstring)
    (cards : list Card) (fuel : nat) (hints : list Hint) :
  generateHints_fuel fuel targetWord cards data = Some hints →
  Forall (λ h, Forall (λ i, i ∈ id <$> cards) (cardIds h)) hints.
Proof.
  unfold generateHints_fuel. rewrite buildCharToCardIds_lookup.
  destruct (filter (λ card, character card = targetWord) cards)
    as [|answer rest] eqn:Hholders.
  - destruct (findValidNextSteps_fuel fuel targetWord cards data)
      as [steps|] eqn:Hsteps; [|done].
    simpl. intros [= <-].
    set (sorted := sortBy (targetFirst targetWord) steps).
    destruct (takeHints_spec sorted) as [_ Hall].
    apply Forall_forall. intros h Hh.
    destruct (Hall h Hh) as (_ & _ & step & Hstep & ->).
    unfold sorted in Hstep. rewrite sortBy_perm in Hstep.
    pose proof (findValidNextSteps_valid data _ _ _ _ Hsteps) as Hvalid.
    rewrite Forall_forall in Hvalid.
    destruct (Hvalid step Hstep) as (group & Hgroup & -> & _).
    apply Forall_forall. intros i Hi. unfold sort in Hi.
    rewrite sortBy_perm in Hi.
    apply list_elem_of_fmap in Hi as (c & -> & Hc).
    apply list_elem_of_fmap. exists c. split; [done|].
    destruct Hgroup as [(a & b & ? & ? & ->)|(a & b & d & ? & ? & ? & ->)];
      repeat (apply elem_of_cons in Hc as [->|Hc];
              [apply list_elem_of_lookup_total_2; lia|]);
      by apply elem_of_nil in Hc.
  - simpl. intros [= <-].
    apply Forall_singleton. simpl. apply Forall_singleton.
    apply list_elem_of_fmap. exists answer. split; [done|].
    assert (answer ∈ filter (λ card, character card = targetWord) cards)
      as Hin by (rewrite Hholders; by left).
    by apply list_elem_of_filter in Hin as [_ ?].
Qed.

(** X8. Whenever [generateHints] returns, its hints are unused, no two of them
    hold the same list of card ids, and every id a hint holds is the id of a
    card of the pool it was given. *)
Theorem generateHints_well_formed (data : GameData) (targetWord : jsstring)
    (cards : list Card) (fuel : nat) (hints : list Hint) :
  generateHints_fuel fuel targetWord cards data = Some hints →
  Forall (λ h, used h = false) hints ∧
  NoDup (cardIds <$> hints) ∧
  Forall (λ h, Forall (λ i, i ∈ id <$> cards) (cardIds h)) hints.
Proof.
  intros Hhints. split; [|split]; [| |by eapply generateHints_fuel_ids].
  - revert Hhints.
    unfold generateHints_fuel. rewrite buildCharToCardIds_lookup.
    destruct (filter (λ card, character card = targetWord) cards)
      as [|answer rest].
    + destruct (findValidNextSteps_fuel fuel targetWord cards data)
        as [steps|]; [|done].
      simpl. intros [= <-].
      destruct (takeHints_spec (sortBy (targetFirst targetWord) steps))
        as [_ Hall].
      apply Forall_forall. intros h Hh.
      by destruct (Hall h Hh) as (_ & ? & _).
    + simpl. intros [= <-]. by apply Forall_singleton.
  - revert Hhints.
    unfold generateHints_fuel. rewrite buildCharToCardIds_lookup.
    destruct (filter (λ card, character card = targetWord) cards)
      as [|answer rest].
    + destruct (findValidNextSteps_fuel fuel targetWord cards data)
        as [steps|]; [|done].
      simpl. intros [= <-].
      eapply NoDup_fmap_1. rewrite <-list_fmap_compose. apply takeHints_keys.
    + simpl. intros [= <-]. apply NoDup_singleton.
Qed.

Lemma generateHints_well_formed_witness :
  Forall (λ h, used h = false)
    [{| cardIds := [lit "1"; lit "2"]; used := false; isAnswer := None |}] ∧
  NoDup (cardIds <$>
    [{| cardIds := [lit "1"; lit "2"]; used := false; isAnswer := None |}]) ∧
  Forall (λ h, Forall (λ i, i ∈ id <$> sunMoonPool) (cardIds h))
    [{| cardIds := [lit "1"; lit "2"]; used := false; isAnswer := None |}].
Proof.
  apply (generateHints_well_formed hanziData ming sunMoonPool 1).
  vm_compute. reflexivity.
Defined.

(** X9. If no card holds the target and some pair or triple of pool cards builds
    the target directly (the reverse index lists the target for the group and
    the group passes the containment check), then, whenever [generateHints]
    returns, its first hint is such a group: hints that finish the round come
    before hints for intermediate steps. *)
Theorem generateHints_target_first (data : GameData) (targetWord : jsstring)
    (cards group : list Card) (matches : list jsstring) (fuel : nat)
    (hints : list Hint) :
  Forall (λ c, character c ≠ targetWord) cards →
  isGroupOf cards group →
  componentsToChars data !! sortedKey (character <$> group) = Some matches →
  targetWord ∈ matches →
  hasEnoughComponents (character <$> group)
    (getComponentsForWord targetWord data) data = true →
  generateHints_fuel fuel targetWord cards data = Some hints →
  ∃ first rest group',
    hints = first :: rest ∧
    isGroupOf cards group' ∧
    cardIds first = sort (id <$> group') ∧
    (∃ matches',
       componentsToChars data !! sortedKey (character <$> group')
         = Some matches' ∧ targetWord ∈ matches') ∧
    hasEnoughComponents (character <$> group')
      (getComponentsForWord targetWord data) data = true.
Proof.
  intros Hnone Hgroup Hkey Htarget Henough.
  unfold generateHints_fuel. rewrite buildCharToCardIds_lookup.
  rewrite (filter_none (λ card, character card = targetWord) cards).
  2:{ rewrite Forall_forall in Hnone. intros c Hc Heq. by apply (Hnone c). }
  destruct (findValidNextSteps_fuel fuel targetWord cards data)
    as [steps|] eqn:Hsteps; [|done].
  simpl. intros [= <-].
  destruct (findValidNextSteps_direct data _ _ _ _ _ _ Hgroup Hkey Htarget
              Henough Hsteps) as (step & Hstep & _ & Hres).
  destruct (sortBy_targetFirst_head targetWord steps step Hstep Hres)
    as (first & rest & Hsorted & Hfirst).
  rewrite Hsorted. destruct (takeHints_head first rest) as [hrest ->].
  assert (first ∈ steps) as Hin.
  { rewrite <-(sortBy_perm (targetFirst targetWord) steps), Hsorted. by left. }
  pose proof (findValidNextSteps_valid data _ _ _ _ Hsteps) as Hvalid.
  rewrite Forall_forall in Hvalid.
  destruct (Hvalid first Hin)
    as (group' & Hgroup' & Hids & Hcand & Henough' & _).
  rewrite Hfirst in Hcand, Henough'.
  eexists _, hrest, group'. simpl. rewrite Hids. by split_and!.
Qed.

Lemma generateHints_target_first_witness :
  ∃ first rest group',
    [{| cardIds := [lit "1"; lit "2"]; used := false; isAnswer := None |}]
    = first :: rest ∧
    isGroupOf sunMoonPool group' ∧
    cardIds first = sort (id <$> group') ∧
    (∃ matches',
       componentsToChars hanziData !! sortedKey (character <$> group')
         = Some matches' ∧ ming ∈ matches') ∧
    hasEnoughComponents (character <$> group')
      (getComponentsForWord ming hanziData) hanziData = true.
Proof.
  apply (generateHints_target_first hanziData ming sunMoonPool
           [card "1" ri true; card "2" yue true] [ming] 1).
  - apply (bool_decide_unpack _). vm_compute. exact I.
  - left. exists 0, 1. split_and!; [lia|simpl; lia|reflexivity].
  - vm_compute. reflexivity.
  - left.
  - vm_compute. reflexivity.
  - vm_compute. reflexivity.
Defined.

(** ** Card identifiers *)

Section identifiers.

Lemma lit_String a s : lit (String a s) = Ascii.N_of_ascii a :: lit s.
Proof. reflexivity. Qed.

Lemma pretty_N_char_digit d :
  (48 ≤ Ascii.N_of_ascii (pretty_N_char d) ≤ 57)%N.
Proof. unfold pretty_N_char. repeat case_match; vm_compute; split; discriminate. Qed.

Lemma pretty_N_go_digits x s :
  Forall (λ u, (48 ≤ u ≤ 57)%N) (lit s) →
  Forall (λ u, (48 ≤ u ≤ 57)%N) (lit (pretty_N_go x s)).
Proof.
  revert s. induction (N.lt_wf_0 x) as [x _ IH]; intros s Hs.
  assert (x = 0 ∨ 0 < x)%N as [->|Hx] by lia.
  - by rewrite pretty_N_go_0.
  - rewrite pretty_N_go_step by done. apply IH; [by apply N.div_lt|].
    rewrite lit_String. apply Forall_cons. split; [|done].
    apply pretty_N_char_digit.
Qed.

Lemma ofN_digits n : Forall (λ u, (48 ≤ u ≤ 57)%N) (ofN n).
Proof.
  unfold ofN, pretty, pretty_N. case_decide.
  - apply Forall_singleton. vm_compute. split; discriminate.
  - apply pretty_N_go_digits. apply Forall_nil_2.
Qed.

Lemma ofNat_digits n : Forall (λ u, (48 ≤ u ≤ 57)%N) (ofNat n).
Proof. apply (ofN_digits (N.of_nat n)). Qed.

Lemma digits_no_dash l : Forall (λ u, (48 ≤ u ≤ 57)%N) l → 45%N ∉ l.
Proof.
  rewrite Forall_forall. intros Hall Hin. specialize (Hall _ Hin). lia.
Qed.

Lemma lit_inj s1 s2 : lit s1 = lit s2 → s1 = s2.
Proof.
  revert s2. induction s1 as [|a s1 IH]; intros [|b s2]; try done.
  rewrite !lit_String. intros [= Hab Hs]. f_equal; [|by apply IH].
  by rewrite <-(Ascii.ascii_N_embedding a), Hab, Ascii.ascii_N_embedding.
Qed.

Lemma ofNat_inj i j : ofNat i = ofNat j → i = j.
Proof. intros Hij%lit_inj. by apply (inj pretty). Qed.

Lemma ofN_inj i j : ofN i = ofN j → i = j.
Proof. intros Hij%lit_inj. by apply (inj pretty). Qed.

(** A text is cut at its last separator in one way only. *)
Lemma app_sep_inj (sep : N) a1 b1 a2 b2 :
  sep ∉ b1 → sep ∉ b2 →
  a1 ++ sep :: b1 = a2 ++ sep :: b2 → a1 = a2 ∧ b1 = b2.
Proof.
  intros Hb1 Hb2. revert a2.
  induction a1 as [|x a1 IH]; intros [|y a2]; simpl.
  - by intros [= ->].
  - intros [= <- ->]. exfalso. apply Hb1. apply elem_of_app. right. by left.
  - intros [= -> <-]. exfalso. apply Hb2. apply elem_of_app. right. by left.
  - intros [= -> Heq]. destruct (IH a2 Heq) as [-> ->]. done.
Qed.

Lemma dealt_id_inj comp1 comp2 i1 i2 t1 t2 :
  comp1 ++ lit "-" ++ ofNat i1 ++ lit "-" ++ ofN t1
  = comp2 ++ lit "-" ++ ofNat i2 ++ lit "-" ++ ofN t2 →
  comp1 = comp2 ∧ i1 = i2 ∧ t1 = t2.
Proof.
  change (lit "-") with [45%N]. intros Heq.
  rewrite !(app_assoc _ [45%N] (ofNat _ ++ _)) in Heq.
  rewrite !(app_assoc _ (ofNat _) ([45%N] ++ _)) in Heq.
  apply app_sep_inj in Heq as [Heq Ht];
    [|apply digits_no_dash, ofN_digits..].
  rewrite <-!app_assoc in Heq.
  apply app_sep_inj in Heq as [Hcomp Hi];
    [|apply digits_no_dash, ofNat_digits..].
  split_and!; [done|by apply ofNat_inj|by apply ofN_inj].
Qed.

Lemma decomposed_id_inj comp1 comp2 i1 i2 t1 t2 :
  comp1 ++ lit "-decomp-" ++ ofNat i1 ++ lit "-" ++ ofN t1
  = comp2 ++ lit "-decomp-" ++ ofNat i2 ++ lit "-" ++ ofN t2 →
  comp1 = comp2 ∧ i1 = i2 ∧ t1 = t2.
Proof.
  change (lit "-decomp-") with (lit "-decomp" ++ [45%N]).
  change (lit "-") with [45%N]. intros Heq.
  rewrite <-!(app_assoc (lit "-decomp") [45%N]) in Heq.
  rewrite !(app_assoc _ (lit "-decomp") _) in Heq.
  rewrite !(app_assoc _ [45%N] (ofNat _ ++ _)) in Heq.
  rewrite !(app_assoc _ (ofNat _) ([45%N] ++ _)) in Heq.
  apply app_sep_inj in Heq as [Heq Ht];
    [|apply digits_no_dash, ofN_digits..].
  rewrite <-!app_assoc in Heq.
  rewrite !(app_assoc _ (lit "-decomp") _) in Heq.
  apply app_sep_inj in Heq as [Hcomp Hi];
    [|apply digits_no_dash, ofNat_digits..].
  apply app_inv_tail in Hcomp.
  split_and!; [done|by apply ofNat_inj|by apply ofN_inj].
Qed.

Lemma NoDup_imap_index {A B} (f : nat → A → B) (l : list A) :
  (∀ i j x y, f i x = f j y → i = j) → NoDup (imap f l).
Proof.
  intros Hinj. apply NoDup_alt. intros i j b Hi Hj.
  rewrite list_lookup_imap in Hi, Hj.
  destruct (l !! i) as [x|]; [|done]. destruct (l !! j) as [y|]; [|done].
  simpl in *. apply (Hinj i j x y). congruence.
Qed.

End identifiers.

(** X10. [createCardsFromComponents] deals one card per component, in the order
    of the components and with their duplicates; every card carries the leaf
    flag its symbol calls for, and no two cards of the deal have the same id,
    whatever the clock reads and even when a component occurs twice. *)
Theorem createCardsFromComponents_deal (comps : list jsstring)
    (data : GameData) (now : nat → N) :
  character <$> createCardsFromComponents comps data now = comps ∧
  Forall (λ c, isLeaf c = noDecomposition data (character c))
         (createCardsFromComponents comps data now) ∧
  NoDup (id <$> createCardsFromComponents comps data now).
Proof.
  unfold createCardsFromComponents. split_and!.
  - by apply imap_characters.
  - apply Forall_forall. intros c Hc.
    apply elem_of_lookup_imap_1 in Hc as (i & x & -> & _). done.
  - rewrite fmap_imap. apply NoDup_imap_index. intros i j x y Heq.
    unfold compose in Heq. simpl in Heq.
    by apply dealt_id_inj in Heq as (_ & ? & _).
Qed.

(** X11. [decomposeCard] on a card whose symbol has an entry: the cards with a
    different id stay, in their order, and one card per component is
    appended, in component order, flagged as its symbol calls for, with ids
    that differ from one another.  Whether the card is in the pool is not
    checked: for a card that is not, the components are appended all the
    same. *)
Theorem decomposeCard_shape (data : GameData) (card : Card)
    (availableCards : list Card) (decomp : CharacterDecomposition)
    (now : nat → N) :
  charToDecomposition data !! character card = Some decomp →
  ∃ newCards,
    decomposeCard card availableCards data now
    = Normal (filter (λ c, id c ≠ id card) availableCards ++ newCards) ∧
    character <$> newCards = components decomp ∧
    Forall (λ c, isLeaf c = noDecomposition data (character c)) newCards ∧
    NoDup (id <$> newCards) ∧
    (id card ∉ id <$> availableCards →
     decomposeCard card availableCards data now
     = Normal (availableCards ++ newCards)).
Proof.
  intros Hentry. exists (componentCards decomp data now).
  unfold decomposeCard, readProperty. rewrite Hentry. split_and!.
  - done.
  - apply componentCards_characters.
  - apply Forall_forall. intros c Hc. unfold componentCards in Hc.
    apply elem_of_lookup_imap_1 in Hc as (i & x & -> & _). done.
  - unfold componentCards. rewrite fmap_imap. apply NoDup_imap_index.
    intros i j x y Heq. unfold compose in Heq. simpl in Heq.
    by apply decomposed_id_inj in Heq as (_ & ? & _).
  - intros Hnot. rewrite filter_all; [done|].
    intros c Hc Heq. apply Hnot. apply list_elem_of_fmap. by exists c.
Qed.

Lemma decomposeCard_shape_witness :
  ∃ newCards,
    decomposeCard (card "9" ming false) sunMoonPool hanziData (λ _, 1700%N)
    = Normal (filter (λ c, id c ≠ id (card "9" ming false)) sunMoonPool
              ++ newCards) ∧
    character <$> newCards = components (entry ming [ri; yue]) ∧
    Forall (λ c, isLeaf c = noDecomposition hanziData (character c)) newCards ∧
    NoDup (id <$> newCards) ∧
    (id (card "9" ming false) ∉ id <$> sunMoonPool →
     decomposeCard (card "9" ming false) sunMoonPool hanziData (λ _, 1700%N)
     = Normal (sunMoonPool ++ newCards)).
Proof.
  apply (decomposeCard_shape hanziData (card "9" ming false) sunMoonPool
           (entry ming [ri; yue]) (λ _, 1700%N)).
  vm_compute. reflexivity.
Defined.

(** ** Combining and submitting *)

Section combine_and_submit.

Context (data : GameData).

Lemma filter_selected_Permutation (pool selected : list Card) :
  NoDup (id <$> pool) → NoDup (id <$> selected) →
  Forall (λ c, c ∈ pool) selected →
  filter (λ c, id c ∈ id <$> selected) pool ≡ₚ selected.
Proof.
  intros Hpool Hsel Hin. rewrite Forall_forall in Hin.
  apply NoDup_Permutation.
  - apply NoDup_filter. by eapply NoDup_fmap_1.
  - by eapply NoDup_fmap_1.
  - intros c. rewrite list_elem_of_filter, list_elem_of_fmap. split.
    + intros [(s & Hid & Hs) Hc].
      assert (c = s) as ->; [|done].
      apply list_elem_of_lookup in Hc as [i Hi].
      pose proof (Hin s Hs) as [j Hj]%list_elem_of_lookup.
      assert (i = j) as ->; [|congruence].
      apply (NoDup_lookup _ i j (id s) Hpool);
        rewrite list_lookup_fmap; [rewrite Hi|rewrite Hj]; simpl; congruence.
    + intros Hc. split; [by exists c|by apply Hin].
Qed.

Lemma split_units_app w1 w2 :
  split_units (w1 ++ w2) = split_units w1 ++ split_units w2.
Proof. unfold split_units. apply fmap_app. Qed.

End combine_and_submit.

(** X12. When the pool has no two cards with the same id and the selection
    is made of distinct cards of the pool, [combineCards] takes out exactly
    the selected cards and adds one card: the result together with the
    selection is the pool together with the new card, up to order, so the
    pool shrinks by the size of the selection less one; the cards kept are
    in their old order, in front of the new card. *)
Theorem combineCards_accounting (data : GameData) (selectedCards : list Card)
    (t : jsstring) (availableCards : list Card) (now : N) :
  NoDup (id <$> availableCards) →
  NoDup (id <$> selectedCards) →
  Forall (λ c, c ∈ availableCards) selectedCards →
  let pool' := combineCards selectedCards t availableCards data now in
  (∃ newCard, character newCard = t ∧
      pool' ++ selectedCards ≡ₚ availableCards ++ [newCard] ∧
      ∃ kept, pool' = kept ++ [newCard] ∧ sublist kept availableCards) ∧
  length pool' + length selectedCards = length availableCards + 1.
Proof.
  intros Hpool Hsel Hin pool'. unfold pool'. rewrite combineCards_eq.
  pose proof (filter_selected_Permutation availableCards selectedCards
                Hpool Hsel Hin) as Hperm.
  pose proof (filter_app_complement
                (λ c, id c ∈ id <$> selectedCards) availableCards) as Hsplit.
  split.
  - eexists. split; [|split].
    2:{ rewrite <-Hsplit at 2. rewrite Hperm.
        etrans; [apply Permutation_app_comm|]. by rewrite app_assoc. }
    + done.
    + eexists. split; [done|]. apply sublist_filter.
  - apply Permutation_length in Hperm, Hsplit.
    rewrite length_app in *. simpl. lia.
Qed.

Lemma combineCards_accounting_witness :
  let pool' := combineCards [card "1" ri true; card "2" yue true] ming
                 sunMoonPool hanziData 1700%N in
  (∃ newCard, character newCard = ming ∧
      pool' ++ [card "1" ri true; card "2" yue true]
        ≡ₚ sunMoonPool ++ [newCard] ∧
      ∃ kept, pool' = kept ++ [newCard] ∧ sublist kept sunMoonPool) ∧
  length pool' + 2 = length sunMoonPool + 1.
Proof.
  apply (combineCards_accounting hanziData
           [card "1" ri true; card "2" yue true] ming sunMoonPool 1700%N).
  - by apply (bool_decide_unpack _); vm_compute.
  - by apply (bool_decide_unpack _); vm_compute.
  - repeat constructor.
Defined.

(** X13. [checkAnswer] looks at the pool as a bag of card faces and at the
    word as a bag of code units.  An accepted word stays accepted when cards
    are added to the pool or the pool is reordered, it has at most as many
    code units as the pool has cards, every rearrangement of its code units
    is accepted too, and so is every prefix and suffix. *)
Theorem checkAnswer_bag (pool pool' : list Card) (w : jsstring) :
  character <$> pool ⊆+ character <$> pool' →
  checkAnswer pool w = true →
  checkAnswer pool' w = true ∧
  length w ≤ length pool ∧
  (∀ w', w' ≡ₚ w → checkAnswer pool w' = true) ∧
  (∀ w1 w2, w = w1 ++ w2 →
     checkAnswer pool w1 = true ∧ checkAnswer pool w2 = true).
Proof.
  unfold checkAnswer. rewrite !matchTargetChars_spec. intros Hsub Hw.
  split; [by etrans|]. split; [|split].
  - apply submseteq_length in Hw.
    unfold split_units in Hw. by rewrite !length_fmap in Hw.
  - intros w' Hperm. apply matchTargetChars_spec.
    unfold split_units in *. by rewrite Hperm.
  - intros w1 w2 ->. rewrite split_units_app in Hw.
    rewrite !matchTargetChars_spec. split.
    + etrans; [|exact Hw]. apply submseteq_inserts_r. done.
    + etrans; [|exact Hw]. apply submseteq_inserts_l. done.
Qed.

Lemma checkAnswer_bag_witness :
  let pool := [card "1" ri true; card "2" yue true] in
  let pool' := [card "3" yue true; card "4" xi true; card "5" ri true] in
  checkAnswer pool' (ri ++ yue) = true ∧
  length (ri ++ yue) ≤ length pool ∧
  (∀ w', w' ≡ₚ ri ++ yue → checkAnswer pool w' = true) ∧
  (∀ w1 w2, ri ++ yue = w1 ++ w2 →
     checkAnswer pool w1 = true ∧ checkAnswer pool w2 = true).
Proof.
  apply (checkAnswer_bag [card "1" ri true; card "2" yue true]
           [card "3" yue true; card "4" xi true; card "5" ri true]
           (ri ++ yue)).
  - by apply (bool_decide_unpack _); vm_compute.
  - reflexivity.
Defined.

(** X14. Combining and then submitting.  When the target symbol [t] handed
    to [combineCards] is one code unit long and the cards left after taking
    out the selection spell [w], the pool after the combination is accepted
    by [checkAnswer] for [w] followed by [t] and for [t] followed by [w];
    with [w] empty: the pool is accepted for [t] itself, whatever the
    selection was. *)
Theorem combine_then_checkAnswer (data : GameData) (selectedCards : list Card)
    (t w : jsstring) (availableCards : list Card) (now : N) :
  length t = 1 →
  checkAnswer (filter (λ c, id c ∉ id <$> selectedCards) availableCards) w
    = true →
  let pool' := combineCards selectedCards t availableCards data now in
  checkAnswer pool' (w ++ t) = true ∧
  checkAnswer pool' (t ++ w) = true ∧
  checkAnswer pool' t = true.
Proof.
  intros Ht Hw pool'. unfold pool'. rewrite combineCards_eq.
  destruct t as [|u [|??]]; try done. clear Ht.
  unfold checkAnswer in *. rewrite matchTargetChars_spec in Hw.
  rewrite !matchTargetChars_spec, !fmap_app, !split_units_app. simpl.
  split; [|split].
  - by apply submseteq_app.
  - etrans; [apply Permutation_submseteq,
               (Permutation_app_comm [[u]] (split_units w))|].
    by apply submseteq_app.
  - apply submseteq_inserts_l. done.
Qed.

Lemma combine_then_checkAnswer_witness :
  let pool' := combineCards [card "1" ri true; card "2" yue true] ming
                 sunMoonPool hanziData 1700%N in
  checkAnswer pool' ([] ++ ming) = true ∧
  checkAnswer pool' (ming ++ []) = true ∧
  checkAnswer pool' ming = true.
Proof.
  apply (combine_then_checkAnswer hanziData
           [card "1" ri true; card "2" yue true] ming [] sunMoonPool 1700%N);
    reflexivity.
Defined.

(** ** Choosing a word and dealing the cards *)

Lemma isValidWord_spec data w :
  isValidWord data w = true ↔
  length w = 1 ∧
  ∃ decomp, charToDecomposition data !! w = Some decomp ∧
            components decomp ≠ [].
Proof.
  unfold isValidWord. case_bool_decide as Hlen; simpl.
  - destruct (charToDecomposition data !! w) as [decomp|].
    + rewrite bool_decide_eq_true. split.
      * intros Hpos. split; [done|]. exists decomp. split; [done|].
        destruct (components decomp); [simpl in Hpos; lia|done].
      * intros [_ (d & Hd & Hne)]. injection Hd as <-.
        destruct (components decomp); [done|]. simpl. lia.
    + split; [done|]. by intros [_ (d & ? & _)].
  - split; [done|]. by intros [? _].
Qed.

Lemma isDecoyChar_spec data targetWord w :
  isDecoyChar data targetWord w = true ↔
  w ≠ targetWord ∧ isValidWord data w = true.
Proof.
  unfold isDecoyChar, isValidWord.
  destruct (decide (w = targetWord)) as [Heq|Hne].
  - rewrite (bool_decide_eq_true_2 _ Heq). split; [done|]. by intros [? _].
  - rewrite (bool_decide_eq_false_2 _ Hne). tauto.
Qed.

(** X15. [selectRandomWord] throws exactly when the level has no word list
    or an empty one.  Otherwise, with a random index inside the list it is
    drawn from, the word is one of the level's words, and whenever the level
    has a word of one code unit that has an entry with components, the word
    chosen is of that kind: a composite character rather than a longer word
    or a leaf. *)
Theorem selectRandomWord_spec (hskLevel : Z) (data : GameData)
    (pick : Picker) :
  (∀ n, 0 < n → pick n < n) →
  let words := default [] (hskWords data !! ofZ hskLevel) in
  ((∃ message, selectRandomWord hskLevel data pick = Throw message)
   ↔ words = []) ∧
  (∀ w, selectRandomWord hskLevel data pick = Normal w →
     w ∈ words ∧
     ((∃ v, v ∈ words ∧ isValidWord data v = true) →
      length w = 1 ∧
      ∃ decomp, charToDecomposition data !! w = Some decomp ∧
                components decomp ≠ [])).
Proof.
  intros Hpick words. unfold words, selectRandomWord.
  destruct (hskWords data !! ofZ hskLevel) as [ws|]; simpl.
  2:{ split; [split; [done|by eexists]|done]. }
  case_bool_decide as Hlen.
  { apply length_zero_iff_nil in Hlen as ->.
    split; [split; [done|by eexists]|done]. }
  assert (0 < length ws) as Hpos by lia.
  split.
  { split; [by intros [? ?]|]. intros ->. by simpl in Hlen. }
  intros w [= <-].
  set (validWords := filter (λ word, isValidWord data word) ws).
  case_bool_decide as Hvalid.
  - assert (validWords !!! pick (length validWords) ∈ validWords) as Hin.
    { apply list_elem_of_lookup_total_2, Hpick, Hvalid. }
    pose proof Hin as [Hv Hws]%list_elem_of_filter.
    split; [done|]. intros _. apply isValidWord_spec.
    by destruct (isValidWord data _).
  - split; [apply list_elem_of_lookup_total_2, Hpick, Hpos|].
    intros (v & Hv & Hvv). exfalso. apply Hvalid.
    assert (v ∈ validWords) as Hin.
    { apply list_elem_of_filter. split; [by rewrite Hvv|done]. }
    destruct validWords; [by apply elem_of_nil in Hin|simpl; lia].
Qed.

Lemma selectRandomWord_spec_witness :
  let words := default [] (hskWords levelData !! ofZ 1) in
  ((∃ message, selectRandomWord 1 levelData (λ _, 0) = Throw message)
   ↔ words = []) ∧
  (∀ w, selectRandomWord 1 levelData (λ _, 0) = Normal w →
     w ∈ words ∧
     ((∃ v, v ∈ words ∧ isValidWord levelData v = true) →
      length w = 1 ∧
      ∃ decomp, charToDecomposition levelData !! w = Some decomp ∧
                components decomp ≠ [])).
Proof.
  apply (selectRandomWord_spec 1 levelData (λ _, 0)). intros n Hn. exact Hn.
Defined.

Lemma createCardsFromComponents_characters comps data now :
  character <$> createCardsFromComponents comps data now = comps.
Proof. unfold createCardsFromComponents. by apply imap_characters. Qed.

Lemma createCardsFromComponents_NoDup comps data now :
  NoDup (id <$> createCardsFromComponents comps data now).
Proof.
  unfold createCardsFromComponents.
  rewrite fmap_imap. apply NoDup_imap_index. intros i j x y Heq.
  unfold compose in Heq. simpl in Heq.
  by apply dealt_id_inj in Heq as (_ & ? & _).
Qed.

Lemma decoys_fold data (selectedDecoys all0 words0 : list jsstring) :
  foldl (λ '(allComponents, decoyWords) decoy,
           let decoyComponents := getComponentsForWord decoy data in
           (allComponents ++ decoyComponents, decoyWords ++ [decoy]))
        (all0, words0) selectedDecoys
  = (all0 ++ (selectedDecoys ≫= (λ d, getComponentsForWord d data)),
     words0 ++ selectedDecoys).
Proof.
  revert all0 words0.
  induction selectedDecoys as [|d ds IH]; intros all0 words0; simpl.
  - by rewrite !app_nil_r.
  - rewrite IH. by rewrite <-!app_assoc.
Qed.

Lemma getComponentsWithDecoys_eq targetWord hskLevel data
    (shuffleDecoys shuffleComponents : Shuffle) :
  let decoys :=
    take 2 (shuffleDecoys
              (filter (λ w, isDecoyChar data targetWord w)
                      (default [] (hskWords data !! ofZ hskLevel)))) in
  getComponentsWithDecoys targetWord hskLevel data
    shuffleDecoys shuffleComponents
  = {| dealComponents :=
         shuffleComponents
           (filter (λ comp, comp ≠ targetWord)
              (getComponentsForWord targetWord data ++
               (decoys ≫= (λ d, getComponentsForWord d data))));
       decoyWords := decoys |}.
Proof.
  intros decoys. unfold getComponentsWithDecoys.
  rewrite decoys_fold. by rewrite !app_nil_l.
Qed.

Lemma getComponentsForWord_single w data :
  length w = 1 → getComponentsForWord w data = decomposeToLeaves w data [].
Proof.
  intros Hlen. unfold getComponentsForWord.
  rewrite (bool_decide_eq_true_2 _ Hlen). simpl.
  by rewrite orb_true_r.
Qed.

(** X16. The deal of [getComponentsWithDecoys], for shuffles that return
    their argument in some order: at most two decoy words, each a word of
    the level other than the target, of one code unit and with components,
    and used no more often than the level lists it; the components dealt are
    the components of the target and of the decoys, without any that equals
    the target word, in some order. *)
Theorem getComponentsWithDecoys_deal (targetWord : jsstring) (hskLevel : Z)
    (data : GameData) (shuffleDecoys shuffleComponents : Shuffle) :
  (∀ l, shuffleDecoys l ≡ₚ l) →
  (∀ l, shuffleComponents l ≡ₚ l) →
  let deal :=
    getComponentsWithDecoys targetWord hskLevel data
      shuffleDecoys shuffleComponents in
  let levelWords := default [] (hskWords data !! ofZ hskLevel) in
  length (decoyWords deal) ≤ 2 ∧
  Forall (λ d, d ≠ targetWord ∧ isValidWord data d = true) (decoyWords deal) ∧
  decoyWords deal ⊆+ levelWords ∧
  (targetWord ∉ dealComponents deal) ∧
  dealComponents deal ≡ₚ
    filter (λ comp, comp ≠ targetWord)
      (getComponentsForWord targetWord data ++
       (decoyWords deal ≫= (λ d, getComponentsForWord d data))).
Proof.
  intros Hsd Hsc deal levelWords. unfold deal.
  rewrite getComponentsWithDecoys_eq. simpl. fold levelWords.
  set (decoys := take 2 _).
  assert (decoys ⊆+ filter (λ w, isDecoyChar data targetWord w) levelWords)
    as Hsub.
  { unfold decoys. etrans; [apply sublist_submseteq, sublist_take|].
    apply Permutation_submseteq, Hsd. }
  split; [|split; [|split; [|split]]].
  - unfold decoys. rewrite length_take. lia.
  - apply Forall_forall. intros d Hd.
    eapply elem_of_submseteq in Hd; [|exact Hsub].
    apply list_elem_of_filter in Hd as [Hd _].
    apply isDecoyChar_spec. by destruct (isDecoyChar data targetWord d).
  - etrans; [exact Hsub|]. apply sublist_submseteq, sublist_filter.
  - rewrite Hsc. rewrite list_elem_of_filter. by intros [? _].
  - apply Hsc.
Qed.

Lemma getComponentsWithDecoys_deal_witness :
  let deal :=
    getComponentsWithDecoys ming 1 levelData (λ l, l) (λ l, reverse l) in
  let levelWords := default [] (hskWords levelData !! ofZ 1) in
  length (decoyWords deal) ≤ 2 ∧
  Forall (λ d, d ≠ ming ∧ isValidWord levelData d = true) (decoyWords deal) ∧
  decoyWords deal ⊆+ levelWords ∧
  (ming ∉ dealComponents deal) ∧
  dealComponents deal ≡ₚ
    filter (λ comp, comp ≠ ming)
      (getComponentsForWord ming levelData ++
       (decoyWords deal ≫= (λ d, getComponentsForWord d levelData))).
Proof.
  apply (getComponentsWithDecoys_deal ming 1 levelData
           (λ l, l) (λ l, reverse l)).
  - intros l. reflexivity.
  - intros l. apply reverse_Permutation.
Defined.

(** X17. A round that starts from a playable word on a graph without
    cycles.  When the target is one code unit long and has components, and
    so have the decoys drawn, every card dealt is a leaf card, the pool
    contains the leaves of the target with their multiplicities, so that the
    containment check for the target passes, and no card shows the target:
    the pool is not yet an accepted answer. *)
Theorem deal_is_playable (targetWord : jsstring) (hskLevel : Z)
    (data : GameData) (rank : jsstring → nat)
    (shuffleDecoys shuffleComponents : Shuffle) (now : nat → N) :
  ranked data rank →
  (∀ l, shuffleDecoys l ≡ₚ l) →
  (∀ l, shuffleComponents l ≡ₚ l) →
  isValidWord data targetWord = true →
  let deal :=
    getComponentsWithDecoys targetWord hskLevel data
      shuffleDecoys shuffleComponents in
  let cards := createCardsFromComponents (dealComponents deal) data now in
  Forall (λ c, isLeaf c = true ∧
               charToDecomposition data !! character c = None) cards ∧
  decomposeToLeaves targetWord data [] ⊆+ (character <$> cards) ∧
  hasEnoughComponents (character <$> cards)
    (decomposeToLeaves targetWord data []) data = true ∧
  checkAnswer cards targetWord = false.
Proof.
  intros Hranked Hsd Hsc Hvalid deal cards.
  pose proof (getComponentsWithDecoys_deal targetWord hskLevel data
                shuffleDecoys shuffleComponents Hsd Hsc)
    as (_ & Hdecoys & _ & Hnot & Hperm).
  fold deal in Hdecoys, Hnot, Hperm.
  apply isValidWord_spec in Hvalid as [Hlen (decomp & Hentry & _)].
  assert (∀ w x, x ∈ decomposeToLeaves w data [] →
                 charToDecomposition data !! x = None) as Hleaf.
  { intros w x. apply (decomposeToLeaves_ranked_leaf data rank Hranked
                         (S (rank w))). lia. }
  assert (Forall (λ x, charToDecomposition data !! x = None)
                 (dealComponents deal)) as Hleaves.
  { apply Forall_forall. intros x Hx. rewrite Hperm in Hx.
    apply list_elem_of_filter in Hx as [_ Hx].
    apply elem_of_app in Hx as [Hx|Hx].
    - rewrite getComponentsForWord_single in Hx by done. by eapply Hleaf.
    - apply list_elem_of_bind in Hx as (d & Hx & Hd).
      rewrite Forall_forall in Hdecoys.
      destruct (Hdecoys d Hd) as [_ [Hdlen _]%isValidWord_spec].
      rewrite getComponentsForWord_single in Hx by done. by eapply Hleaf. }
  assert (character <$> cards = dealComponents deal) as Hchars
    by apply createCardsFromComponents_characters.
  assert (decomposeToLeaves targetWord data [] ⊆+ dealComponents deal)
    as Hsub.
  { rewrite Hperm, filter_app.
    rewrite getComponentsForWord_single by done.
    rewrite (filter_all (λ comp, comp ≠ targetWord)
               (decomposeToLeaves targetWord data [])).
    - apply submseteq_inserts_r. done.
    - intros x Hx ->. apply Hleaf in Hx. congruence. }
  split; [|split; [|split]].
  - apply Forall_forall. intros c Hc.
    assert (charToDecomposition data !! character c = None) as Hnone.
    { rewrite Forall_forall in Hleaves. apply Hleaves.
      rewrite <-Hchars. apply list_elem_of_fmap. by exists c. }
    split; [|done].
    unfold cards, createCardsFromComponents in Hc.
    apply elem_of_lookup_imap_1 in Hc as (i & x & -> & _). simpl in *.
    by apply bool_decide_eq_true_2.
  - by rewrite Hchars.
  - rewrite Hchars. apply hasEnoughComponents_spec. intros leaf.
    rewrite (leavesOf_leaves data _ Hleaves).
    by apply count_submseteq.
  - apply not_true_is_false. unfold checkAnswer.
    rewrite matchTargetChars_spec, Hchars. intros Hin.
    destruct targetWord as [|u [|??]]; try done. simpl in Hin.
    apply Hnot. eapply elem_of_submseteq; [|exact Hin]. by left.
Qed.

Lemma deal_is_playable_witness :
  let deal :=
    getComponentsWithDecoys ming 1 levelData (λ l, l) (λ l, reverse l) in
  let cards :=
    createCardsFromComponents (dealComponents deal) levelData (λ _, 1700%N) in
  Forall (λ c, isLeaf c = true ∧
               charToDecomposition levelData !! character c = None) cards ∧
  decomposeToLeaves ming levelData [] ⊆+ (character <$> cards) ∧
  hasEnoughComponents (character <$> cards)
    (decomposeToLeaves ming levelData []) levelData = true ∧
  checkAnswer cards ming = false.
Proof.
  apply (deal_is_playable ming 1 levelData hanziRank
           (λ l, l) (λ l, reverse l) (λ _, 1700%N)).
  - by apply (bool_decide_unpack _); vm_compute.
  - intros l. reflexivity.
  - intros l. apply reverse_Permutation.
  - reflexivity.
Defined.

(** ** Hints of a state *)

Lemma imap_mark {A} (g : A → A) (l : list A) (i : nat) (x : A) :
  l !! i = Some x →
  imap (λ j h, if bool_decide (j = i) then g h else h) l = <[i := g x]> l.
Proof.
  intros Hi. apply list_eq. intros j. rewrite list_lookup_imap.
  destruct (decide (j = i)) as [->|Hne].
  - rewrite Hi. simpl. rewrite bool_decide_eq_true_2 by done.
    rewrite list_lookup_insert_eq; [done|]. by eapply lookup_lt_Some.
  - rewrite list_lookup_insert_ne by done.
    destruct (l !! j); simpl; [|done].
    by rewrite bool_decide_eq_false_2.
Qed.

(** X18. [useHint].  When every hint is used the state comes back unchanged
    and no hint is returned.  Otherwise the hint returned is the first
    unused one, as it was before the call (not marked); in the new state
    that position, and no other, is marked used, so one unused hint fewer is
    left, both hint counters are one higher, and nothing else changes: the
    pool, the selection and the attempts are untouched. *)
Theorem useHint_spec (state : GameState) :
  match useHint state with
  | (state', None) =>
      state' = state ∧ Forall (λ h, used h = true) (hints state)
  | (state', Some hint) =>
      ∃ i, hints state !! i = Some hint ∧ used hint = false ∧
           (∀ j h, hints state !! j = Some h → j < i → used h = true) ∧
           hints state' =
             <[i := {| cardIds := cardIds hint; used := true;
                       isAnswer := isAnswer hint |}]> (hints state) ∧
           length (filter (λ h, used h = false) (hints state')) + 1
             = length (filter (λ h, used h = false) (hints state)) ∧
           hintsUsed state' = (hintsUsed state + 1)%Z ∧
           totalHintsUsed state' = (totalHintsUsed state + 1)%Z ∧
           availableCards state' = availableCards state ∧
           selectedCards state' = selectedCards state ∧
           attemptsLeft state' = attemptsLeft state ∧
           targetWord state' = targetWord state
  end.
Proof.
  unfold useHint.
  destruct (list_find (λ h, used h = false) (hints state))
    as [[i hint]|] eqn:Hfind.
  - apply list_find_Some in Hfind as (Hi & Hunused & Hfirst).
    exists i. simpl. rewrite (imap_mark _ _ _ _ Hi).
    split; [done|]. split; [done|]. split.
    { intros j h Hj Hlt. specialize (Hfirst j h Hj Hlt).
      by destruct (used h). }
    split; [done|]. split; [|done].
    rewrite insert_take_drop by by eapply lookup_lt_Some.
    rewrite <-(take_drop_middle _ _ _ Hi) at 3.
    rewrite !filter_app, !length_app.
    rewrite filter_cons_False by (simpl; done).
    rewrite (filter_cons_True _ hint) by done. simpl. lia.
  - apply list_find_None in Hfind. split; [done|].
    eapply Forall_impl; [exact Hfind|]. intros h Hh. simpl in Hh.
    by destruct (used h).
Qed.

(** ** Starting a round *)

Lemma generateHints_fuel_shape data fuel targetWord cards hints :
  generateHints_fuel fuel targetWord cards data = Some hints →
  length hints ≤ 3 ∧ Forall (λ h, used h = false) hints.
Proof.
  unfold generateHints_fuel. rewrite buildCharToCardIds_lookup.
  destruct (filter _ cards) as [|answer rest].
  - destruct (findValidNextSteps_fuel fuel targetWord cards data)
      as [steps|]; [|done].
    simpl. intros [= <-].
    destruct (takeHints_spec (sortBy (targetFirst targetWord) steps))
      as [Hlen Hall].
    split; [done|]. apply Forall_forall. intros h Hh.
    by destruct (Hall h Hh) as (_ & ? & _).
  - simpl. intros [= <-]. split; [simpl; lia|]. by apply Forall_singleton.
Qed.

Lemma generateHints_fuel_returns data rank fuel targetWord cards :
  ranked data rank → rank targetWord < fuel →
  is_Some (generateHints_fuel fuel targetWord cards data).
Proof.
  intros Hranked Hfuel. unfold generateHints_fuel.
  destruct (findValidNextSteps_returns data rank Hranked fuel targetWord cards
              Hfuel) as [steps Hsteps].
  rewrite Hsteps. simpl.
  by destruct (buildCharToCardIds cards !! targetWord) as [[|??]|].
Qed.

Lemma dealt_cards_fresh targetWord hskLevel data
    (shuffleDecoys shuffleComponents : Shuffle) now :
  (∀ l, shuffleComponents l ≡ₚ l) →
  let cards :=
    createCardsFromComponents
      (dealComponents (getComponentsWithDecoys targetWord hskLevel data
                         shuffleDecoys shuffleComponents)) data now in
  NoDup (id <$> cards) ∧ Forall (λ c, character c ≠ targetWord) cards.
Proof.
  intros Hsc cards. split; [apply createCardsFromComponents_NoDup|].
  apply Forall_forall. intros c Hc Heq.
  apply (list_elem_of_fmap_2 character) in Hc.
  unfold cards in Hc. rewrite createCardsFromComponents_characters in Hc.
  rewrite getComponentsWithDecoys_eq in Hc. simpl in Hc.
  rewrite Hsc in Hc. apply list_elem_of_filter in Hc as [Hne _]. done.
Qed.

Lemma selectRandomWord_member hskLevel data (pick : Picker) w :
  (∀ n, 0 < n → pick n < n) →
  selectRandomWord hskLevel data pick = Normal w →
  w ∈ default [] (hskWords data !! ofZ hskLevel).
Proof.
  intros Hpick. unfold selectRandomWord.
  destruct (hskWords data !! ofZ hskLevel) as [ws|]; [|done]. simpl.
  case_bool_decide as Hlen; [done|]. intros [= <-].
  case_bool_decide as Hvalid.
  - eapply (proj1 (list_elem_of_filter _ _ _)).
    apply list_elem_of_lookup_total_2, Hpick, Hvalid.
  - apply list_elem_of_lookup_total_2, Hpick. lia.
Qed.

Lemma selectRandomWord_throws hskLevel data (pick : Picker) :
  default [] (hskWords data !! ofZ hskLevel) = [] ↔
  ∃ message, selectRandomWord hskLevel data pick = Throw message.
Proof.
  unfold selectRandomWord.
  destruct (hskWords data !! ofZ hskLevel) as [ws|]; simpl.
  - case_bool_decide as Hlen.
    + apply length_zero_iff_nil in Hlen as ->. split; [by eexists|done].
    + split; [by intros ->|by intros [? ?]].
  - split; [by eexists|done].
Qed.

(** X19. [initializeGameState], for a random index inside the list it is
    drawn from and a shuffle of the components that returns them in some
    order.  It throws when level 1 has no words, before anything else
    happens.  Every state it returns is the start of a round: the target is
    a word of level 1, the counters are at their initial values, the cards
    have distinct ids, no card shows the target, at most three hints and
    none used.  On a graph without cycles, with level-1 words, it returns a
    state. *)
Theorem initializeGameState_fresh (data : GameData) (pick : Picker)
    (shuffleDecoys shuffleComponents : Shuffle) (now : nat → N) :
  (∀ n, 0 < n → pick n < n) →
  (∀ l, shuffleComponents l ≡ₚ l) →
  let run fuel :=
    initializeGameState_fuel fuel data pick shuffleDecoys shuffleComponents
      now in
  let words := default [] (hskWords data !! ofZ 1) in
  (words = [] ↔ ∃ message, ∀ fuel, run fuel = Some (Throw message)) ∧
  (∀ fuel state, run fuel = Some (Normal state) →
     freshRound data state ∧
     currentLevel state = 1%Z ∧ currentRound state = 1%Z ∧
     totalRoundsCompleted state = 0%Z ∧ totalHintsUsed state = 0%Z) ∧
  (∀ rank fuel, ranked data rank → (∀ w, rank w < fuel) → words ≠ [] →
     ∃ state, run fuel = Some (Normal state)).
Proof.
  intros Hpick Hsc run words. unfold run, initializeGameState_fuel.
  pose proof (selectRandomWord_throws 1 data pick) as Hthrow.
  pose proof (selectRandomWord_member 1 data pick) as Hmember.
  destruct (selectRandomWord 1 data pick) as [targetWord|message].
  - specialize (Hmember targetWord Hpick eq_refl).
    split; [|split].
    + split.
      * intros Hnil. apply Hthrow in Hnil as [? ?]. done.
      * intros [message Hall]. specialize (Hall 0).
        by destruct (generateHints_fuel _ _ _ _).
    + intros fuel state Hrun.
      destruct (generateHints_fuel fuel targetWord _ data)
        as [hints|] eqn:Hhints; [|done].
      simpl in Hrun. injection Hrun as <-.
      apply generateHints_fuel_shape in Hhints as [Hlen Hunused].
      destruct (dealt_cards_fresh targetWord 1 data shuffleDecoys
                  shuffleComponents now Hsc) as [Hnodup Hfresh].
      unfold freshRound. simpl. split_and!; try done; try lia.
    + intros rank fuel Hranked Hfuel Hwords.
      destruct (generateHints_fuel_returns data rank fuel targetWord
                  (createCardsFromComponents
                     (dealComponents
                        (getComponentsWithDecoys targetWord 1 data
                           shuffleDecoys shuffleComponents)) data now)
                  Hranked (Hfuel targetWord)) as [hints Hhints].
      rewrite Hhints. simpl. by eexists.
  - split; [|split].
    + split; [by exists message|]. intros _. apply Hthrow. by eexists.
    + done.
    + intros rank fuel _ _ Hwords. exfalso. apply Hwords, Hthrow. by eexists.
Qed.

Lemma initializeGameState_fresh_witness :
  let run fuel :=
    initializeGameState_fuel fuel levelData (λ _, 0) (λ l, l)
      (λ l, reverse l) (λ _, 1700%N) in
  let words := default [] (hskWords levelData !! ofZ 1) in
  (words = [] ↔ ∃ message, ∀ fuel, run fuel = Some (Throw message)) ∧
  (∀ fuel state, run fuel = Some (Normal state) →
     freshRound levelData state ∧
     currentLevel state = 1%Z ∧ currentRound state = 1%Z ∧
     totalRoundsCompleted state = 0%Z ∧ totalHintsUsed state = 0%Z) ∧
  (∀ rank fuel, ranked levelData rank → (∀ w, rank w < fuel) → words ≠ [] →
     ∃ state, run fuel = Some (Normal state)).
Proof.
  apply (initializeGameState_fresh levelData (λ _, 0) (λ l, l)
           (λ l, reverse l) (λ _, 1700%N)).
  - intros n Hn. exact Hn.
  - intros l. apply reverse_Permutation.
Defined.

(** X20. [nextRound], from a state with a positive [roundsPerLevel] and a
    count of completed rounds that is not negative.  It does not look at
    [won] or [gameOver].  It throws when the level of the next round has no
    words.  Every state it returns is the start of a round with one more
    round completed; the level does not go down; [roundsPerLevel],
    [maxAttempts] and the total of hints used are carried over.  On a graph
    without cycles, when the level has words, it returns a state. *)
Theorem nextRound_fresh (state : GameState) (data : GameData) (pick : Picker)
    (shuffleDecoys shuffleComponents : Shuffle) (now : nat → N) :
  (0 < roundsPerLevel state)%Z →
  (0 ≤ totalRoundsCompleted state)%Z →
  (∀ n, 0 < n → pick n < n) →
  (∀ l, shuffleComponents l ≡ₚ l) →
  let run fuel :=
    nextRound_fuel fuel state data pick shuffleDecoys shuffleComponents now in
  let newLevel :=
    getHSKLevel (totalRoundsCompleted state + 1) (roundsPerLevel state) in
  let words := default [] (hskWords data !! ofZ newLevel) in
  (words = [] ↔ ∃ message, ∀ fuel, run fuel = Some (Throw message)) ∧
  (∀ fuel state', run fuel = Some (Normal state') →
     freshRound data state' ∧
     totalRoundsCompleted state' = (totalRoundsCompleted state + 1)%Z ∧
     (getHSKLevel (totalRoundsCompleted state) (roundsPerLevel state)
      ≤ currentLevel state')%Z ∧
     roundsPerLevel state' = roundsPerLevel state ∧
     maxAttempts state' = maxAttempts state ∧
     totalHintsUsed state' = totalHintsUsed state) ∧
  (∀ rank fuel, ranked data rank → (∀ w, rank w < fuel) → words ≠ [] →
     ∃ state', run fuel = Some (Normal state')).
Proof.
  intros Hrpl Htotal Hpick Hsc run newLevel words.
  unfold run, nextRound_fuel. fold newLevel.
  pose proof (selectRandomWord_throws newLevel data pick) as Hthrow.
  pose proof (selectRandomWord_member newLevel data pick) as Hmember.
  destruct (selectRandomWord newLevel data pick) as [targetWord|message].
  - specialize (Hmember targetWord Hpick eq_refl).
    split; [|split].
    + split.
      * intros Hnil. apply Hthrow in Hnil as [? ?]. done.
      * intros [message Hall]. specialize (Hall 0).
        by destruct (generateHints_fuel _ _ _ _).
    + intros fuel state' Hrun.
      destruct (generateHints_fuel fuel targetWord _ data)
        as [hints|] eqn:Hhints; [|done].
      simpl in Hrun. injection Hrun as <-.
      apply generateHints_fuel_shape in Hhints as [Hlen Hunused].
      destruct (dealt_cards_fresh targetWord newLevel data shuffleDecoys
                  shuffleComponents now Hsc) as [Hnodup Hfresh].
      set (total' := (totalRoundsCompleted state + 1)%Z) in *.
      assert (0 ≤ total')%Z as Htotal' by (unfold total'; lia).
      pose proof (Z.mod_pos_bound total' (roundsPerLevel state) Hrpl) as Hm.
      pose proof (Z.div_pos total' (roundsPerLevel state) Htotal' Hrpl) as Hq.
      assert (getHSKLevel (totalRoundsCompleted state) (roundsPerLevel state)
              ≤ newLevel)%Z as Hlevel.
      { unfold newLevel, getHSKLevel. fold total'.
        pose proof (Z.div_le_mono (totalRoundsCompleted state) total'
                      (roundsPerLevel state) Hrpl
                      ltac:(unfold total'; lia)) as Hmono.
        lia. }
      unfold freshRound. simpl.
      rewrite Z.rem_mod_nonneg by lia.
      split_and!; try done; try (unfold newLevel, getHSKLevel; lia); try lia.
    + intros rank fuel Hranked Hfuel Hwords.
      destruct (generateHints_fuel_returns data rank fuel targetWord
                  (createCardsFromComponents
                     (dealComponents
                        (getComponentsWithDecoys targetWord newLevel data
                           shuffleDecoys shuffleComponents)) data now)
                  Hranked (Hfuel targetWord)) as [hints Hhints].
      rewrite Hhints. simpl. by eexists.
  - split; [|split].
    + split; [by exists message|]. intros _. apply Hthrow. by eexists.
    + done.
    + intros rank fuel _ _ Hwords. exfalso. apply Hwords, Hthrow. by eexists.
Qed.

Lemma nextRound_fresh_witness :
  let state := gameState storedGame in
  let run fuel :=
    nextRound_fuel fuel state levelData (λ _, 0) (λ l, l) (λ l, reverse l)
      (λ _, 1700%N) in
  let newLevel :=
    getHSKLevel (totalRoundsCompleted state + 1) (roundsPerLevel state) in
  let words := default [] (hskWords levelData !! ofZ newLevel) in
  (words = [] ↔ ∃ message, ∀ fuel, run fuel = Some (Throw message)) ∧
  (∀ fuel state', run fuel = Some (Normal state') →
     freshRound levelData state' ∧
     totalRoundsCompleted state' = (totalRoundsCompleted state + 1)%Z ∧
     (getHSKLevel (totalRoundsCompleted state) (roundsPerLevel state)
      ≤ currentLevel state')%Z ∧
     roundsPerLevel state' = roundsPerLevel state ∧
     maxAttempts state' = maxAttempts state ∧
     totalHintsUsed state' = totalHintsUsed state) ∧
  (∀ rank fuel, ranked levelData rank → (∀ w, rank w < fuel) → words ≠ [] →
     ∃ state', run fuel = Some (Normal state')).
Proof.
  apply (nextRound_fresh (gameState storedGame) levelData (λ _, 0) (λ l, l)
           (λ l, reverse l) (λ _, 1700%N)).
  - reflexivity.
  - by vm_compute.
  - intros n Hn. exact Hn.
  - intros l. apply reverse_Permutation.
Defined.

(** ** The commands of the wrapper *)





(** X22. [cmdDecompose], given the index as [parseInt] returned it.  An
    integer outside the pool gives "Invalid card index"; a card whose leaf
    flag is set gives "Cannot decompose leaf component".  The command ends
    in an exception for an index that is not a number, and for a card
    flagged as composite whose symbol has no entry and is a name that
    objects inherit (the card [combine] makes for the target
    [constructor]): [decomposeCard] throws.  In each of these cases nothing
    is written.  Otherwise the game is saved with the pool [decomposeCard]
    returns and an empty selection; for a card flagged as composite whose
    symbol has no entry and is no inherited name, that pool is the old
    one. *)
Theorem cmdDecompose_spec (gameId' : jsstring) (cardIndex : ParsedIndex)
    (data : GameData) (now : nat → N) (isoNow : jsstring)
    (games : gmap jsstring PersistedGameState) (st : PersistedGameState) :
  games !! gameId' = Some st →
  let pool := availableCards (gameState st) in
  let outcome := (cmdDecompose gameId' cardIndex data now isoNow games).1 in
  let games' := (cmdDecompose gameId' cardIndex data now isoNow games).2 in
  (outcome = CliInvalidIndex ↔ outOfRange pool cardIndex) ∧
  (outcome = CliCannotDecomposeLeaf ↔
     ∃ card, cardAt pool cardIndex = Some card ∧
             ¬ outOfRange pool cardIndex ∧ isLeaf card = true) ∧
  (outcome = CliThrown ↔
     cardIndex = IndexNaN ∨
     ∃ card, cardAt pool cardIndex = Some card ∧
             ¬ outOfRange pool cardIndex ∧ isLeaf card = false ∧
             charToDecomposition data !! character card = None ∧
             character card ∈ objectPrototypeNames) ∧
  (outcome ≠ CliSaved → games' = games) ∧
  (outcome = CliSaved →
     ∃ card cards,
       cardAt pool cardIndex = Some card ∧ isLeaf card = false ∧
       decomposeCard card pool data now = Normal cards ∧
       games' =
         <[gameId st :=
             {| gameState := withSelection (gameState st) cards [] [];
                gameId := gameId st;
                createdAt := createdAt st;
                lastModified := isoNow |}]> games ∧
       (readsNoEntry data (character card) = true → cards = pool)).
Proof.
  intros Hst pool outcome games'. unfold outcome, games', cmdDecompose.
  rewrite Hst. fold pool.
  destruct cardIndex as [|idx]; simpl.
  { split_and!; try done.
    - split; [done|]. by intros (card & ? & _).
    - split; [by left|done]. }
  destruct (idx <? 0)%Z eqn:Hneg; simpl.
  { apply Z.ltb_lt in Hneg. split_and!; try done.
    - split; [intros _; lia|done].
    - split; [done|]. intros (card & _ & Hin & _). exfalso. apply Hin. lia.
    - split; [done|]. intros [?|(card & _ & Hin & _)]; [done|].
      exfalso. apply Hin. lia. }
  apply Z.ltb_ge in Hneg.
  destruct (Z.of_nat (length pool) <=? idx)%Z eqn:Hbig; simpl.
  { apply Z.leb_le in Hbig. split_and!; try done.
    - split; [intros _; lia|done].
    - split; [done|]. intros (card & _ & Hin & _). exfalso. apply Hin. lia.
    - split; [done|]. intros [?|(card & _ & Hin & _)]; [done|].
      exfalso. apply Hin. lia. }
  apply Z.leb_gt in Hbig.
  assert (pool !! Z.to_nat idx = Some (pool !!! Z.to_nat idx)) as Hcard.
  { apply list_lookup_lookup_total_lt. lia. }
  set (card := pool !!! Z.to_nat idx) in *.
  destruct (isLeaf card) eqn:Hleaf; simpl.
  { split_and!; try done.
    - split; [done|lia].
    - split; [|done]. intros _. exists card. split; [done|]. split; [lia|done].
    - split; [done|]. intros [?|(c & Hc & _ & Hl & _)]; [done|]. congruence. }
  unfold decomposeCard, readProperty, readsNoEntry, readProperty.
  destruct (charToDecomposition data !! character card) as [decomp|] eqn:Hentry;
    simpl.
  - split_and!; try done.
    + split; [done|lia].
    + split; [done|]. intros (c & Hc & _ & Hl). congruence.
    + split; [done|].
      intros [?|(c & Hc & _ & _ & Hnone & _)]; [done|]. congruence.
    + intros _. exists card. eexists. rewrite Hentry. done.
  - case_bool_decide as Hname; simpl.
    + split_and!; try done.
      * split; [done|lia].
      * split; [done|]. intros (c & Hc & _ & Hl). congruence.
      * split; [|done]. intros _. right. exists card.
        split; [done|]. split; [lia|done].
    + split_and!; try done.
      * split; [done|lia].
      * split; [done|]. intros (c & Hc & _ & Hl). congruence.
      * split; [done|].
        intros [?|(c & Hc & _ & _ & _ & Hin)]; [done|].
        exfalso. apply Hname. assert (c = card) as -> by congruence. done.
      * intros _. exists card. eexists.
        rewrite Hentry, (bool_decide_eq_false_2 _ Hname). done.
Qed.

Lemma cmdDecompose_spec_witness :
  let games : gmap jsstring PersistedGameState :=
    {[ lit "test1" := compositeGame ]} in
  let pool := availableCards (gameState compositeGame) in
  let outcome :=
    (cmdDecompose (lit "test1") (Index 1) hanziData (λ _, 1700%N)
       (lit "later") games).1 in
  let games' :=
    (cmdDecompose (lit "test1") (Index 1) hanziData (λ _, 1700%N)
       (lit "later") games).2 in
  (outcome = CliInvalidIndex ↔ outOfRange pool (Index 1)) ∧
  (outcome = CliCannotDecomposeLeaf ↔
     ∃ card, cardAt pool (Index 1) = Some card ∧
             ¬ outOfRange pool (Index 1) ∧ isLeaf card = true) ∧
  (outcome = CliThrown ↔
     Index 1 = IndexNaN ∨
     ∃ card, cardAt pool (Index 1) = Some card ∧
             ¬ outOfRange pool (Index 1) ∧ isLeaf card = false ∧
             charToDecomposition hanziData !! character card = None ∧
             character card ∈ objectPrototypeNames) ∧
  (outcome ≠ CliSaved → games' = games) ∧
  (outcome = CliSaved →
     ∃ card cards,
       cardAt pool (Index 1) = Some card ∧ isLeaf card = false ∧
       decomposeCard card pool hanziData (λ _, 1700%N) = Normal cards ∧
       games' =
         <[gameId compositeGame :=
             {| gameState :=
                  withSelection (gameState compositeGame) cards [] [];
                gameId := gameId compositeGame;
                createdAt := createdAt compositeGame;
                lastModified := lit "later" |}]> games ∧
       (readsNoEntry hanziData (character card) = true → cards = pool)).
Proof.
  apply (cmdDecompose_spec (lit "test1") (Index 1) hanziData (λ _, 1700%N)
           (lit "later") {[ lit "test1" := compositeGame ]} compositeGame).
  apply lookup_singleton_eq.
Defined.

(** The decomposition of [compositeGame] at index 1 is saved; and a card
    that [combine] makes for the target [constructor] is flagged as
    composite, so that [decompose] passes its guard and ends in the
    exception of [decomposeCard]. *)
Example scenario_decompose_commands :
  (cmdDecompose (lit "test1") (Index 1) hanziData (λ _, 1700%N)
     (lit "later") {[ lit "test1" := compositeGame ]}).1 = CliSaved ∧
  let combined :=
    cmdCombine (lit "test1") (lit "constructor") hanziData 1700%N
      (lit "later") {[ lit "test1" := selectedGame ]} in
  combined.1 = Saved ∧
  (λ st, face <$> availableCards (gameState st)) <$> combined.2 !! lit "test1"
    = Some [(xi, true); (lit "constructor", false)] ∧
  cmdDecompose (lit "test1") (Index 1) hanziData (λ _, 1700%N)
    (lit "later") combined.2 = (CliThrown, combined.2).
Proof. vm_compute. split_and!; reflexivity. Qed.

(** X23. Wrong answers at the command line.  On a game stored under its own
    id whose pool [checkAnswer] rejects, [cmdSubmit] run [n] times in a row
    always saves: the attempts left go down by [n], below zero when [n] is
    large enough, since the command does not look at [gameOver] before it
    judges; the game is over when it was before or when the attempts have
    reached zero; pool and target stay as they were, and the hint search is
    never entered (any fuel will do). *)
Theorem cmdSubmit_wrong_answers (n fuel : nat) (gameId' : jsstring)
    (data : GameData) (pick : Picker)
    (shuffleDecoys shuffleComponents : Shuffle) (now : nat → N)
    (isoNow : jsstring) (games : gmap jsstring PersistedGameState)
    (st : PersistedGameState) :
  games !! gameId' = Some st →
  gameId st = gameId' →
  checkAnswer (availableCards (gameState st)) (targetWord (gameState st))
    = false →
  ∃ games' st',
    submitTimes n fuel gameId' data pick shuffleDecoys shuffleComponents
      now isoNow games = Some games' ∧
    games' !! gameId' = Some st' ∧
    attemptsLeft (gameState st')
      = (attemptsLeft (gameState st) - Z.of_nat n)%Z ∧
    gameOver (gameState st')
      = gameOver (gameState st)
        || (bool_decide (0 < n)
            && (attemptsLeft (gameState st) - Z.of_nat n <=? 0)%Z) ∧
    availableCards (gameState st') = availableCards (gameState st) ∧
    targetWord (gameState st') = targetWord (gameState st) ∧
    (∀ k, k ≠ gameId' → games' !! k = games !! k).
Proof.
  revert games st. induction n as [|n IH]; intros games st Hst Hid Hwrong.
  - exists games, st. simpl. rewrite orb_false_r, Z.sub_0_r. done.
  - simpl. unfold cmdSubmit_fuel at 1. rewrite Hst, Hwrong. simpl.
    set (st1 := withGameState st (afterWrongAnswer (gameState st))).
    destruct (IH (saveGame st1 isoNow games)
                {| gameState := gameState st1; gameId := gameId st1;
                   createdAt := createdAt st1; lastModified := isoNow |})
      as (games' & st' & Hrun & Hst' & Hatt & Hover & Hpool & Htarget & Hrest).
    { unfold saveGame. simpl. rewrite Hid. apply lookup_insert_eq. }
    { done. }
    { done. }
    exists games', st'. split; [done|]. split; [done|].
    rewrite Hatt, Hover, Hpool, Htarget. cbn [gameState afterWrongAnswer st1
      withGameState attemptsLeft gameOver availableCards targetWord].
    split; [lia|]. split.
    + destruct (gameOver (gameState st));
        [by destruct (attemptsLeft (gameState st) - 1 <=? 0)%Z|].
      destruct (Z.leb_spec (attemptsLeft (gameState st) - 1) 0);
        destruct (Z.leb_spec (attemptsLeft (gameState st) - 1 - Z.of_nat n) 0);
        destruct (Z.leb_spec (attemptsLeft (gameState st) - Z.of_nat (S n)) 0);
        case_bool_decide; simpl; try done; lia.
    + split; [done|]. split; [done|]. intros k Hk.
      rewrite Hrest by done. unfold saveGame. simpl. rewrite Hid.
      by rewrite lookup_insert_ne.
Qed.

Lemma cmdSubmit_wrong_answers_witness :
  ∃ games' st',
    submitTimes 5 0 (lit "test1") hanziData (λ _, 0) (λ l, l) (λ l, l)
      (λ _, 1700%N) (lit "later") {[ lit "test1" := storedGame ]}
      = Some games' ∧
    games' !! lit "test1" = Some st' ∧
    attemptsLeft (gameState st')
      = (attemptsLeft (gameState storedGame) - Z.of_nat 5)%Z ∧
    gameOver (gameState st')
      = gameOver (gameState storedGame)
        || (bool_decide (0 < 5)
            && (attemptsLeft (gameState storedGame) - Z.of_nat 5 <=? 0)%Z) ∧
    availableCards (gameState st') = availableCards (gameState storedGame) ∧
    targetWord (gameState st') = targetWord (gameState storedGame) ∧
    (∀ k, k ≠ lit "test1" →
       games' !! k
       = ({[ lit "test1" := storedGame ]}
            : gmap jsstring PersistedGameState) !! k).
Proof.
  apply (cmdSubmit_wrong_answers 5 0 (lit "test1") hanziData (λ _, 0)
           (λ l, l) (λ l, l) (λ _, 1700%N) (lit "later")
           {[ lit "test1" := storedGame ]} storedGame).
  - apply lookup_singleton_eq.
  - reflexivity.
  - reflexivity.
Defined.

(** X24. [cmdNew] and [cmdReset].  For a random index inside the list it is
    drawn from, the command ends in an exception exactly when level 1 has no
    words, and then writes nothing.  Otherwise it stores, under the id
    given and in place of whatever was stored there, a game whose target is
    a word of level 1 and whose pool is one card per component of the
    target, in the order of [getComponentsForWord] and without decoys, the
    cards having distinct ids; no other stored game changes. *)
Theorem cmdReset_spec (gameId' : jsstring) (data : GameData) (pick : Picker)
    (now : nat → N) (isoNow : jsstring)
    (games : gmap jsstring PersistedGameState) :
  (∀ n, 0 < n → pick n < n) →
  let words := default [] (hskWords data !! ofZ 1) in
  let outcome := (cmdReset gameId' data pick now isoNow games).1 in
  let games' := (cmdReset gameId' data pick now isoNow games).2 in
  (outcome = CliThrown ↔ words = []) ∧
  (outcome = CliThrown → games' = games) ∧
  (outcome ≠ CliThrown →
     outcome = CliSaved ∧
     ∃ st', games' = <[gameId' := st']> games ∧
       gameId st' = gameId' ∧
       createdAt st' = isoNow ∧ lastModified st' = isoNow ∧
       targetWord (gameState st') ∈ words ∧
       character <$> availableCards (gameState st')
         = getComponentsForWord (targetWord (gameState st')) data ∧
       NoDup (id <$> availableCards (gameState st')) ∧
       selectedCards (gameState st') = [] ∧
       attemptsLeft (gameState st') = 3%Z ∧
       gameOver (gameState st') = false ∧ won (gameState st') = false).
Proof.
  intros Hpick words outcome games'.
  unfold outcome, games', cmdReset, cliInitializeGameState.
  pose proof (selectRandomWord_throws 1 data pick) as Hthrow.
  pose proof (selectRandomWord_member 1 data pick) as Hmember.
  destruct (selectRandomWord 1 data pick) as [targetWord|message]; simpl.
  - specialize (Hmember targetWord Hpick eq_refl).
    split; [|split; [done|]].
    + split; [done|]. intros Hnil. apply Hthrow in Hnil as [? ?]. done.
    + intros _. split; [done|]. eexists. split; [reflexivity|]. simpl.
      split_and!; try done.
      * apply createCardsFromComponents_characters.
      * apply createCardsFromComponents_NoDup.
  - split; [|split; [done|done]].
    split; [|done]. intros _. apply Hthrow. by eexists.
Qed.

Lemma cmdReset_spec_witness :
  let games : gmap jsstring PersistedGameState :=
    {[ lit "test1" := storedGame ]} in
  let words := default [] (hskWords levelData !! ofZ 1) in
  let outcome :=
    (cmdReset (lit "test1") levelData (λ _, 0) (λ _, 1700%N) (lit "later")
       games).1 in
  let games' :=
    (cmdReset (lit "test1") levelData (λ _, 0) (λ _, 1700%N) (lit "later")
       games).2 in
  (outcome = CliThrown ↔ words = []) ∧
  (outcome = CliThrown → games' = games) ∧
  (outcome ≠ CliThrown →
     outcome = CliSaved ∧
     ∃ st', games' = <[lit "test1" := st']> games ∧
       gameId st' = lit "test1" ∧
       createdAt st' = lit "later" ∧ lastModified st' = lit "later" ∧
       targetWord (gameState st') ∈ words ∧
       character <$> availableCards (gameState st')
         = getComponentsForWord (targetWord (gameState st')) levelData ∧
       NoDup (id <$> availableCards (gameState st')) ∧
       selectedCards (gameState st') = [] ∧
       attemptsLeft (gameState st') = 3%Z ∧
       gameOver (gameState st') = false ∧ won (gameState st') = false).
Proof.
  apply (cmdReset_spec (lit "test1") levelData (λ _, 0) (λ _, 1700%N)
           (lit "later") {[ lit "test1" := storedGame ]}).
  intros n Hn. exact Hn.
Defined.

(** ** The handlers of the page *)

Lemma Exists_id (card : Card) (sel : list Card) :
  Exists (λ c, id c = id card) sel ↔ id card ∈ id <$> sel.
Proof.
  rewrite Exists_exists, list_elem_of_fmap. split.
  - intros (c & Hc & Hid). by exists c.
  - intros (c & Hid & Hc). by exists c.
Qed.

(** X25. [toggleCardSelection] on a selection without two cards of the same
    id.  The new selection has none either; the id of the card clicked is in
    it exactly when it was not before; the cards with another id are
    selected as before; the candidates are those of
    [findPossibleCombinations] for the new selection; the pool is not
    touched (nor is it consulted: the card need not be in it).  Clicking an
    unselected card twice gives the selection back. *)
Theorem toggleCardSelection_spec (card : Card) (data : GameData)
    (page : Page) :
  NoDup (id <$> selectedCards (pageGame page)) →
  let page' := toggleCardSelection card data page in
  let sel := selectedCards (pageGame page) in
  let sel' := selectedCards (pageGame page') in
  NoDup (id <$> sel') ∧
  (id card ∈ id <$> sel' ↔ id card ∉ id <$> sel) ∧
  (∀ c, id c ≠ id card → (c ∈ sel' ↔ c ∈ sel)) ∧
  possibleCombinations (pageGame page') = findPossibleCombinations sel' data ∧
  availableCards (pageGame page') = availableCards (pageGame page) ∧
  (id card ∉ id <$> sel →
   selectedCards (pageGame (toggleCardSelection card data page')) = sel).
Proof.
  intros Hnodup page' sel sel'.
  unfold sel', page', toggleCardSelection. simpl. fold sel.
  destruct (decide (id card ∈ id <$> sel)) as [Hin|Hout].
  - rewrite (bool_decide_eq_true_2 _ (proj2 (Exists_id card sel) Hin)).
    split_and!; try done.
    + eapply sublist_NoDup; [done|apply fmap_sublist, sublist_filter].
    + split; [|done]. intros Hin'. exfalso.
      apply list_elem_of_fmap in Hin' as (c & Hid & Hc).
      by apply list_elem_of_filter in Hc as [Hne _].
    + intros c Hne. rewrite list_elem_of_filter. tauto.
  - rewrite (bool_decide_eq_false_2 (Exists _ sel))
      by (by rewrite Exists_id).
    split_and!; try done.
    + rewrite fmap_app. apply NoDup_app. split; [done|]. split.
      * intros x Hx ->%list_elem_of_singleton. done.
      * apply NoDup_singleton.
    + split; [done|]. intros _. rewrite fmap_app, elem_of_app. right.
      by apply list_elem_of_singleton.
    + intros c Hne. rewrite elem_of_app, list_elem_of_singleton.
      split; [|tauto]. intros [?| ->]; done.
    + intros _.
      rewrite (bool_decide_eq_true_2 (Exists _ (sel ++ [card]))).
      2:{ apply Exists_app. right. by left. }
      rewrite filter_app, filter_cons_False, filter_nil, app_nil_r by tauto.
      apply filter_all. intros c Hc Heq. apply Hout.
      rewrite <-Heq. apply list_elem_of_fmap. by exists c.
Qed.

Lemma toggleCardSelection_spec_witness :
  let page' := toggleCardSelection (card "1" ri true) hanziData storedPage in
  let sel := selectedCards (pageGame storedPage) in
  let sel' := selectedCards (pageGame page') in
  NoDup (id <$> sel') ∧
  (id (card "1" ri true) ∈ id <$> sel'
   ↔ id (card "1" ri true) ∉ id <$> sel) ∧
  (∀ c, id c ≠ id (card "1" ri true) → (c ∈ sel' ↔ c ∈ sel)) ∧
  possibleCombinations (pageGame page')
    = findPossibleCombinations sel' hanziData ∧
  availableCards (pageGame page') = availableCards (pageGame storedPage) ∧
  (id (card "1" ri true) ∉ id <$> sel →
   selectedCards
     (pageGame (toggleCardSelection (card "1" ri true) hanziData page'))
   = sel).
Proof.
  apply (toggleCardSelection_spec (card "1" ri true) hanziData storedPage).
  apply NoDup_nil_2.
Defined.

Lemma filter_length_lt {A} (P : A → Prop) `{∀ x, Decision (P x)}
    (l : list A) (x : A) :
  x ∈ l → ¬ P x → length (filter P l) < length l.
Proof.
  intros Hx Hnot.
  pose proof (filter_app_complement P l) as Hsplit.
  apply Permutation_length in Hsplit. rewrite length_app in Hsplit.
  assert (x ∈ filter (λ y, ¬ P y) l) as Hin
    by by apply list_elem_of_filter.
  destruct (filter (λ y, ¬ P y) l); [by apply elem_of_nil in Hin|].
  simpl in Hsplit. lia.
Qed.

(** X26. [handleSubmit].  When [checkAnswer] accepts the pool, the round is
    won: the new pool is the old one without the cards that show the whole
    target word, the other cards staying in their order; the selection and
    the candidates are emptied; attempts, target, hints and [gameOver] are
    not touched.  If the target is one code unit long at least one card
    goes, and the pool that is left is no longer accepted.  When
    [checkAnswer] rejects the pool, the pool stays, one attempt is used up,
    and the game is over when it was before or when at most one attempt was
    left; whether the game was over already is not looked at. *)
Theorem handleSubmit_spec (page : Page) :
  let state := pageGame page in
  let state' := pageGame (handleSubmit page) in
  if checkAnswer (availableCards state) (targetWord state) then
    won state' = true ∧
    availableCards state'
      = filter (λ c, character c ≠ targetWord state) (availableCards state) ∧
    selectedCards state' = [] ∧
    possibleCombinations state' = [] ∧
    attemptsLeft state' = attemptsLeft state ∧
    targetWord state' = targetWord state ∧
    hints state' = hints state ∧
    gameOver state' = gameOver state ∧
    (length (targetWord state) = 1 →
     length (availableCards state') < length (availableCards state) ∧
     checkAnswer (availableCards state') (targetWord state') = false)
  else
    availableCards state' = availableCards state ∧
    selectedCards state' = selectedCards state ∧
    won state' = won state ∧
    attemptsLeft state' = (attemptsLeft state - 1)%Z ∧
    (gameOver state' = true
     ↔ gameOver state = true ∨ (attemptsLeft state ≤ 1)%Z) ∧
    (pageMessage (handleSubmit page) = Some (MsgGameOver (targetWord state))
     ↔ (attemptsLeft state ≤ 1)%Z).
Proof.
  intros state state'. unfold state', handleSubmit. fold state.
  destruct (checkAnswer (availableCards state) (targetWord state))
    eqn:Hcheck; simpl.
  - split_and!; try done.
    intros Hlen.
    destruct (targetWord state) as [|u [|??]] eqn:Htarget; try done.
    unfold checkAnswer in Hcheck.
    apply matchTargetChars_spec in Hcheck. simpl in Hcheck.
    assert ([u] ∈ character <$> availableCards state) as Hin.
    { eapply elem_of_submseteq; [|exact Hcheck]. by left. }
    apply list_elem_of_fmap in Hin as (c & Hc & Hpool).
    split.
    + apply (filter_length_lt _ _ c Hpool). intros Hne. by apply Hne.
    + apply not_true_is_false. unfold checkAnswer.
      rewrite matchTargetChars_spec. simpl. intros Hsub.
      assert ([u] ∈ character <$>
                filter (λ card, character card ≠ [u]) (availableCards state))
        as Hin.
      { eapply elem_of_submseteq; [|exact Hsub]. by left. }
      apply list_elem_of_fmap in Hin as (c' & Hc' & Hin).
      apply list_elem_of_filter in Hin as [Hne _]. by apply Hne.
  - split; [done|]. split; [done|]. split; [done|]. split; [done|].
    destruct (Z.leb_spec (attemptsLeft state - 1) 0) as [Hle|Hgt].
    + split; [split; [intros _; right; lia|done]|].
      split; [intros _; lia|done].
    + split.
      * split; [by left|]. intros [?|?]; [done|lia].
      * split; [done|lia].
Qed.

Lemma generateHints_fuel_answer data fuel targetWord cards answer rest :
  filter (λ c, character c = targetWord) cards = answer :: rest →
  generateHints_fuel fuel targetWord cards data = Some [answerHint answer].
Proof.
  intros Hholders. unfold generateHints_fuel.
  by rewrite buildCharToCardIds_lookup, Hholders.
Qed.

(** X27. Combining into the target on the page.  [handleCombine] has no
    guard of its own: called with the target word as the symbol to build it
    returns for every selection, the empty one included (the new card is
    then simply added to the pool), and without entering the hint search, so
    also on a graph with a cycle.  Afterwards the state has exactly one
    hint, the answer hint for the first card of the pool that shows the
    target; the hint button highlights that card and nothing else and says
    that this is the answer, a second press finds no more hints; and if the
    target is one code unit long, submitting wins the round. *)
Theorem combine_into_target (fuel : nat) (data : GameData) (now : N)
    (page : Page) :
  let t := targetWord (pageGame page) in
  ∃ page1 answer,
    handleCombine_fuel fuel t data now page = Some page1 ∧
    answer ∈ availableCards (pageGame page1) ∧
    character answer = t ∧
    hints (pageGame page1) = [answerHint answer] ∧
    (selectedCards (pageGame page) = [] →
     ∃ newCard, availableCards (pageGame page1)
                = availableCards (pageGame page) ++ [newCard]) ∧
    let page2 := handleHint page1 in
    highlightedCardIds page2 = [id answer] ∧
    pageMessage page2 = Some MsgHintAnswer ∧
    pageMessage (handleHint page2) = Some MsgNoMoreHints ∧
    (length t = 1 → won (pageGame (handleSubmit page2)) = true).
Proof.
  intros t. unfold handleCombine_fuel, regenerateHints_fuel. simpl.
  fold t.
  set (pool' := combineCards (selectedCards (pageGame page)) t
                  (availableCards (pageGame page)) data now).
  assert (∃ kept newCard, pool' = kept ++ [newCard] ∧ character newCard = t ∧
            kept = filter (λ c, id c ∉ id <$> selectedCards (pageGame page))
                     (availableCards (pageGame page)))
    as (kept & newCard & Hpool' & Hnew & Hkept).
  { unfold pool'. rewrite combineCards_eq. by eexists _, _. }
  destruct (filter (λ c, character c = t) pool') as [|answer rest] eqn:Hholders.
  { exfalso.
    assert (newCard ∈ filter (λ c, character c = t) pool') as Hin.
    { apply list_elem_of_filter. split; [done|]. rewrite Hpool'.
      apply elem_of_app. right. by left. }
    rewrite Hholders in Hin. by apply elem_of_nil in Hin. }
  assert (answer ∈ pool' ∧ character answer = t) as [Hanswer Hchar].
  { assert (answer ∈ filter (λ c, character c = t) pool') as Hin
      by (rewrite Hholders; by left).
    by apply list_elem_of_filter in Hin as [? ?]. }
  rewrite (generateHints_fuel_answer data fuel t pool' answer rest Hholders).
  simpl. eexists _, answer. split; [reflexivity|]. simpl.
  split; [done|]. split; [done|]. split; [done|]. split.
  { intros Hsel. exists newCard. rewrite Hpool', Hkept, Hsel. f_equal.
    apply filter_all. intros c _. simpl. apply not_elem_of_nil. }
  unfold handleHint, useHint. simpl.
  split; [done|]. split; [done|]. split; [done|].
  intros Hlen. unfold handleSubmit. simpl. fold t.
  assert (checkAnswer pool' t = true) as ->; [|done].
  unfold checkAnswer. apply matchTargetChars_spec.
  destruct t as [|u [|??]] eqn:Ht; try done. simpl.
  apply singleton_submseteq_l. rewrite <-Hchar.
  by apply list_elem_of_fmap_2.
Qed.

(** ** The hints and the pool *)

(** X28. On a graph without cycles the hints and the highlighted ids of the
    page name cards of the pool throughout a round: if they do before an
    action of the player (a click on a card, a combination, a
    decomposition, also one that ends in an exception, a hint, an answer
    judged wrong), they do after it.  (An answer judged right takes cards
    out of the pool and keeps the hints.) *)
Theorem pageStep_hintsInPool (data : GameData) (rank : jsstring → nat)
    (page page' : Page) :
  ranked data rank →
  pageStep data page page' →
  hintsInPool page →
  hintsInPool page'.
Proof.
  intros Hranked Hstep [Hhints Hhigh]. unfold hintsInPool.
  destruct Hstep as [card page|fuel targetChar now page page' Hrun
                    |targetChar now page Hnone
                    |fuel card now page page' Hrun
                    |card now cards page Hcards Hnone
                    |page|page Hwrong].
  - done.
  - unfold handleCombine_fuel, regenerateHints_fuel in Hrun. simpl in Hrun.
    destruct (generateHints_fuel _ _ _ _) as [newHints|] eqn:Hnew; [|done].
    simpl in Hrun. injection Hrun as <-. simpl.
    split; [by eapply generateHints_fuel_ids|done].
  - exfalso.
    specialize (Hnone (S (rank (targetWord (pageGame page))))).
    unfold handleCombine_fuel, regenerateHints_fuel in Hnone.
    simpl in Hnone.
    destruct (generateHints_fuel_returns data rank
                (S (rank (targetWord (pageGame page))))
                (targetWord (pageGame page))
                (combineCards (selectedCards (pageGame page)) targetChar
                   (availableCards (pageGame page)) data now)
                Hranked ltac:(lia)) as [newHints Hnew].
    by rewrite Hnew in Hnone.
  - unfold handleDecompose_fuel, regenerateHints_fuel in Hrun.
    destruct (decomposeCard card (availableCards (pageGame page)) data now)
      as [cards|message].
    + simpl in Hrun.
      destruct (generateHints_fuel _ _ _ _) as [newHints|] eqn:Hnew; [|done].
      simpl in Hrun. injection Hrun as <-. simpl.
      split; [by eapply generateHints_fuel_ids|done].
    + injection Hrun as <-. done.
  - exfalso.
    specialize (Hnone (S (rank (targetWord (pageGame page))))).
    unfold handleDecompose_fuel, regenerateHints_fuel in Hnone.
    rewrite Hcards in Hnone. simpl in Hnone.
    destruct (generateHints_fuel_returns data rank
                (S (rank (targetWord (pageGame page))))
                (targetWord (pageGame page)) cards
                Hranked ltac:(lia)) as [newHints Hnew].
    by rewrite Hnew in Hnone.
  - unfold handleHint, useHint.
    destruct (list_find (λ h, used h = false) (hints (pageGame page)))
      as [[position nextHint]|] eqn:Hfind; simpl; [|done].
    apply list_find_Some in Hfind as (Hpos & _ & _).
    rewrite Forall_forall in Hhints.
    pose proof (Hhints nextHint (list_elem_of_lookup_2 _ _ _ Hpos)) as Hnext.
    split.
    + apply Forall_forall. intros h Hh.
      apply elem_of_lookup_imap_1 in Hh as (i & h0 & -> & Hh0).
      apply list_elem_of_lookup_2 in Hh0.
      case_bool_decide; simpl; by apply Hhints.
    + apply (foldl_invariant
               (λ s, Forall (λ i, i ∈ id <$> availableCards (pageGame page)) s));
        [done|].
      intros s x Hx Hs. apply Forall_forall. intros i Hi.
      apply elem_of_setAdd in Hi as [->|Hi].
      * rewrite Forall_forall in Hnext. by apply Hnext.
      * rewrite Forall_forall in Hs. by apply Hs.
  - unfold handleSubmit. rewrite Hwrong. done.
Qed.

Lemma pageStep_hintsInPool_witness :
  hintsInPool
    (default storedPage
       (handleCombine_fuel 3 duo hanziData 1700%N storedPage)).
Proof.
  apply (pageStep_hintsInPool hanziData hanziRank storedPage).
  - by apply (bool_decide_unpack _); vm_compute.
  - apply (StepCombine hanziData 3 duo 1700%N storedPage). by vm_compute.
  - split; apply Forall_nil_2.
Defined.

(** On the graph with the cycle the hint search for the pool that the
    combination of [R] into [Z] leaves does not return: the page keeps the
    highlight of the card [R], which is no longer in the pool. *)
Example aborted_combine_keeps_highlights :
  (∀ fuel,
     handleCombine_fuel fuel (lit "Z") cyclicData 1700%N cyclicPage = None) ∧
  hintsInPool cyclicPage ∧
  pageStep cyclicData cyclicPage
    (handleCombine_aborted (lit "Z") cyclicData 1700%N cyclicPage) ∧
  ¬ hintsInPool (handleCombine_aborted (lit "Z") cyclicData 1700%N cyclicPage).
Proof.
  assert (∀ fuel,
            handleCombine_fuel fuel (lit "Z") cyclicData 1700%N cyclicPage
            = None) as Hstuck.
  { intros fuel. unfold handleCombine_fuel, regenerateHints_fuel.
    set (pool' := combineCards _ _ _ _ _).
    set (st := withSelection _ _ _ _).
    replace (targetWord st) with (lit "A") by done.
    replace (availableCards st) with pool' by done.
    assert (generateHints_fuel fuel (lit "A") pool' cyclicData = None) as ->;
      [|done].
    replace pool' with
      (cyclicPool ++ [{| id := lit "Z-combined-1700"; character := lit "Z";
                         isLeaf := true |}]) by by vm_compute.
    unfold generateHints_fuel.
    replace (buildCharToCardIds _ !! lit "A") with (@None (list jsstring))
      by by vm_compute.
    unfold findValidNextSteps_fuel.
    replace (length (cyclicPool ++ _)) with 3 by done.
    cbn [seq Nat.add Nat.sub].
    rewrite forEachM_cons. cbn beta. cbn [seq Nat.add Nat.sub].
    rewrite forEachM_cons. cbn beta.
    match goal with
    | |- context [checkGroup fuel (lit "A") cyclicData ?g []] =>
        replace (checkGroup fuel (lit "A") cyclicData g [])
          with (@None (list Step)); [done|]
    end.
    unfold checkGroup.
    match goal with
    | |- context [default [] ?l] =>
        replace (default [] l) with [lit "X"] by by vm_compute
    end.
    rewrite forEachM_cons. cbn beta zeta.
    match goal with
    | |- context [hasEnoughComponents ?a ?b cyclicData] =>
        replace (hasEnoughComponents a b cyclicData) with true
          by by vm_compute
    end.
    replace (bool_decide (lit "X" = lit "A")) with false by by vm_compute.
    cbn [negb].
    destruct (isPartOfDecomposition_cycle cyclicData (lit "X") (lit "A")
                (lit "B") (entry (lit "A") [lit "B"])
                (entry (lit "B") [lit "A"])
                ltac:(by vm_compute) ltac:(by vm_compute)
                ltac:(by vm_compute) ltac:(by vm_compute)
                ltac:(by vm_compute) ltac:(by vm_compute) fuel) as [-> _].
    done. }
  split; [done|]. split; [|split].
  - split; [apply Forall_nil_2|].
    apply Forall_singleton. by apply (bool_decide_unpack _); vm_compute.
  - by apply StepCombineAborted.
  - intros [_ Hhigh]. apply Forall_singleton in Hhigh.
    revert Hhigh. apply (bool_decide_unpack _). by vm_compute.
Qed.
